(** * HPCG: problem generation and residual reduction

    A shallow embedding of [ComputeResidual] (src/ComputeResidual.cpp) and of
    [GenerateProblem] (src/GenerateProblem.cpp), and the properties of the
    generated 27-point stencil system.

    Conventions of the embedding:
    - [double] is IEEE-754 binary64, through the Standard Library's
      executable specification [spec_float] (precision 53, emax 1024);
    - an [int], [local_int_t], [global_int_t] or [long long] value is an
      integer of [Z] in the range of its type: every integer operation of
      [GenerateProblem] is followed by the wrap-around of the type it is
      done in ([wrap]); [int] has 32 bits, [long long] 64, and the widths of
      the two index types, declared outside the two source files, are
      parameters ([index_types]);
    - the same routine over unbounded integers ([exact_GenerateProblem] and
      the other [exact_] definitions) is the reference of the proofs: a
      machine run yields it when no operation overflows ([no_overflow],
      [GenerateProblem_run]), and the properties of the generated problem
      are stated for these runs;
    - an array obtained from [new T[n]] is a list of [n] cells, a cell being
      [None] while its content is indeterminate; a pointer into an array is
      the offset of the cell it points to, the null pointer is [None]; an
      access outside an array has no defined behaviour, and a run that
      comes to one ends as [Undefined];
    - [std::vector] is a list updated by index, [std::map] a [gmap];
    - a reduction over the processes takes the contributions of the other
      ranks as a list, empty in a single-process run;
    - the threads of [ComputeResidual] are given by a schedule of the
      iterations; the row loops of [GenerateProblem] are run in the order of
      the source, their iterations writing disjoint cells, and the state
      they leave is the same for every order of the iterations when nothing
      overflows ([generate_in_order_exact]). *)

From Stdlib Require Import ZArith List Lia Sorted.
From Stdlib Require Import Floats.SpecFloat.
From stdpp Require Import base list sorting gmap.

Local Open Scope Z_scope.

(** ** Binary64 arithmetic *)

Module Double.

Definition double : Type := spec_float.

Definition prec : Z := 53.
Definition emax : Z := 1024.

(** [(double) z] for an integer [z]. *)
Definition of_Z (z : Z) : double := binary_normalize prec emax z 0 false.

Definition sub (a b : double) : double := SFsub prec emax a b.
Definition add (a b : double) : double := SFadd prec emax a b.
Definition mul (a b : double) : double := SFmul prec emax a b.

(** [std::fabs]. *)
Definition fabs (a : double) : double := SFabs a.

(** The C++ comparison [a > b]; false as soon as one side is a NaN. *)
Definition gt (a b : double) : bool := SFltb b a.

(** [a <= b]. *)
Definition le (a b : double) : bool := SFleb a b.

Definition is_nan (a : double) : bool :=
  match a with S754_nan => true | _ => false end.

Definition zero : double := S754_zero false.
Definition nan : double := S754_nan.
Definition infinity : double := S754_infinity false.

End Double.

Import Double.

(** ** ComputeResidual *)

Module Residual.

(** [v[i]]: reading outside the vector has no defined result, [None]. *)
Definition read (v : list double) (i : Z) : option double :=
  if 0 <=? i then v !! Z.to_nat i else None.

(** One iteration of [for (i=0; i<n; i++)]: the running maximum is replaced
    by [fabs(v1[i] - v2[i])] when that is greater. *)
Definition residual_step (v1 v2 : list double) (acc : option double) (i : Z)
  : option double :=
  match acc, read v1 i, read v2 i with
  | Some res, Some a, Some b =>
      let diff := fabs (sub a b) in
      Some (if gt diff res then diff else res)
  | _, _, _ => None
  end.

(** The loop over a list of iteration indices, from a given start value. *)
Definition residual_loop (v1 v2 : list double) (is_ : list Z) (res : double)
  : option double :=
  fold_left (residual_step v1 v2) is_ (Some res).

(** [if (threadlocal_residual > local_residual) local_residual = ...]. *)
Definition merge_thread (local_residual threadlocal_residual : double) : double :=
  if gt threadlocal_residual local_residual
  then threadlocal_residual else local_residual.

(** [MPI_Allreduce(..., MPI_MAX, ...)] over the contributions of the other
    ranks; a single-process run has none. *)
Definition MPI_Allreduce_MAX (local_residual : double) (others : list double)
  : double :=
  fold_left merge_thread others local_residual.

(** The build without threads ([HPCG_NOOPENMP]): one loop over [0..n-1].
    The result is the pair of the returned status and of [*residual]. *)
Definition ComputeResidual (n : Z) (v1 v2 : list double) : option (Z * double) :=
  match residual_loop v1 v2 (seqZ 0 n) zero with
  | Some local_residual => Some (0, MPI_Allreduce_MAX local_residual [])
  | None => None
  end.

(** The threaded build.  [schedule] lists, for every thread of the team in
    the order in which the threads enter the critical section, the
    iterations the work-sharing loop gave to it.  Every thread starts from
    [threadlocal_residual = 0.0]. *)
Definition thread_residuals (v1 v2 : list double) (schedule : list (list Z))
  : option (list double) :=
  mapM (fun chunk => residual_loop v1 v2 chunk zero) schedule.

Definition ComputeResidual_omp (schedule : list (list Z)) (v1 v2 : list double)
  : option (Z * double) :=
  match thread_residuals v1 v2 schedule with
  | Some ts =>
      let local_residual := fold_left merge_thread ts zero in
      Some (0, MPI_Allreduce_MAX local_residual [])
  | None => None
  end.

(** A schedule of the iteration space [0..n-1]: every iteration is run by
    exactly one thread. *)
Definition schedule_of (n : Z) (schedule : list (list Z)) : Prop :=
  mjoin schedule ≡ₚ seqZ 0 n.

(** [r] is the maximum of the values [ds]: it is one of them and none is
    above it. *)
Definition is_maximum (r : double) (ds : list double) : Prop :=
  r ∈ ds /\ forall d, d ∈ ds -> le d r = true.

(** The absolute differences [|v1[i] - v2[i]|]. *)
Definition abs_diffs (v1 v2 : list double) : list double :=
  zip_with (fun a b => fabs (sub a b)) v1 v2.

(** [|v1[i] - v2[i]|] for one index, when both reads are in range. *)
Definition diff_at (v1 v2 : list double) (i : Z) : option double :=
  match read v1 i, read v2 i with
  | Some a, Some b => Some (fabs (sub a b))
  | _, _ => None
  end.

(** [r] is what a running maximum started at [res] holds after the values
    [ds]: nothing seen is greater, and it is the start value or one of the
    values, never a NaN picked up on the way. *)
Definition running_max (res : double) (ds : list double) (r : double) : Prop :=
  gt res r = false
  /\ (forall d, d ∈ ds -> gt d r = false)
  /\ (r = res \/ (r ∈ ds /\ is_nan r = false)).

(** The sentence of the specification read on every pair of vectors of
    doubles: the status is 0 and the value written is the maximum of the
    absolute differences, 0.0 for empty vectors and for identical ones. *)
Definition residual_is_max_of_all (n : Z) (v1 v2 : list double) : Prop :=
  exists r, ComputeResidual n v1 v2 = Some (0, r)
    /\ (n = 0 -> r = zero)
    /\ (0 < n -> is_maximum r (abs_diffs v1 v2))
    /\ (v1 = v2 -> r = zero).

(** *** Runs on several processes *)

(** What one rank passes to [ComputeResidual]: [n], [v1] and [v2]. *)
Definition rank_vectors : Type := Z * (list double * list double).

(** [local_residual] of one rank when the loop is done. *)
Definition rank_residual (a : rank_vectors) : option double :=
  residual_loop a.2.1 a.2.2 (seqZ 0 a.1) zero.

(** [ComputeResidual] on the rank [me] of a run whose ranks hold [ranks]:
    every rank runs its loop, and the reduction combines the local residual
    of [me] with those of the other ranks. *)
Definition ComputeResidual_on_rank (ranks : list rank_vectors) (me : nat)
  : option (Z * double) :=
  match mapM rank_residual ranks with
  | Some locals =>
      match locals !! me with
      | Some local_residual =>
          Some (0, MPI_Allreduce_MAX local_residual (delete me locals))
      | None => None
      end
  | None => None
  end.

(** The vectors of all ranks, one after the other. *)
Definition all_v1 (ranks : list rank_vectors) : list double :=
  mjoin (map (fun a => a.2.1) ranks).
Definition all_v2 (ranks : list rank_vectors) : list double :=
  mjoin (map (fun a => a.2.2) ranks).

End Residual.

(** ** GenerateProblem *)

Module Problem.

(** The fields of [Geometry] that the generator reads. *)
Record Geometry := {
  size : Z; rank : Z;
  nx : Z; ny : Z; nz : Z;
  npx : Z; npy : Z; npz : Z;
  ipx : Z; ipy : Z; ipz : Z }.

(** What the generator builds: the fields of the [SparseMatrix] [A]
    (from [totalNumberOfRows] to [globalToLocalMap]; [title], set to null,
    is left out) and the three vectors returned through [*b], [*x] and
    [*xexact].  [matrixDiagonal[i]] points into [matrixValues[i]]; it is kept
    as the offset it points to. *)
Record Problem := {
  totalNumberOfRows : Z;
  totalNumberOfNonzeros : Z;
  localNumberOfRows : Z;
  localNumberOfColumns : Z;
  localNumberOfNonzeros : Z;
  nonzerosInRow : list (option Z);
  mtxIndG : list (list (option Z));
  mtxIndL : list (list (option Z));
  matrixValues : list (list (option double));
  matrixDiagonal : list (option nat);
  localToGlobalMap : list Z;
  globalToLocalMap : gmap Z Z;
  b : list (option double);
  x : list (option double);
  xexact : list (option double) }.

Definition numberOfNonzerosPerRow : nat := 27.

(** The offsets visited by [for (int s=-1; s<=1; s++)]. *)
Definition stencil : list Z := [-1; 0; 1].

(** The row being filled: the two arrays of the row, the diagonal pointer,
    the two running pointers and the running count. *)
Record Row := {
  values : list (option double);
  indices : list (option Z);
  diagonal : option nat;
  currentValuePointer : nat;
  currentIndexPointerG : nat;
  numberOfNonzerosInRow : Z }.

(** *** The integer types

    [int] has 32 bits and [long long] 64.  [Geometry.hpp], which declares
    [local_int_t] and [global_int_t], is taken as a parameter: the two
    widths, in bits (the two types are [int] or [long long], at least as
    wide as [int]).  An operation on two integer types is done in the wider
    one; a result that does not fit wraps around (two's complement), which
    is what the assertions are written to catch. *)
Record index_types := { local_bits : Z; global_bits : Z }.

Definition int_bits : Z := 32.
Definition long_long_bits : Z := 64.

Definition representable (bits z : Z) : Prop :=
  - 2 ^ (bits - 1) <= z < 2 ^ (bits - 1).

Definition wrap (bits z : Z) : Z :=
  (z + 2 ^ (bits - 1)) mod 2 ^ bits - 2 ^ (bits - 1).

Inductive assertion :=
  | localNumberOfRows_positive
  | totalNumberOfRows_positive
  | totalNumberOfNonzeros_positive.

(** How a run of the routine ends: on a failed assertion, on an access
    outside the allocated arrays, which has no defined behaviour, or with
    the problem generated. *)
Inductive outcome :=
  | AssertionFailed (a : assertion)
  | Undefined
  | Generated (p : Problem).

(** *** The routine as the machine runs it *)

(** [int gnx = nx*npx], [int gny = ny*npy], [int gnz = nz*npz]. *)
Definition gnx (geom : Geometry) : Z := wrap int_bits (nx geom * npx geom).
Definition gny (geom : Geometry) : Z := wrap int_bits (ny geom * npy geom).
Definition gnz (geom : Geometry) : Z := wrap int_bits (nz geom * npz geom).

(** [local_int_t localNumberOfRows = nx*ny*nz]: the product is an [int]. *)
Definition machine_localNumberOfRows (T : index_types) (geom : Geometry) : Z :=
  wrap (local_bits T)
    (wrap int_bits (wrap int_bits (nx geom * ny geom) * nz geom)).

(** [global_int_t totalNumberOfRows = localNumberOfRows*geom.size]: the
    product is formed in [local_int_t] and widened afterwards. *)
Definition machine_totalNumberOfRows (T : index_types) (geom : Geometry) : Z :=
  wrap (global_bits T)
    (wrap (Z.max int_bits (local_bits T))
       (machine_localNumberOfRows T geom * size geom)).

(** The state after the allocations: row arrays of 27 indeterminate cells,
    null diagonal pointers, vectors of indeterminate cells, a
    local-to-global map resized to [localNumberOfRows] zeros. *)
Definition allocate (rows : Z) : Problem :=
  let n := Z.to_nat rows in
  {| totalNumberOfRows := 0;
     totalNumberOfNonzeros := 0;
     localNumberOfRows := 0;
     localNumberOfColumns := 0;
     localNumberOfNonzeros := 0;
     nonzerosInRow := replicate n None;
     mtxIndG := replicate n (replicate numberOfNonzerosPerRow None);
     mtxIndL := replicate n (replicate numberOfNonzerosPerRow None);
     matrixValues := replicate n (replicate numberOfNonzerosPerRow None);
     matrixDiagonal := replicate n None;
     localToGlobalMap := replicate n 0;
     globalToLocalMap := ∅;
     b := replicate n None;
     x := replicate n None;
     xexact := replicate n None |}.

(** [global_int_t gix = ipx*nx+ix]: the product is an [int], the sum is
    formed with the [local_int_t] loop counter and stored in a
    [global_int_t]; and so for [giy] and [giz]. *)
Definition global_x (T : index_types) (geom : Geometry) (ix : Z) : Z :=
  wrap (global_bits T)
    (wrap (Z.max int_bits (local_bits T)) (wrap int_bits (ipx geom * nx geom) + ix)).
Definition global_y (T : index_types) (geom : Geometry) (iy : Z) : Z :=
  wrap (global_bits T)
    (wrap (Z.max int_bits (local_bits T)) (wrap int_bits (ipy geom * ny geom) + iy)).
Definition global_z (T : index_types) (geom : Geometry) (iz : Z) : Z :=
  wrap (global_bits T)
    (wrap (Z.max int_bits (local_bits T)) (wrap int_bits (ipz geom * nz geom) + iz)).

(** [local_int_t currentLocalRow = iz*nx*ny+iy*nx+ix], formed in
    [local_int_t]. *)
Definition local_row (T : index_types) (geom : Geometry) (iz iy ix : Z) : Z :=
  let l := Z.max int_bits (local_bits T) in
  wrap (local_bits T)
    (wrap l (wrap l (wrap l (wrap l (iz * nx geom) * ny geom) + wrap l (iy * nx geom))
             + ix)).

(** [global_int_t currentGlobalRow = giz*gnx*gny+giy*gnx+gix], formed in
    [global_int_t]. *)
Definition global_row (T : index_types) (geom : Geometry) (giz giy gix : Z) : Z :=
  let g := Z.max int_bits (global_bits T) in
  wrap (global_bits T)
    (wrap g (wrap g (wrap g (wrap g (giz * gnx geom) * gny geom)
                     + wrap g (giy * gnx geom))
             + gix)).

(** The bounds test of one axis, [g+s>-1 && g+s<gn]: the sum is formed in
    [global_int_t]. *)
Definition in_bounds (T : index_types) (gi gn s : Z) : bool :=
  let sum := wrap (Z.max int_bits (global_bits T)) (gi + s) in
  (sum >? -1) && (sum <? gn).

(** The body of the innermost bounds test: one stencil entry is stored.
    In [curcol = currentGlobalRow+sz*gnx*gny+sy*gnx+sx] the two products are
    products of [int]s, formed in [int]; the sums are formed in
    [global_int_t], from left to right. *)
Definition store_entry (T : index_types) (currentGlobalRow gnx gny sz sy sx : Z)
    (r : Row) : Row :=
  let g := Z.max int_bits (global_bits T) in
  let curcol :=
    wrap (global_bits T)
      (wrap g (wrap g (wrap g (currentGlobalRow
                               + wrap int_bits (wrap int_bits (sz * gnx) * gny))
                       + wrap int_bits (sy * gnx))
               + sx)) in
  {| values :=
       <[currentValuePointer r :=
           Some (if curcol =? currentGlobalRow then of_Z 27 else of_Z (-1))]>
         (values r);
     diagonal :=
       if curcol =? currentGlobalRow then Some (currentValuePointer r)
       else diagonal r;
     currentValuePointer := S (currentValuePointer r);
     indices := <[currentIndexPointerG r := Some curcol]> (indices r);
     currentIndexPointerG := S (currentIndexPointerG r);
     numberOfNonzerosInRow := numberOfNonzerosInRow r + 1 |}.

(** The three nested stencil loops with their bounds tests. *)
Definition stencil_loops (T : index_types)
    (currentGlobalRow gix giy giz gnx gny gnz : Z) (r : Row) : Row :=
  fold_left (fun r sz =>
    if in_bounds T giz gnz sz then
      fold_left (fun r sy =>
        if in_bounds T giy gny sy then
          fold_left (fun r sx =>
            if in_bounds T gix gnx sx then
              store_entry T currentGlobalRow gnx gny sz sy sx r
            else r) stencil r
        else r) stencil r
    else r) stencil r.

(** The row arrays as they stand when the stencil loops start on a row. *)
Definition open_row (st : Problem) (currentLocalRow : Z) : Row :=
  {| values := default [] (matrixValues st !! Z.to_nat currentLocalRow);
     indices := default [] (mtxIndG st !! Z.to_nat currentLocalRow);
     diagonal := default None (matrixDiagonal st !! Z.to_nat currentLocalRow);
     currentValuePointer := 0%nat;
     currentIndexPointerG := 0%nat;
     numberOfNonzerosInRow := 0 |}.

(** The body of the loop over [ix]: one local row is generated.  The arrays
    hold one cell per allocated row; an access at a [currentLocalRow]
    outside them has no defined behaviour, [None].  The count of the row is
    a [char], at most 27; the local count is accumulated in
    [local_int_t]. *)
Definition generate_row (T : index_types) (geom : Geometry) (iz iy ix : Z)
    (st : Problem) : option Problem :=
  let giz := global_z T geom iz in
  let giy := global_y T geom iy in
  let gix := global_x T geom ix in
  let currentLocalRow := local_row T geom iz iy ix in
  let currentGlobalRow := global_row T geom giz giy gix in
  if (0 <=? currentLocalRow)
     && (currentLocalRow <? Z.of_nat (length (nonzerosInRow st)))
  then
    let i := Z.to_nat currentLocalRow in
    let r := stencil_loops T currentGlobalRow gix giy giz
               (gnx geom) (gny geom) (gnz geom) (open_row st currentLocalRow) in
    Some
      {| totalNumberOfRows := totalNumberOfRows st;
         totalNumberOfNonzeros := totalNumberOfNonzeros st;
         localNumberOfRows := localNumberOfRows st;
         localNumberOfColumns := localNumberOfColumns st;
         localNumberOfNonzeros :=
           wrap (local_bits T)
             (wrap (Z.max int_bits (local_bits T))
                (localNumberOfNonzeros st + numberOfNonzerosInRow r));
         nonzerosInRow := <[i := Some (numberOfNonzerosInRow r)]> (nonzerosInRow st);
         mtxIndG := <[i := indices r]> (mtxIndG st);
         mtxIndL := mtxIndL st;
         matrixValues := <[i := values r]> (matrixValues st);
         matrixDiagonal := <[i := diagonal r]> (matrixDiagonal st);
         localToGlobalMap := <[i := currentGlobalRow]> (localToGlobalMap st);
         globalToLocalMap :=
           <[currentGlobalRow := currentLocalRow]> (globalToLocalMap st);
         b := <[i := Some (sub (of_Z 27) (of_Z (numberOfNonzerosInRow r - 1)))]> (b st);
         x := <[i := Some (of_Z 0)]> (x st);
         xexact := <[i := Some (of_Z 1)]> (xexact st) |}
  else None.

(** The loops over [iz], [iy] and [ix]; the counters are [local_int_t]. *)
Definition generate_rows (T : index_types) (geom : Geometry) (st : option Problem)
  : option Problem :=
  fold_left (fun st iz =>
    fold_left (fun st iy =>
      fold_left (fun st ix => st ≫= generate_row T geom iz iy ix)
        (seqZ 0 (nx geom)) st)
      (seqZ 0 (ny geom)) st)
    (seqZ 0 (nz geom)) st.

(** [MPI_Allreduce(..., MPI_SUM, ...)]: the local count and the counts of
    the other ranks; a single-process run has no other rank. *)
Definition MPI_Allreduce_SUM (local : Z) (others : list Z) : Z :=
  fold_left Z.add others local.

(** [GenerateProblem], run by the process with geometry [geom]; [others]
    holds the [long long] counts that the other ranks pass to the
    sum-reduction.  The local count is converted to [long long], the
    reduction sums in [long long], and the sum is copied back to a
    [global_int_t]. *)
Definition GenerateProblem (T : index_types) (others : list Z) (geom : Geometry)
  : outcome :=
  let localNumberOfRows := machine_localNumberOfRows T geom in
  if negb (localNumberOfRows >? 0) then AssertionFailed localNumberOfRows_positive
  else
  let totalNumberOfRows := machine_totalNumberOfRows T geom in
  if negb (totalNumberOfRows >? 0) then AssertionFailed totalNumberOfRows_positive
  else
  match generate_rows T geom (Some (allocate localNumberOfRows)) with
  | None => Undefined
  | Some st =>
      let lnnz := wrap long_long_bits (localNumberOfNonzeros st) in
      let gnnz := wrap long_long_bits (MPI_Allreduce_SUM lnnz others) in
      let totalNumberOfNonzeros := wrap (global_bits T) gnnz in
      if negb (totalNumberOfNonzeros >? 0)
      then AssertionFailed totalNumberOfNonzeros_positive
      else
      Generated
        {| totalNumberOfRows := totalNumberOfRows;
           totalNumberOfNonzeros := totalNumberOfNonzeros;
           localNumberOfRows := localNumberOfRows;
           localNumberOfColumns := localNumberOfRows;
           localNumberOfNonzeros := localNumberOfNonzeros st;
           nonzerosInRow := nonzerosInRow st;
           mtxIndG := mtxIndG st;
           mtxIndL := mtxIndL st;
           matrixValues := matrixValues st;
           matrixDiagonal := matrixDiagonal st;
           localToGlobalMap := localToGlobalMap st;
           globalToLocalMap := globalToLocalMap st;
           b := b st;
           x := x st;
           xexact := xexact st |}
  end.

(** The local grid points [(iz, iy, ix)] in the order of the row loops. *)
Definition points (geom : Geometry) : list (Z * Z * Z) :=
  iz ← seqZ 0 (nz geom);
  iy ← seqZ 0 (ny geom);
  ix ← seqZ 0 (nx geom);
  [(iz, iy, ix)].

(** The body of the row loops at one local point, and the rows generated
    in a given order of the local points: the threaded build gives the
    planes [iz] to the threads of a team. *)
Definition generate_at (T : index_types) (geom : Geometry) (st : option Problem)
    (p : Z * Z * Z) : option Problem :=
  st ≫= generate_row T geom p.1.1 p.1.2 p.2.

Definition generate_in_order (T : index_types) (geom : Geometry)
    (order : list (Z * Z * Z)) : option Problem :=
  fold_left (generate_at T geom) order
    (Some (allocate (machine_localNumberOfRows T geom))).

(** The [long long] count that the process [geom] passes to the
    sum-reduction, when it reaches it. *)
Definition contribution (T : index_types) (geom : Geometry) : option Z :=
  if negb (machine_localNumberOfRows T geom >? 0) then None
  else if negb (machine_totalNumberOfRows T geom >? 0) then None
  else
    st ← generate_rows T geom (Some (allocate (machine_localNumberOfRows T geom)));
    Some (wrap long_long_bits (localNumberOfNonzeros st)).

(** *** The same generation over unbounded integers

    The routine once more, with every integer operation exact: the system
    that the routine is written to produce, and the reference of the proofs.
    A machine run yields it when nothing overflows ([no_overflow]). *)

(** The body of the innermost bounds test: one stencil entry is stored. *)
Definition exact_store_entry (currentGlobalRow gnx gny sz sy sx : Z) (r : Row) : Row :=
  let curcol := currentGlobalRow + sz * gnx * gny + sy * gnx + sx in
  {| values :=
       <[currentValuePointer r :=
           Some (if curcol =? currentGlobalRow then of_Z 27 else of_Z (-1))]>
         (values r);
     diagonal :=
       if curcol =? currentGlobalRow then Some (currentValuePointer r)
       else diagonal r;
     currentValuePointer := S (currentValuePointer r);
     indices := <[currentIndexPointerG r := Some curcol]> (indices r);
     currentIndexPointerG := S (currentIndexPointerG r);
     numberOfNonzerosInRow := numberOfNonzerosInRow r + 1 |}.

(** The bounds test of one axis: [g+s>-1 && g+s<gn]. *)
Definition exact_in_bounds (gi gn s : Z) : bool := (gi + s >? -1) && (gi + s <? gn).

(** The three nested stencil loops with their bounds tests. *)
Definition exact_stencil_loops (currentGlobalRow gix giy giz gnx gny gnz : Z) (r : Row)
  : Row :=
  fold_left (fun r sz =>
    if exact_in_bounds giz gnz sz then
      fold_left (fun r sy =>
        if exact_in_bounds giy gny sy then
          fold_left (fun r sx =>
            if exact_in_bounds gix gnx sx then
              exact_store_entry currentGlobalRow gnx gny sz sy sx r
            else r) stencil r
        else r) stencil r
    else r) stencil r.

Definition exact_gnx (geom : Geometry) : Z := nx geom * npx geom.
Definition exact_gny (geom : Geometry) : Z := ny geom * npy geom.
Definition exact_gnz (geom : Geometry) : Z := nz geom * npz geom.

Definition exact_local_row (geom : Geometry) (iz iy ix : Z) : Z :=
  iz * nx geom * ny geom + iy * nx geom + ix.

Definition exact_global_x (geom : Geometry) (ix : Z) : Z := ipx geom * nx geom + ix.
Definition exact_global_y (geom : Geometry) (iy : Z) : Z := ipy geom * ny geom + iy.
Definition exact_global_z (geom : Geometry) (iz : Z) : Z := ipz geom * nz geom + iz.

Definition exact_global_row (geom : Geometry) (iz iy ix : Z) : Z :=
  exact_global_z geom iz * exact_gnx geom * exact_gny geom
  + exact_global_y geom iy * exact_gnx geom + exact_global_x geom ix.

(** The body of the loop over [ix]: one local row is generated. *)
Definition exact_generate_row (geom : Geometry) (iz iy ix : Z) (st : Problem) : Problem :=
  let giz := exact_global_z geom iz in
  let giy := exact_global_y geom iy in
  let gix := exact_global_x geom ix in
  let currentLocalRow := exact_local_row geom iz iy ix in
  let currentGlobalRow := exact_global_row geom iz iy ix in
  let i := Z.to_nat currentLocalRow in
  let r := exact_stencil_loops currentGlobalRow gix giy giz
             (exact_gnx geom) (exact_gny geom) (exact_gnz geom) (open_row st currentLocalRow) in
  {| totalNumberOfRows := totalNumberOfRows st;
     totalNumberOfNonzeros := totalNumberOfNonzeros st;
     localNumberOfRows := localNumberOfRows st;
     localNumberOfColumns := localNumberOfColumns st;
     localNumberOfNonzeros := localNumberOfNonzeros st + numberOfNonzerosInRow r;
     nonzerosInRow := <[i := Some (numberOfNonzerosInRow r)]> (nonzerosInRow st);
     mtxIndG := <[i := indices r]> (mtxIndG st);
     mtxIndL := mtxIndL st;
     matrixValues := <[i := values r]> (matrixValues st);
     matrixDiagonal := <[i := diagonal r]> (matrixDiagonal st);
     localToGlobalMap := <[i := currentGlobalRow]> (localToGlobalMap st);
     globalToLocalMap := <[currentGlobalRow := currentLocalRow]> (globalToLocalMap st);
     b := <[i := Some (sub (of_Z 27) (of_Z (numberOfNonzerosInRow r - 1)))]> (b st);
     x := <[i := Some (of_Z 0)]> (x st);
     xexact := <[i := Some (of_Z 1)]> (xexact st) |}.

(** The loops over [iz], [iy] and [ix]. *)
Definition exact_generate_rows (geom : Geometry) (st : Problem) : Problem :=
  fold_left (fun st iz =>
    fold_left (fun st iy =>
      fold_left (fun st ix => exact_generate_row geom iz iy ix st)
        (seqZ 0 (nx geom)) st)
      (seqZ 0 (ny geom)) st)
    (seqZ 0 (nz geom)) st.

(** The local nonzero count a process with geometry [geom] contributes to
    the sum-reduction. *)
Definition exact_local_nonzeros (geom : Geometry) : Z :=
  localNumberOfNonzeros
    (exact_generate_rows geom (allocate (nx geom * ny geom * nz geom))).

(** [GenerateProblem] over unbounded integers, run by the process with
    geometry [geom] next to the processes with geometries [peers], whose
    exact local counts enter the sum-reduction. *)
Definition exact_GenerateProblem (peers : list Geometry) (geom : Geometry) : outcome :=
  let localNumberOfRows := nx geom * ny geom * nz geom in
  if negb (localNumberOfRows >? 0) then AssertionFailed localNumberOfRows_positive
  else
  let totalNumberOfRows := localNumberOfRows * size geom in
  if negb (totalNumberOfRows >? 0) then AssertionFailed totalNumberOfRows_positive
  else
  let st := exact_generate_rows geom (allocate localNumberOfRows) in
  let localNumberOfNonzeros := localNumberOfNonzeros st in
  let totalNumberOfNonzeros :=
    MPI_Allreduce_SUM localNumberOfNonzeros (map exact_local_nonzeros peers) in
  if negb (totalNumberOfNonzeros >? 0)
  then AssertionFailed totalNumberOfNonzeros_positive
  else
  Generated
    {| totalNumberOfRows := totalNumberOfRows;
       totalNumberOfNonzeros := totalNumberOfNonzeros;
       localNumberOfRows := localNumberOfRows;
       localNumberOfColumns := localNumberOfRows;
       localNumberOfNonzeros := localNumberOfNonzeros;
       nonzerosInRow := nonzerosInRow st;
       mtxIndG := mtxIndG st;
       mtxIndL := mtxIndL st;
       matrixValues := matrixValues st;
       matrixDiagonal := matrixDiagonal st;
       localToGlobalMap := localToGlobalMap st;
       globalToLocalMap := globalToLocalMap st;
       b := b st;
       x := x st;
       xexact := xexact st |}.

(** *** The same loops, read as lists of what they visit *)

(** The stencil offsets [(sz, sy, sx)] that pass the three bounds tests, in
    the order in which the stencil loops store them. *)
Definition candidates (gix giy giz gnx gny gnz : Z) : list (Z * Z * Z) :=
  sz ← stencil;
  if exact_in_bounds giz gnz sz then
    sy ← stencil;
    if exact_in_bounds giy gny sy then
      sx ← stencil;
      if exact_in_bounds gix gnx sx then [(sz, sy, sx)] else []
    else []
  else [].

Definition exact_store_at (currentGlobalRow gnx gny : Z) (r : Row) (o : Z * Z * Z) : Row :=
  exact_store_entry currentGlobalRow gnx gny o.1.1 o.1.2 o.2 r.

Definition exact_generate_at (geom : Geometry) (st : Problem) (p : Z * Z * Z) : Problem :=
  exact_generate_row geom p.1.1 p.1.2 p.2 st.

(** [curcol] for the stencil offset [o] of the row of the point [p]. *)
Definition column (geom : Geometry) (p o : Z * Z * Z) : Z :=
  exact_global_row geom p.1.1 p.1.2 p.2
  + o.1.1 * exact_gnx geom * exact_gny geom + o.1.2 * exact_gnx geom + o.2.

(** The stencil entries of the row of the local point [p]. *)
Definition row_entries (geom : Geometry) (p : Z * Z * Z) : list (Z * Z * Z) :=
  candidates (exact_global_x geom p.2) (exact_global_y geom p.1.2) (exact_global_z geom p.1.1)
    (exact_gnx geom) (exact_gny geom) (exact_gnz geom).

(** How many of the three offsets of one axis pass the bounds test. *)
Definition axis_count (gi gn : Z) : Z :=
  Z.b2z (exact_in_bounds gi gn (-1)) + Z.b2z (exact_in_bounds gi gn 0)
  + Z.b2z (exact_in_bounds gi gn 1).

(** The local point whose local row is [r]. *)
Definition point_of_row (geom : Geometry) (r : Z) : Z * Z * Z :=
  (r / (nx geom * ny geom), (r / nx geom) mod ny geom, r mod nx geom).

(** The order in which the stencil loops run through the offsets. *)
Definition loop_order (o o' : Z * Z * Z) : Prop :=
  o.1.1 < o'.1.1
  \/ (o.1.1 = o'.1.1 /\ (o.1.2 < o'.1.2 \/ (o.1.2 = o'.1.2 /\ o.2 < o'.2))).

(** *** Geometries *)

(** A decomposition as the geometry construction produces it: at least one
    process, positive local extents, a positive process grid, and a process
    position inside the process grid. *)
Record valid_geometry (geom : Geometry) : Prop := {
  valid_size : 0 < size geom;
  valid_nx : 0 < nx geom; valid_ny : 0 < ny geom; valid_nz : 0 < nz geom;
  valid_npx : 0 < npx geom; valid_npy : 0 < npy geom; valid_npz : 0 < npz geom;
  valid_ipx : 0 <= ipx geom < npx geom;
  valid_ipy : 0 <= ipy geom < npy geom;
  valid_ipz : 0 <= ipz geom < npz geom }.

(** [p = (iz, iy, ix)] is a point of the local grid. *)
Definition local_point (geom : Geometry) (p : Z * Z * Z) : Prop :=
  0 <= p.1.1 < nz geom /\ 0 <= p.1.2 < ny geom /\ 0 <= p.2 < nx geom.

(** All 26 neighbours of the point lie inside the global domain. *)
Definition interior_point (geom : Geometry) (p : Z * Z * Z) : Prop :=
  0 < exact_global_x geom p.2 < exact_gnx geom - 1
  /\ 0 < exact_global_y geom p.1.2 < exact_gny geom - 1
  /\ 0 < exact_global_z geom p.1.1 < exact_gnz geom - 1.

(** The process sits at one of the 8 corners of the process grid. *)
Definition corner_process (geom : Geometry) : Prop :=
  (ipx geom = 0 \/ ipx geom = npx geom - 1)
  /\ (ipy geom = 0 \/ ipy geom = npy geom - 1)
  /\ (ipz geom = 0 \/ ipz geom = npz geom - 1).

(** The local rows that hold exactly [c] nonzeros. *)
Definition rows_with_count (c : Z) (p : Problem) : list (option Z) :=
  filter (fun cell => cell = Some c) (nonzerosInRow p).

(** One point on one process. *)
Definition single_point : Geometry :=
  {| size := 1; rank := 0; nx := 1; ny := 1; nz := 1;
     npx := 1; npy := 1; npz := 1; ipx := 0; ipy := 0; ipz := 0 |}.

(** A 2x2x2 block at position (1,0,1) of a 2x2x2 process grid. *)
Definition small_geometry : Geometry :=
  {| size := 8; rank := 5; nx := 2; ny := 2; nz := 2;
     npx := 2; npy := 2; npz := 2; ipx := 1; ipy := 0; ipz := 1 |}.

(** A 3x3x3 block at the corner (0,0,0) of a 3x3x3 process grid. *)
Definition corner_geometry : Geometry :=
  {| size := 27; rank := 0; nx := 3; ny := 3; nz := 3;
     npx := 3; npy := 3; npz := 3; ipx := 0; ipy := 0; ipz := 0 |}.

(** [m] is the smallest nonzero count of a local row. *)
Definition minimum_count (p : Problem) (m : Z) : Prop :=
  Some m ∈ nonzerosInRow p /\ forall c, Some c ∈ nonzerosInRow p -> m <= c.

(** The local point of a corner process that is a corner of the global
    domain, and its local row. *)
Definition corner_point (geom : Geometry) : Z * Z * Z :=
  (if decide (ipz geom = 0) then 0 else nz geom - 1,
   if decide (ipy geom = 0) then 0 else ny geom - 1,
   if decide (ipx geom = 0) then 0 else nx geom - 1).

Definition corner_row (geom : Geometry) : Z :=
  exact_local_row geom (corner_point geom).1.1 (corner_point geom).1.2 (corner_point geom).2.

(** The postcondition of the specification read on every geometry with an
    extent of at least 1 in every axis: every row has between 8 and 27
    nonzeros and its diagonal slot is set. *)
Definition every_row_has_8_to_27 (T : index_types) (others : list Z)
    (geom : Geometry) : Prop :=
  exists pr, GenerateProblem T others geom = Generated pr
    /\ forall r, 0 <= r < localNumberOfRows pr ->
         exists count d, nonzerosInRow pr !! Z.to_nat r = Some (Some count)
                         /\ 8 <= count <= 27
                         /\ matrixDiagonal pr !! Z.to_nat r = Some (Some d).

(** The testable property of the specification for a process at a corner of
    the process grid: 8 local rows have the minimum nonzero count. *)
Definition corner_has_8_minimal_rows (T : index_types) (others : list Z)
    (geom : Geometry) : Prop :=
  exists pr m, GenerateProblem T others geom = Generated pr
    /\ minimum_count pr m
    /\ length (rows_with_count m pr) = 8%nat.

(** The sum of a vector, entry after entry from 0.0; [None] when an entry
    is indeterminate. *)
Definition vector_sum (v : list (option double)) : option double :=
  fold_left (fun acc cell =>
               match acc, cell with
               | Some s, Some c => Some (add s c)
               | _, _ => None
               end) v (Some zero).

(** The vector of the [(27 - (nnz[r]-1)) * xexact[r]]. *)
Definition rhs_from_counts (p : Problem) : list (option double) :=
  zip_with (fun count xe =>
              match count, xe with
              | Some c, Some e => Some (mul (sub (of_Z 27) (of_Z (c - 1))) e)
              | _, _ => None
              end) (nonzerosInRow p) (xexact p).

(** Three descriptors that are not decompositions: an empty local block, no
    process at all, and a process position outside the process grid. *)
Definition empty_block : Geometry :=
  {| size := 1; rank := 0; nx := 0; ny := 1; nz := 1;
     npx := 1; npy := 1; npz := 1; ipx := 0; ipy := 0; ipz := 0 |}.

Definition no_process : Geometry :=
  {| size := 0; rank := 0; nx := 1; ny := 1; nz := 1;
     npx := 1; npy := 1; npz := 1; ipx := 0; ipy := 0; ipz := 0 |}.

Definition outside_grid : Geometry :=
  {| size := 1; rank := 0; nx := 1; ny := 1; nz := 1;
     npx := 1; npy := 1; npz := 1; ipx := 5; ipy := 0; ipz := 0 |}.

(** *** The asserted counts on the machine *)

(** [localNumberOfNonzeros], accumulated in [local_int_t]. *)
Definition machine_localNumberOfNonzeros (T : index_types) (geom : Geometry) : Z :=
  wrap (local_bits T) (exact_local_nonzeros geom).

(** [totalNumberOfNonzeros]: the local counts are widened to [long long],
    summed by the reduction, and the sum is copied back. *)
Definition machine_totalNumberOfNonzeros (T : index_types)
    (peers : list Geometry) (geom : Geometry) : Z :=
  wrap (global_bits T)
    (wrap long_long_bits
       (MPI_Allreduce_SUM (machine_localNumberOfNonzeros T geom)
          (map (machine_localNumberOfNonzeros T) peers))).

(** The first assertion that fails on the machine, if one does. *)
Definition machine_assertion (T : index_types) (peers : list Geometry)
    (geom : Geometry) : option assertion :=
  if negb (machine_localNumberOfRows T geom >? 0)
  then Some localNumberOfRows_positive
  else if negb (machine_totalNumberOfRows T geom >? 0)
  then Some totalNumberOfRows_positive
  else if negb (machine_totalNumberOfNonzeros T peers geom >? 0)
  then Some totalNumberOfNonzeros_positive
  else None.

(** Nothing overflows while the three counts are formed. *)
Definition counts_without_overflow (T : index_types) (peers : list Geometry)
    (geom : Geometry) : Prop :=
  representable int_bits (nx geom * ny geom)
  /\ representable int_bits (nx geom * ny geom * nz geom)
  /\ representable (local_bits T) (nx geom * ny geom * nz geom * size geom)
  /\ Forall (fun g => representable (local_bits T) (exact_local_nonzeros g)) (geom :: peers)
  /\ representable long_long_bits
       (MPI_Allreduce_SUM (exact_local_nonzeros geom) (map exact_local_nonzeros peers))
  /\ representable (global_bits T)
       (MPI_Allreduce_SUM (exact_local_nonzeros geom) (map exact_local_nonzeros peers)).

(** The three counts are representable in the index types they are declared
    with. *)
Definition counts_fit_index_types (T : index_types) (peers : list Geometry)
    (geom : Geometry) : Prop :=
  representable (local_bits T) (nx geom * ny geom * nz geom)
  /\ representable (global_bits T) (nx geom * ny geom * nz geom * size geom)
  /\ representable (local_bits T) (exact_local_nonzeros geom)
  /\ representable (global_bits T)
       (MPI_Allreduce_SUM (exact_local_nonzeros geom) (map exact_local_nonzeros peers)).

(** [int] local indices and [long long] global indices. *)
Definition int_and_long_long : index_types :=
  {| local_bits := 32; global_bits := 64 |}.

(** A 128x128x128 block at position (0,0,0) of an 8x8x16 process grid. *)
Definition large_run : Geometry :=
  {| size := 1024; rank := 0; nx := 128; ny := 128; nz := 128;
     npx := 8; npy := 8; npz := 16; ipx := 0; ipy := 0; ipz := 0 |}.

(** *** What the loops leave in the cells of a row *)

(** The row of the local point [p] holds, in the state [st], what the
    generator stores for it: its count, its values and global column
    indices slot by slot, a diagonal pointer to the slot of the offset
    [(0,0,0)], the two index maps, and the three vector entries. *)
Definition row_generated (geom : Geometry) (st : Problem) (p : Z * Z * Z) : Prop :=
  let i := Z.to_nat (exact_local_row geom p.1.1 p.1.2 p.2) in
  let cs := row_entries geom p in
  let count := Z.of_nat (length cs) in
  nonzerosInRow st !! i = Some (Some count)
  /\ (exists vs, matrixValues st !! i = Some vs /\ length vs = numberOfNonzerosPerRow
        /\ forall j o, cs !! j = Some o ->
              vs !! j = Some (Some (if column geom p o =? exact_global_row geom p.1.1 p.1.2 p.2
                                    then of_Z 27 else of_Z (-1))))
  /\ (exists js, mtxIndG st !! i = Some js /\ length js = numberOfNonzerosPerRow
        /\ forall j o, cs !! j = Some o -> js !! j = Some (Some (column geom p o)))
  /\ (exists d, matrixDiagonal st !! i = Some (Some d) /\ cs !! d = Some (0, 0, 0))
  /\ localToGlobalMap st !! i = Some (exact_global_row geom p.1.1 p.1.2 p.2)
  /\ globalToLocalMap st !! exact_global_row geom p.1.1 p.1.2 p.2
     = Some (exact_local_row geom p.1.1 p.1.2 p.2)
  /\ b st !! i = Some (Some (sub (of_Z 27) (of_Z (count - 1))))
  /\ x st !! i = Some (Some (of_Z 0))
  /\ xexact st !! i = Some (Some (of_Z 1)).

(** The arrays have one cell per local row, and the row arrays 27 slots. *)
Definition well_sized (rows : nat) (st : Problem) : Prop :=
  length (nonzerosInRow st) = rows
  /\ length (mtxIndG st) = rows
  /\ length (matrixValues st) = rows
  /\ length (matrixDiagonal st) = rows
  /\ length (localToGlobalMap st) = rows
  /\ length (b st) = rows /\ length (x st) = rows /\ length (xexact st) = rows
  /\ Forall (fun vs => length vs = numberOfNonzerosPerRow) (matrixValues st)
  /\ Forall (fun js => length js = numberOfNonzerosPerRow) (mtxIndG st).

(** *** Further readings of the generated system *)

(** The number of offsets of one axis that stay inside the domain: the
    point itself, its lower neighbour unless the point is on the lower
    boundary, its upper neighbour unless it is on the upper boundary. *)
Definition axis_neighbours (gi gn : Z) : Z :=
  1 + (if decide (0 < gi) then 1 else 0) + (if decide (gi < gn - 1) then 1 else 0).

(** The in-bounds offsets of one axis, counted over the [n] grid points a
    process holds along it: three for each point, less one for each end of
    the global domain that the block of the process touches. *)
Definition axis_total (n np ip : Z) : Z :=
  3 * n - (if decide (ip = 0) then 1 else 0)
        - (if decide (ip = np - 1) then 1 else 0).

(** The sum of the nonzero counts stored in [nonzerosInRow]; an
    indeterminate cell counts for nothing. *)
Definition sum_counts (cells : list (option Z)) : Z :=
  fold_left (fun acc cell => acc + default 0 cell) cells 0.

(** The product of row [r] of the matrix with a vector whose entries are all
    [e], accumulated slot after slot from 0.0 over the stored entries, as a
    sparse matrix-vector product does. *)
Definition row_times_constant (e : double) (count : Z) (vs : list (option double))
  : option double :=
  fold_left (fun acc cell =>
               match acc, cell with
               | Some s, Some v => Some (add s (mul v e))
               | _, _ => None
               end) (take (Z.to_nat count) vs) (Some zero).

(** Two processes of the same run: the same number of processes, local
    extents and process grid. *)
Definition same_run (g1 g2 : Geometry) : Prop :=
  size g1 = size g2
  /\ nx g1 = nx g2 /\ ny g1 = ny g2 /\ nz g1 = nz g2
  /\ npx g1 = npx g2 /\ npy g1 = npy g2 /\ npz g1 = npz g2.

(** The position of a process in the process grid, and the positions of the
    grid. *)
Definition position (g : Geometry) : Z * Z * Z := (ipz g, ipy g, ipx g).

Definition process_grid (g : Geometry) : list (Z * Z * Z) :=
  jz ← seqZ 0 (npz g);
  jy ← seqZ 0 (npy g);
  jx ← seqZ 0 (npx g);
  [(jz, jy, jx)].

(** The process [geom] and its [peers] are the processes of one run, one at
    each position of the process grid. *)
Definition full_run (peers : list Geometry) (geom : Geometry) : Prop :=
  Forall (same_run geom) peers
  /\ map position (geom :: peers) ≡ₚ process_grid geom.

(** The two processes of a 2x1x1 process grid of single points. *)
Definition left_process : Geometry :=
  {| size := 2; rank := 0; nx := 1; ny := 1; nz := 1;
     npx := 2; npy := 1; npz := 1; ipx := 0; ipy := 0; ipz := 0 |}.

Definition right_process : Geometry :=
  {| size := 2; rank := 1; nx := 1; ny := 1; nz := 1;
     npx := 2; npy := 1; npz := 1; ipx := 1; ipy := 0; ipz := 0 |}.

(** The slots of the row of the local point [p] from its nonzero count on
    are as the allocation left them, indeterminate. *)
Definition unwritten (geom : Geometry) (st : Problem) (p : Z * Z * Z) : Prop :=
  let i := Z.to_nat (exact_local_row geom p.1.1 p.1.2 p.2) in
  forall j, (length (row_entries geom p) <= j < numberOfNonzerosPerRow)%nat ->
    (forall vs, matrixValues st !! i = Some vs -> vs !! j = Some None)
    /\ (forall js, mtxIndG st !! i = Some js -> js !! j = Some None).

(** The local row [r] of the problem holds the value [v] in the global
    column [c], in one of its first [nonzerosInRow[r]] slots. *)
Definition stored (pr : Problem) (r c : Z) (v : double) : Prop :=
  exists count vs js j,
    nonzerosInRow pr !! Z.to_nat r = Some (Some count)
    /\ matrixValues pr !! Z.to_nat r = Some vs
    /\ mtxIndG pr !! Z.to_nat r = Some js
    /\ Z.of_nat j < count
    /\ js !! j = Some (Some c)
    /\ vs !! j = Some (Some v).

(** The position, in the process grid, of the process whose block holds the
    grid point of the global row [G]. *)
Definition owner (geom : Geometry) (G : Z) : Z * Z * Z :=
  ((G / (exact_gnx geom * exact_gny geom)) / nz geom,
   ((G / exact_gnx geom) mod exact_gny geom) / ny geom,
   (G mod exact_gnx geom) / nx geom).

(** [long long] for both index types. *)
Definition long_long_indices : index_types :=
  {| local_bits := 64; global_bits := 64 |}.

(** *** Runs in which nothing overflows *)

(** The number of nonzeros of the block of a process: along each axis three
    in-bounds offsets for each of its grid points, less one for each end of
    the global domain that the block touches. *)
Definition block_nonzeros (geom : Geometry) : Z :=
  axis_total (nz geom) (npz geom) (ipz geom)
  * axis_total (ny geom) (npy geom) (ipy geom)
  * axis_total (nx geom) (npx geom) (ipx geom).

(** No integer operation of the row loops overflows: the index types are at
    least as wide as [int]; the global extents, the number of points of a
    plane of the global domain ([gnx*gny], which the code multiplies by the
    [int] offset [sz]) and the number of local rows fit an [int]; the number
    of points of the global domain fits [global_int_t]; and the number of
    local nonzeros fits [local_int_t]. *)
Record rows_without_overflow (T : index_types) (geom : Geometry) : Prop := {
  local_int_t_wide : 32 <= local_bits T;
  global_int_t_wide : 32 <= global_bits T;
  gnx_fits : representable int_bits (exact_gnx geom);
  gny_fits : representable int_bits (exact_gny geom);
  gnz_fits : representable int_bits (exact_gnz geom);
  plane_fits : representable int_bits (exact_gnx geom * exact_gny geom);
  grid_fits :
    representable (global_bits T) (exact_gnx geom * exact_gny geom * exact_gnz geom);
  rows_fit : representable int_bits (nx geom * ny geom * nz geom);
  nonzeros_fit : representable (local_bits T) (block_nonzeros geom) }.

(** No integer operation of the run overflows: none of the row loops, the
    product [localNumberOfRows*geom.size] fits [local_int_t], in which it is
    formed, and [global_int_t], and the counts of the other ranks are
    nonnegative and sum up with the local count to a number that fits
    [long long] and [global_int_t]. *)
Record no_overflow (T : index_types) (others : list Z) (geom : Geometry) : Prop := {
  rows_part : rows_without_overflow T geom;
  total_rows_fit_local :
    representable (local_bits T) (nx geom * ny geom * nz geom * size geom);
  total_rows_fit_global :
    representable (global_bits T) (nx geom * ny geom * nz geom * size geom);
  others_nonnegative : Forall (fun c => 0 <= c) others;
  sum_fits_long_long :
    representable long_long_bits (MPI_Allreduce_SUM (block_nonzeros geom) others);
  sum_fits_global :
    representable (global_bits T) (MPI_Allreduce_SUM (block_nonzeros geom) others) }.


(** The number of nonzeros of the global matrix: the pairs of grid points of
    the global domain that differ by at most 1 in every axis. *)
Definition grid_nonzeros (geom : Geometry) : Z :=
  (3 * (nx geom * npx geom) - 2) * (3 * (ny geom * npy geom) - 2)
  * (3 * (nz geom * npz geom) - 2).

(** No integer operation overflows on any process of the run made of [geom]
    and its [peers]: none of the row loops of any of them, the product
    [localNumberOfRows*geom.size] fits [local_int_t] and [global_int_t], and
    the number of nonzeros of the global matrix fits [long long] and
    [global_int_t]. *)
Record run_without_overflow (T : index_types) (peers : list Geometry)
    (geom : Geometry) : Prop := {
  blocks_fit : Forall (rows_without_overflow T) (geom :: peers);
  run_rows_fit_local :
    representable (local_bits T) (nx geom * ny geom * nz geom * size geom);
  run_rows_fit_global :
    representable (global_bits T) (nx geom * ny geom * nz geom * size geom);
  run_nonzeros_fit_long_long : representable long_long_bits (grid_nonzeros geom);
  run_nonzeros_fit_global : representable (global_bits T) (grid_nonzeros geom) }.

(** *** Runs in which only the offset of a plane overflows *)

(** The index computations of the row loops that involve no product with
    [gnx*gny] formed in [int] do not overflow: the index types are at least
    as wide as [int]; the global extents and the number of local rows fit an
    [int]; the number of points of the global domain fits [global_int_t];
    and the number of local nonzeros fits [local_int_t]. *)
Record indices_fit (T : index_types) (geom : Geometry) : Prop := {
  fit_local_int_t : 32 <= local_bits T;
  fit_global_int_t : 32 <= global_bits T;
  fit_gnx : representable int_bits (exact_gnx geom);
  fit_gny : representable int_bits (exact_gny geom);
  fit_gnz : representable int_bits (exact_gnz geom);
  fit_grid :
    representable (global_bits T) (exact_gnx geom * exact_gny geom * exact_gnz geom);
  fit_rows : representable int_bits (nx geom * ny geom * nz geom);
  fit_nonzeros : representable (local_bits T) (block_nonzeros geom) }.

(** No integer operation of the run overflows, but for the product
    [sz*gnx*gny] of [curcol], formed in [int]: the number of points of a
    plane of the global domain need not fit an [int]; [global_int_t] leaves
    room for a wrapped offset next to every global row. *)
Record only_plane_may_overflow (T : index_types) (others : list Z)
    (geom : Geometry) : Prop := {
  plane_indices : indices_fit T geom;
  plane_columns_fit :
    representable (global_bits T)
      (exact_gnx geom * exact_gny geom * exact_gnz geom + 2 ^ 32);
  plane_total_rows_fit_local :
    representable (local_bits T) (nx geom * ny geom * nz geom * size geom);
  plane_total_rows_fit_global :
    representable (global_bits T) (nx geom * ny geom * nz geom * size geom);
  plane_others_nonnegative : Forall (fun c => 0 <= c) others;
  plane_sum_fits_long_long :
    representable long_long_bits (MPI_Allreduce_SUM (block_nonzeros geom) others);
  plane_sum_fits_global :
    representable (global_bits T) (MPI_Allreduce_SUM (block_nonzeros geom) others) }.

(** [curcol] for the stencil offset [o] of the row of the point [p], when
    the [int] product [sz*gnx*gny] wraps around and nothing else does. *)
Definition wrapped_column (geom : Geometry) (p o : Z * Z * Z) : Z :=
  exact_global_row geom p.1.1 p.1.2 p.2
  + wrap int_bits (o.1.1 * exact_gnx geom * exact_gny geom)
  + o.1.2 * exact_gnx geom + o.2.

(** The body of the innermost bounds test, [curcol] being given. *)
Definition store_column (currentGlobalRow curcol : Z) (r : Row) : Row :=
  {| values :=
       <[currentValuePointer r :=
           Some (if curcol =? currentGlobalRow then of_Z 27 else of_Z (-1))]>
         (values r);
     diagonal :=
       if curcol =? currentGlobalRow then Some (currentValuePointer r)
       else diagonal r;
     currentValuePointer := S (currentValuePointer r);
     indices := <[currentIndexPointerG r := Some curcol]> (indices r);
     currentIndexPointerG := S (currentIndexPointerG r);
     numberOfNonzerosInRow := numberOfNonzerosInRow r + 1 |}.

(** The row of the local point [p], generated with wrapped columns. *)
Definition wrapped_generate_at (geom : Geometry) (st : Problem) (p : Z * Z * Z)
  : Problem :=
  let currentLocalRow := exact_local_row geom p.1.1 p.1.2 p.2 in
  let currentGlobalRow := exact_global_row geom p.1.1 p.1.2 p.2 in
  let i := Z.to_nat currentLocalRow in
  let r := fold_left (fun r o => store_column currentGlobalRow (wrapped_column geom p o) r)
             (row_entries geom p) (open_row st currentLocalRow) in
  {| totalNumberOfRows := totalNumberOfRows st;
     totalNumberOfNonzeros := totalNumberOfNonzeros st;
     localNumberOfRows := localNumberOfRows st;
     localNumberOfColumns := localNumberOfColumns st;
     localNumberOfNonzeros := localNumberOfNonzeros st + numberOfNonzerosInRow r;
     nonzerosInRow := <[i := Some (numberOfNonzerosInRow r)]> (nonzerosInRow st);
     mtxIndG := <[i := indices r]> (mtxIndG st);
     mtxIndL := mtxIndL st;
     matrixValues := <[i := values r]> (matrixValues st);
     matrixDiagonal := <[i := diagonal r]> (matrixDiagonal st);
     localToGlobalMap := <[i := currentGlobalRow]> (localToGlobalMap st);
     globalToLocalMap := <[currentGlobalRow := currentLocalRow]> (globalToLocalMap st);
     b := <[i := Some (sub (of_Z 27) (of_Z (numberOfNonzerosInRow r - 1)))]> (b st);
     x := <[i := Some (of_Z 0)]> (x st);
     xexact := <[i := Some (of_Z 1)]> (xexact st) |}.

(** What the row loops leave in the row of the local point [p] when the
    offset of a plane is wrapped: the count of the row, in its first slots
    the wrapped columns with their values, and its global index. *)
Definition wrapped_row (geom : Geometry) (st : Problem) (p : Z * Z * Z) : Prop :=
  let i := Z.to_nat (exact_local_row geom p.1.1 p.1.2 p.2) in
  nonzerosInRow st !! i = Some (Some (Z.of_nat (length (row_entries geom p))))
  /\ (exists vs, matrixValues st !! i = Some vs
        /\ forall j o, row_entries geom p !! j = Some o ->
              vs !! j = Some (Some (if wrapped_column geom p o
                                       =? exact_global_row geom p.1.1 p.1.2 p.2
                                    then of_Z 27 else of_Z (-1))))
  /\ (exists js, mtxIndG st !! i = Some js
        /\ forall j o, row_entries geom p !! j = Some o ->
              js !! j = Some (Some (wrapped_column geom p o)))
  /\ localToGlobalMap st !! i = Some (exact_global_row geom p.1.1 p.1.2 p.2).

(** The arrays of the counts, columns and values and the local-to-global
    map have one cell per local row, and the row arrays 27 slots. *)
Definition wrapped_sized (rows : nat) (st : Problem) : Prop :=
  length (nonzerosInRow st) = rows
  /\ length (mtxIndG st) = rows
  /\ length (matrixValues st) = rows
  /\ Forall (fun vs => length vs = numberOfNonzerosPerRow) (matrixValues st)
  /\ Forall (fun js => length js = numberOfNonzerosPerRow) (mtxIndG st)
  /\ length (localToGlobalMap st) = rows.

(** A 2x2x2 block at position (0,0,0) of a 32768x32768x1 process grid: a
    plane of the global domain holds 2^32 points. *)
Definition wide_plane : Geometry :=
  {| size := 1073741824; rank := 0; nx := 2; ny := 2; nz := 2;
     npx := 32768; npy := 32768; npz := 1; ipx := 0; ipy := 0; ipz := 0 |}.

End Problem.

(** * Properties *)

Import Residual Problem.

(** ** Order facts of binary64 *)

Ltac cmp_cases :=
  repeat match goal with
  | |- context [Z.compare ?a ?b] => destruct (Z.compare_spec a b)
  | H : context [Z.compare ?a ?b] |- _ => destruct (Z.compare_spec a b)
  | |- context [Pos.compare_cont Eq ?a ?b] =>
      change (Pos.compare_cont Eq a b) with (Pos.compare a b);
      destruct (Pos.compare_spec a b)
  | H : context [Pos.compare_cont Eq ?a ?b] |- _ =>
      change (Pos.compare_cont Eq a b) with (Pos.compare a b) in H;
      destruct (Pos.compare_spec a b)
  end.

Ltac float_cases :=
  unfold gt, le, SFltb, SFleb, SFcompare, is_nan, fabs, SFabs, zero in *;
  repeat match goal with x : double |- _ => destruct x as [[]|[]| |[] ? ?] end;
  simpl in *; try discriminate; try reflexivity; try congruence;
  cmp_cases; simpl in *; try discriminate; try reflexivity;
  try (left; reflexivity); try (right; reflexivity); try lia; try congruence.

Section DoubleOrder.
Implicit Types a b c : double.

Lemma gt_trans a b c : gt a b = true -> gt b c = true -> gt a c = true.
Proof. intros; float_cases. Qed.

Lemma gt_irrefl a : gt a a = false.
Proof.
  unfold gt, SFltb, SFcompare. destruct a as [[]|[]| |[] m e]; try reflexivity;
    rewrite Z.compare_refl; change (Pos.compare_cont Eq m m) with (Pos.compare m m);
    rewrite Pos.compare_refl; reflexivity.
Qed.

Lemma gt_cotrans a b c :
  gt a c = true -> is_nan b = false -> gt a b = true \/ gt b c = true.
Proof. intros; float_cases. Qed.

Lemma gt_not_nan a b : gt a b = true -> is_nan a = false.
Proof. intros; float_cases. Qed.

Lemma le_of_not_gt a b :
  is_nan a = false -> is_nan b = false -> gt a b = false -> le a b = true.
Proof. intros; float_cases. Qed.

Lemma fabs_idem a : fabs (fabs a) = fabs a.
Proof. destruct a; reflexivity. Qed.

Lemma zero_not_gt_fabs a : gt zero (fabs a) = false.
Proof. float_cases. Qed.

Lemma fabs_not_gt_zero a :
  is_nan (fabs a) = false -> gt (fabs a) zero = false -> fabs a = zero.
Proof. intros; float_cases. Qed.

Lemma fabs_antisym a b :
  fabs a = a -> fabs b = b -> is_nan a = false -> is_nan b = false ->
  gt a b = false -> gt b a = false -> a = b.
Proof. intros; float_cases; f_equal; lia. Qed.

Lemma sub_diag a : sub a a = zero \/ sub a a = nan.
Proof.
  destruct a as [[]|[]| |s m e]; simpl; auto.
  left. unfold sub, SFsub, shl_align. rewrite Z.min_id, Z.sub_diag. reflexivity.
Qed.

Lemma fabs_sub_diag_not_gt a : gt (fabs (sub a a)) zero = false.
Proof. destruct (sub_diag a) as [-> | ->]; reflexivity. Qed.
End DoubleOrder.

Section ResidualLoop.
Variables v1 v2 : list double.

Lemma residual_step_Some res i d :
  diff_at v1 v2 i = Some d ->
  residual_step v1 v2 (Some res) i = Some (merge_thread res d).
Proof.
  unfold diff_at, residual_step, merge_thread.
  destruct (read v1 i), (read v2 i); intros [= <-]; reflexivity.
Qed.

Lemma residual_step_inv acc i r :
  residual_step v1 v2 acc i = Some r ->
  exists res d, acc = Some res /\ diff_at v1 v2 i = Some d /\ r = merge_thread res d.
Proof.
  unfold diff_at, residual_step, merge_thread.
  destruct acc as [res|]; [|discriminate].
  destruct (read v1 i), (read v2 i); try discriminate.
  intros [= <-]. eauto.
Qed.

Lemma residual_loop_snoc l i res :
  residual_loop v1 v2 (l ++ [i]) res
  = residual_step v1 v2 (residual_loop v1 v2 l res) i.
Proof. unfold residual_loop. rewrite fold_left_app. reflexivity. Qed.

(** The loop returns as soon as every index it visits is in range. *)
Lemma residual_loop_total l res :
  (forall i, i ∈ l -> is_Some (diff_at v1 v2 i)) ->
  is_Some (residual_loop v1 v2 l res).
Proof.
  induction l as [|i l IH] using rev_ind; intros Hl.
  - eexists; reflexivity.
  - rewrite residual_loop_snoc.
    destruct IH as [r Hr]; [intros; apply Hl; set_solver|].
    destruct (Hl i) as [d Hd]; [set_solver|].
    rewrite Hr, (residual_step_Some _ _ _ Hd). eauto.
Qed.
End ResidualLoop.

(** ** The running maximum *)

Section RunningMax.

Lemma merge_thread_max res ds d r :
  running_max res ds r -> running_max res (ds ++ [d]) (merge_thread r d).
Proof.
  intros (Hres & Hds & Hr). unfold merge_thread.
  destruct (gt d r) eqn:Hd.
  - split; [|split].
    + destruct (gt res d) eqn:E; [|reflexivity].
      rewrite (gt_trans _ _ _ E Hd) in Hres. discriminate.
    + intros e [He | ->%list_elem_of_singleton]%elem_of_app.
      * destruct (gt e d) eqn:E; [|reflexivity].
        specialize (Hds e He). rewrite (gt_trans _ _ _ E Hd) in Hds. discriminate.
      * apply gt_irrefl.
    + right. split; [|exact (gt_not_nan _ _ Hd)].
      apply elem_of_app. right. apply list_elem_of_singleton. reflexivity.
  - split; [exact Hres | split].
    + intros e [He | ->%list_elem_of_singleton]%elem_of_app; auto.
    + destruct Hr as [-> | [Hin Hn]]; [left; reflexivity | right].
      split; [apply elem_of_app; left; exact Hin | exact Hn].
Qed.

Lemma fold_merge_thread_max ds res :
  running_max res ds (fold_left merge_thread ds res).
Proof.
  induction ds as [|d ds IH] using rev_ind.
  - split; [apply gt_irrefl | split; [intros d Hd; inversion Hd | left; reflexivity]].
  - rewrite fold_left_app. simpl. apply merge_thread_max, IH.
Qed.

Lemma running_max_not_nan res ds r :
  is_nan res = false -> running_max res ds r -> is_nan r = false.
Proof. intros Hres (_ & _ & [-> | [_ Hn]]); assumption. Qed.

(** Two running maxima of the same non-negative values coincide. *)
Lemma running_max_unique ds r1 r2 :
  (forall d, d ∈ ds -> fabs d = d) ->
  running_max zero ds r1 -> running_max zero ds r2 -> r1 = r2.
Proof.
  intros Hds H1 H2.
  assert (Hfix : forall r, running_max zero ds r -> fabs r = r).
  { intros r (_ & _ & [-> | [Hin _]]); [reflexivity | auto]. }
  assert (Hngt : forall r r', running_max zero ds r -> running_max zero ds r' ->
                              gt r r' = false).
  { intros r r' (_ & _ & [-> | [Hin _]]) (H0 & Hall & _); [exact H0 | exact (Hall _ Hin)]. }
  apply fabs_antisym; auto.
  - exact (running_max_not_nan zero _ _ eq_refl H1).
  - exact (running_max_not_nan zero _ _ eq_refl H2).
Qed.

(** When no value is a NaN, a running maximum from 0.0 of non-negative
    values, one at least, is their maximum. *)
Lemma running_max_is_maximum ds r :
  ds <> [] ->
  (forall d, d ∈ ds -> fabs d = d) ->
  (forall d, d ∈ ds -> is_nan d = false) ->
  running_max zero ds r -> is_maximum r ds.
Proof.
  intros Hne Hfix Hnan (H0 & Hds & Hr).
  assert (Hrn : is_nan r = false) by (destruct Hr as [-> | []]; auto).
  split.
  - destruct Hr as [-> | [Hin _]]; [|exact Hin].
    destruct ds as [|d ds]; [congruence|].
    assert (Hd : d ∈ d :: ds) by apply list_elem_of_here.
    assert (Hz : d = zero).
    { rewrite <- (Hfix d Hd). apply fabs_not_gt_zero; rewrite (Hfix d Hd); auto. }
    rewrite <- Hz. exact Hd.
  - intros d Hd. apply le_of_not_gt; auto.
Qed.

End RunningMax.

(** ** The residual loops *)

Section ResidualMax.
Variables v1 v2 : list double.

Lemma running_max_ext res ds ds' r :
  (forall d, d ∈ ds <-> d ∈ ds') -> running_max res ds r -> running_max res ds' r.
Proof.
  intros Heq (H0 & Hall & Hr). split; [exact H0 | split].
  - intros d Hd. apply Hall, Heq, Hd.
  - destruct Hr as [-> | [Hin Hn]]; [left; reflexivity | right].
    split; [apply Heq, Hin | exact Hn].
Qed.

(** The loop is a running maximum over the differences it reads. *)
Lemma residual_loop_omap l res r :
  residual_loop v1 v2 l res = Some r ->
  r = fold_left merge_thread (omap (diff_at v1 v2) l) res.
Proof.
  revert r. induction l as [|i l IH] using rev_ind; intros r.
  - intros [= <-]. reflexivity.
  - rewrite residual_loop_snoc. intros (res' & d & Hl & Hd & ->)%residual_step_inv.
    rewrite omap_app, fold_left_app. simpl. rewrite Hd. simpl.
    rewrite <- (IH _ Hl). reflexivity.
Qed.

Lemma residual_loop_max l res r :
  residual_loop v1 v2 l res = Some r ->
  running_max res (omap (diff_at v1 v2) l) r.
Proof. intros ->%residual_loop_omap. apply fold_merge_thread_max. Qed.

Lemma read_Some v i a : read v i = Some a <-> 0 <= i /\ v !! Z.to_nat i = Some a.
Proof.
  unfold read. destruct (Z.leb_spec 0 i); split; intros H'; try tauto;
    try discriminate. lia.
Qed.

Lemma elem_of_abs_diffs d :
  d ∈ abs_diffs v1 v2 <-> exists i, diff_at v1 v2 i = Some d.
Proof.
  unfold abs_diffs, diff_at. rewrite elem_of_lookup_zip_with. split.
  - intros (i & a & c & -> & Ha & Hc). exists (Z.of_nat i).
    rewrite (proj2 (read_Some v1 _ a)), (proj2 (read_Some v2 _ c));
      [reflexivity | rewrite Nat2Z.id; split; [lia | assumption] ..].
  - intros (i & Hi). exists (Z.to_nat i).
    destruct (read v1 i) as [a|] eqn:Ea; [|discriminate].
    destruct (read v2 i) as [c|] eqn:Ec; [|discriminate].
    apply read_Some in Ea as [_ Ea]. apply read_Some in Ec as [_ Ec].
    injection Hi as <-. eauto.
Qed.

Lemma abs_diffs_fabs d : d ∈ abs_diffs v1 v2 -> fabs d = d.
Proof.
  intros (i & Hi)%elem_of_abs_diffs. unfold diff_at in Hi.
  destruct (read v1 i), (read v2 i); try discriminate.
  injection Hi as <-. apply fabs_idem.
Qed.

Section Lengths.
Variable n : Z.
Hypothesis Hn : 0 <= n.
Hypothesis Hv1 : length v1 = Z.to_nat n.
Hypothesis Hv2 : length v2 = Z.to_nat n.

Lemma diff_at_is_Some i : 0 <= i < n <-> is_Some (diff_at v1 v2 i).
Proof.
  unfold diff_at. split.
  - intros Hi.
    destruct (lookup_lt_is_Some_2 v1 (Z.to_nat i)) as [a Ha]; [lia|].
    destruct (lookup_lt_is_Some_2 v2 (Z.to_nat i)) as [c Hc]; [lia|].
    rewrite (proj2 (read_Some v1 i a)), (proj2 (read_Some v2 i c));
      [eauto | split; [lia | assumption] ..].
  - intros [d Hd].
    destruct (read v1 i) eqn:E; [|discriminate].
    apply read_Some in E as [Hi E]. apply lookup_lt_Some in E. lia.
Qed.

Lemma elem_of_diffs_seqZ d :
  d ∈ omap (diff_at v1 v2) (seqZ 0 n) <-> d ∈ abs_diffs v1 v2.
Proof.
  rewrite list_elem_of_omap, elem_of_abs_diffs. split.
  - intros (i & Hi%elem_of_seqZ & Hd). exists i. exact Hd.
  - intros (i & Hd). exists i. split; [|exact Hd].
    apply elem_of_seqZ.
    assert (0 <= i < n) by (apply diff_at_is_Some; eauto). lia.
Qed.

(** The build without threads. *)
Lemma serial_loop_max :
  exists r, residual_loop v1 v2 (seqZ 0 n) zero = Some r
            /\ running_max zero (abs_diffs v1 v2) r.
Proof.
  destruct (residual_loop_total v1 v2 (seqZ 0 n) zero) as [r Hr].
  { intros i Hi%elem_of_seqZ. apply diff_at_is_Some. lia. }
  exists r. split; [exact Hr|].
  eapply running_max_ext; [apply elem_of_diffs_seqZ|].
  apply residual_loop_max, Hr.
Qed.

(** The threaded build, for every schedule of the iterations. *)
Lemma threaded_loop_max schedule :
  schedule_of n schedule ->
  exists ts, thread_residuals v1 v2 schedule = Some ts
             /\ running_max zero (abs_diffs v1 v2) (fold_left merge_thread ts zero).
Proof.
  intros Hsched.
  assert (Hin : forall chunk i, chunk ∈ schedule -> i ∈ chunk -> 0 <= i < n).
  { intros chunk i Hc Hi.
    assert (i ∈ seqZ 0 n) as Hs%elem_of_seqZ; [|lia].
    rewrite <- Hsched. apply list_elem_of_join. eauto. }
  destruct (mapM_is_Some_2 (fun chunk => residual_loop v1 v2 chunk zero) schedule)
    as [ts Hts].
  { apply Forall_forall. intros chunk Hc. apply residual_loop_total.
    intros i Hi. apply diff_at_is_Some. eauto. }
  exists ts. split; [exact Hts|].
  apply mapM_Some_1 in Hts.
  pose proof (fold_merge_thread_max ts zero) as (H0 & Hall & Hr).
  assert (Hthread : forall t, t ∈ ts -> exists chunk, chunk ∈ schedule
            /\ running_max zero (omap (diff_at v1 v2) chunk) t).
  { intros t (k & Hk)%list_elem_of_lookup_1.
    destruct (Forall2_lookup_r _ _ _ _ _ Hts Hk) as (chunk & Hc & Hl).
    exists chunk. split; [eapply list_elem_of_lookup_2, Hc|].
    apply residual_loop_max, Hl. }
  split; [exact H0 | split].
  - intros d (i & Hd)%elem_of_abs_diffs.
    assert (i ∈ mjoin schedule) as (chunk & Hic & Hc)%list_elem_of_join.
    { rewrite Hsched. apply elem_of_seqZ.
      assert (0 <= i < n) by (apply diff_at_is_Some; eauto). lia. }
    destruct (list_elem_of_lookup_1 _ _ Hc) as (k & Hk).
    destruct (Forall2_lookup_l _ _ _ _ _ Hts Hk) as (t & Ht & Hl).
    apply residual_loop_max in Hl. destruct Hl as (Ht0 & Htall & Htr).
    assert (Hdt : gt d t = false).
    { apply Htall, list_elem_of_omap. eauto. }
    assert (Htn : is_nan t = false) by (destruct Htr as [-> | []]; auto).
    destruct (gt d (fold_left merge_thread ts zero)) eqn:E; [|reflexivity].
    destruct (gt_cotrans _ t _ E Htn) as [E' | E']; [congruence|].
    rewrite (Hall t) in E'; [discriminate|]. eapply list_elem_of_lookup_2, Ht.
  - destruct Hr as [-> | [Hin' Hnan]]; [left; reflexivity|].
    destruct (Hthread _ Hin') as (chunk & Hc & _ & _ & [-> | [Hd _]]);
      [left; reflexivity | right].
    split; [|exact Hnan].
    apply list_elem_of_omap in Hd as (i & Hi & Hd).
    apply elem_of_abs_diffs. exists i. exact Hd.
Qed.
End Lengths.

End ResidualMax.

(** ** ComputeResidual: the value written and the status returned *)

Lemma abs_diffs_diag_zero v r :
  running_max zero (abs_diffs v v) r -> r = zero.
Proof.
  intros (_ & _ & [-> | [Hin Hn]]); [reflexivity|].
  apply elem_of_abs_diffs in Hin as (i & Hi). unfold diff_at in Hi.
  destruct (read v i) as [a|]; [|discriminate].
  injection Hi as <-.
  destruct (sub_diag a) as [E | E]; rewrite E in *; [reflexivity | discriminate].
Qed.

(** C1, as amended: for vectors of length [n >= 0], both builds of
    ComputeResidual (without threads, and threaded under every schedule of
    the iterations) return status 0 and write the same value [r]; no
    difference |v1[i] - v2[i]| is greater than [r], and [r] is 0.0 or one of
    the differences; [r] is 0.0 when [n = 0] and when the vectors are identical;
    and when [n > 0] and no difference is a NaN, [r] is the maximum of the
    differences.  A NaN difference is skipped by the comparison. *)
Theorem residual_max_abs_diff (n : Z) (v1 v2 : list double) :
  0 <= n -> length v1 = Z.to_nat n -> length v2 = Z.to_nat n ->
  exists r,
    ComputeResidual n v1 v2 = Some (0, r)
    /\ (forall schedule, schedule_of n schedule ->
          ComputeResidual_omp schedule v1 v2 = Some (0, r))
    /\ running_max zero (abs_diffs v1 v2) r
    /\ (n = 0 -> r = zero)
    /\ (v1 = v2 -> r = zero)
    /\ (0 < n -> (forall d, d ∈ abs_diffs v1 v2 -> is_nan d = false) ->
        is_maximum r (abs_diffs v1 v2)).
Proof.
  intros Hn Hv1 Hv2.
  destruct (serial_loop_max v1 v2 n) as (r & Hloop & Hmax); [assumption..|].
  exists r. split_and!.
  - unfold ComputeResidual. rewrite Hloop. reflexivity.
  - intros schedule Hs.
    destruct (threaded_loop_max v1 v2 n) with (schedule := schedule)
      as (ts & Hts & Hmax'); [assumption..|].
    unfold ComputeResidual_omp. rewrite Hts. simpl. do 2 f_equal.
    apply (running_max_unique (abs_diffs v1 v2));
      [apply abs_diffs_fabs | exact Hmax' | exact Hmax].
  - exact Hmax.
  - intros ->. destruct v1; [|discriminate].
    destruct Hmax as (_ & _ & [-> | [Hin _]]); [reflexivity | inversion Hin].
  - intros ->. eapply abs_diffs_diag_zero, Hmax.
  - intros Hpos Hnan.
    apply running_max_is_maximum;
      [| apply abs_diffs_fabs | exact Hnan | exact Hmax].
    intros E. apply (f_equal length) in E. unfold abs_diffs in E.
    rewrite length_zip_with, Hv1, Hv2 in E. simpl in E. lia.
Qed.

(** The example of the specification: [1,5,2] against [1,2,2]. *)
Lemma residual_max_abs_diff_witness :
  exists r,
    ComputeResidual 3 [of_Z 1; of_Z 5; of_Z 2] [of_Z 1; of_Z 2; of_Z 2] = Some (0, r)
    /\ (forall schedule, schedule_of 3 schedule ->
          ComputeResidual_omp schedule [of_Z 1; of_Z 5; of_Z 2]
            [of_Z 1; of_Z 2; of_Z 2] = Some (0, r))
    /\ running_max zero
         (abs_diffs [of_Z 1; of_Z 5; of_Z 2] [of_Z 1; of_Z 2; of_Z 2]) r
    /\ (3 = 0 -> r = zero)
    /\ ([of_Z 1; of_Z 5; of_Z 2] = [of_Z 1; of_Z 2; of_Z 2] -> r = zero)
    /\ (0 < 3 ->
        (forall d, d ∈ abs_diffs [of_Z 1; of_Z 5; of_Z 2] [of_Z 1; of_Z 2; of_Z 2] ->
                   is_nan d = false) ->
        is_maximum r (abs_diffs [of_Z 1; of_Z 5; of_Z 2] [of_Z 1; of_Z 2; of_Z 2])).
Proof.
  apply (residual_max_abs_diff 3); [lia | reflexivity | reflexivity].
Defined.

(** C1 as stated fails on a NaN entry: for [v1 = [NaN]] and [v2 = [0.0]] the
    only difference is a NaN, the comparison [diff > local_residual] is
    false, and 0.0 is written, which is not one of the differences. *)
Lemma residual_nan_counterexample :
  ~ residual_is_max_of_all 1 [nan] [zero].
Proof.
  intros (r & Hr & _ & Hmax & _).
  vm_compute in Hr. injection Hr as <-.
  destruct (Hmax ltac:(lia)) as [Hin _].
  apply list_elem_of_singleton in Hin. discriminate.
Qed.

(** C10: ComputeResidual returns the status 0 whenever it returns, and it
    returns for every [n] and every pair of vectors that hold at least [n]
    elements, in the build without threads and, for every schedule of the
    iterations, in the threaded build. *)
Theorem compute_residual_status (n : Z) (v1 v2 : list double) :
  (Z.to_nat n <= length v1)%nat -> (Z.to_nat n <= length v2)%nat ->
  (exists r, ComputeResidual n v1 v2 = Some (0, r))
  /\ (forall schedule, schedule_of n schedule ->
        exists r, ComputeResidual_omp schedule v1 v2 = Some (0, r))
  /\ (forall out, ComputeResidual n v1 v2 = Some out -> out.1 = 0)
  /\ (forall schedule out, ComputeResidual_omp schedule v1 v2 = Some out -> out.1 = 0).
Proof.
  intros Hv1 Hv2.
  assert (Hread : forall i, 0 <= i < n -> is_Some (diff_at v1 v2 i)).
  { intros i Hi. unfold diff_at, read.
    destruct (Z.leb_spec 0 i); [|lia].
    destruct (lookup_lt_is_Some_2 v1 (Z.to_nat i)) as [a ->]; [lia|].
    destruct (lookup_lt_is_Some_2 v2 (Z.to_nat i)) as [c ->]; [lia|].
    eauto. }
  split_and!.
  - destruct (residual_loop_total v1 v2 (seqZ 0 n) zero) as [r Hr].
    { intros i Hi%elem_of_seqZ. apply Hread. lia. }
    exists r. unfold ComputeResidual. rewrite Hr. reflexivity.
  - intros schedule Hs.
    destruct (mapM_is_Some_2 (fun chunk => residual_loop v1 v2 chunk zero) schedule)
      as [ts Hts].
    { apply Forall_forall. intros chunk Hc. apply residual_loop_total.
      intros i Hi. apply Hread.
      assert (i ∈ seqZ 0 n) as Hs'%elem_of_seqZ; [|lia].
      rewrite <- Hs. apply list_elem_of_join. eauto. }
    eexists. unfold ComputeResidual_omp, thread_residuals. rewrite Hts. reflexivity.
  - intros out. unfold ComputeResidual.
    destruct (residual_loop v1 v2 (seqZ 0 n) zero); [|discriminate].
    intros [= <-]. reflexivity.
  - intros schedule out. unfold ComputeResidual_omp.
    destruct (thread_residuals v1 v2 schedule); [|discriminate].
    intros [= <-]. reflexivity.
Qed.

Lemma compute_residual_status_witness :
  (exists r, ComputeResidual 2 [of_Z 4; nan] [infinity; of_Z 1] = Some (0, r))
  /\ (forall schedule, schedule_of 2 schedule ->
        exists r, ComputeResidual_omp schedule [of_Z 4; nan] [infinity; of_Z 1]
                  = Some (0, r))
  /\ (forall out, ComputeResidual 2 [of_Z 4; nan] [infinity; of_Z 1] = Some out ->
                  out.1 = 0)
  /\ (forall schedule out,
        ComputeResidual_omp schedule [of_Z 4; nan] [infinity; of_Z 1] = Some out ->
        out.1 = 0).
Proof.
  apply (compute_residual_status 2); simpl; lia.
Defined.

(** ** Loops as folds over the lists they visit *)

Section Folds.
Context {A B S : Type}.

Lemma fold_left_bind (f : S -> B -> S) (g : A -> list B) (l : list A) (s : S) :
  fold_left f (l ≫= g) s = fold_left (fun s a => fold_left f (g a) s) l s.
Proof.
  revert s. induction l as [|a l IH]; intros s; [reflexivity|].
  rewrite bind_cons, fold_left_app. simpl. apply IH.
Qed.

Lemma fold_left_pointwise (f g : S -> A -> S) (l : list A) (s : S) :
  (forall s a, f s a = g s a) -> fold_left f l s = fold_left g l s.
Proof.
  intros Hfg. revert s. induction l as [|a l IH]; intros s; [reflexivity|].
  simpl. rewrite Hfg. apply IH.
Qed.
End Folds.

Lemma stencil_loops_candidates row gix giy giz gnx gny gnz r :
  exact_stencil_loops row gix giy giz gnx gny gnz r
  = fold_left (exact_store_at row gnx gny) (candidates gix giy giz gnx gny gnz) r.
Proof.
  unfold exact_stencil_loops, candidates.
  rewrite fold_left_bind. apply fold_left_pointwise. intros r1 sz.
  destruct (exact_in_bounds giz gnz sz); [|reflexivity].
  rewrite fold_left_bind. apply fold_left_pointwise. intros r2 sy.
  destruct (exact_in_bounds giy gny sy); [|reflexivity].
  rewrite fold_left_bind. apply fold_left_pointwise. intros r3 sx.
  destruct (exact_in_bounds gix gnx sx); reflexivity.
Qed.

Lemma generate_rows_points geom st :
  exact_generate_rows geom st = fold_left (exact_generate_at geom) (points geom) st.
Proof.
  unfold exact_generate_rows, points.
  rewrite fold_left_bind. apply fold_left_pointwise. intros s1 iz.
  rewrite fold_left_bind. apply fold_left_pointwise. intros s2 iy.
  rewrite fold_left_bind. apply fold_left_pointwise. intros s3 ix.
  reflexivity.
Qed.

Lemma elem_of_stencil s : s ∈ stencil <-> s = -1 \/ s = 0 \/ s = 1.
Proof.
  unfold stencil. rewrite !elem_of_cons, elem_of_nil. tauto.
Qed.

Lemma in_bounds_spec gi gn s : exact_in_bounds gi gn s = true <-> 0 <= gi + s < gn.
Proof.
  unfold exact_in_bounds. rewrite andb_true_iff, Z.gtb_lt, Z.ltb_lt. lia.
Qed.

Lemma elem_of_candidates gix giy giz gnx gny gnz o :
  o ∈ candidates gix giy giz gnx gny gnz <->
  (o.1.1 ∈ stencil /\ o.1.2 ∈ stencil /\ o.2 ∈ stencil)
  /\ 0 <= giz + o.1.1 < gnz /\ 0 <= giy + o.1.2 < gny /\ 0 <= gix + o.2 < gnx.
Proof.
  destruct o as [[sz sy] sx]. unfold candidates. cbn [fst snd].
  rewrite list_elem_of_bind. split.
  - intros (sz' & Ho & Hz).
    destruct (exact_in_bounds giz gnz sz') eqn:Ez; [|inversion Ho].
    apply list_elem_of_bind in Ho as (sy' & Ho & Hy).
    destruct (exact_in_bounds giy gny sy') eqn:Ey; [|inversion Ho].
    apply list_elem_of_bind in Ho as (sx' & Ho & Hx).
    destruct (exact_in_bounds gix gnx sx') eqn:Ex; [|inversion Ho].
    apply list_elem_of_singleton in Ho. injection Ho as -> -> ->.
    apply in_bounds_spec in Ez, Ey, Ex. tauto.
  - intros ((Hz & Hy & Hx) & Bz & By & Bx).
    apply in_bounds_spec in Bz, By, Bx.
    exists sz. split; [|exact Hz]. rewrite Bz.
    apply list_elem_of_bind. exists sy. split; [|exact Hy]. rewrite By.
    apply list_elem_of_bind. exists sx. split; [|exact Hx]. rewrite Bx.
    apply list_elem_of_singleton. reflexivity.
Qed.

Lemma elem_of_points geom p : p ∈ points geom <-> local_point geom p.
Proof.
  destruct p as [[iz iy] ix]. unfold points, local_point. cbn [fst snd].
  rewrite list_elem_of_bind. split.
  - intros (iz' & Hp & Hz%elem_of_seqZ).
    apply list_elem_of_bind in Hp as (iy' & Hp & Hy%elem_of_seqZ).
    apply list_elem_of_bind in Hp as (ix' & Hp & Hx%elem_of_seqZ).
    apply list_elem_of_singleton in Hp. injection Hp as -> -> ->. lia.
  - intros (Hz & Hy & Hx).
    exists iz. split; [|apply elem_of_seqZ; lia].
    apply list_elem_of_bind. exists iy. split; [|apply elem_of_seqZ; lia].
    apply list_elem_of_bind. exists ix. split; [|apply elem_of_seqZ; lia].
    apply list_elem_of_singleton. reflexivity.
Qed.

(** ** What the stencil loops store, whatever the columns *)

Section ColumnFold.
Variable row : Z.
Variable col : Z * Z * Z -> Z.

Let stored (cs : list (Z * Z * Z)) (r : Row) : Row :=
  fold_left (fun r o => store_column row (col o) r) cs r.

Lemma stored_snoc cs o r :
  stored (cs ++ [o]) r = store_column row (col o) (stored cs r).
Proof. unfold stored. rewrite fold_left_app. reflexivity. Qed.

Lemma stored_fields cs r :
  numberOfNonzerosInRow (stored cs r) = numberOfNonzerosInRow r + Z.of_nat (length cs)
  /\ currentValuePointer (stored cs r) = (currentValuePointer r + length cs)%nat
  /\ currentIndexPointerG (stored cs r) = (currentIndexPointerG r + length cs)%nat
  /\ length (values (stored cs r)) = length (values r)
  /\ length (indices (stored cs r)) = length (indices r).
Proof.
  induction cs as [|o cs IH] using rev_ind.
  - simpl. split_and!; lia.
  - rewrite stored_snoc. destruct IH as (Hc & Hv & Hi & Hlv & Hli).
    unfold store_column. simpl.
    rewrite !length_insert, length_app, Hc, Hv, Hi. simpl. split_and!; lia.
Qed.

Lemma stored_slots cs r :
  (currentValuePointer r + length cs <= length (values r))%nat ->
  (currentIndexPointerG r + length cs <= length (indices r))%nat ->
  forall j o, cs !! j = Some o ->
    values (stored cs r) !! (currentValuePointer r + j)%nat
    = Some (Some (if col o =? row then of_Z 27 else of_Z (-1)))
    /\ indices (stored cs r) !! (currentIndexPointerG r + j)%nat = Some (Some (col o)).
Proof.
  induction cs as [|o' cs IH] using rev_ind; intros Hv Hi j o Hj.
  - inversion Hj.
  - rewrite length_app in Hv, Hi. simpl in Hv, Hi.
    rewrite stored_snoc.
    destruct (stored_fields cs r) as (_ & Hvp & Hip & Hlv & Hli).
    unfold store_column. simpl. rewrite Hvp, Hip.
    destruct (decide (j = length cs)) as [-> | Hne].
    + rewrite list_lookup_middle in Hj by reflexivity. injection Hj as ->.
      rewrite !list_lookup_insert_eq by lia. split; reflexivity.
    + assert (Hlt : (j < length cs)%nat).
      { apply lookup_lt_Some in Hj. rewrite length_app in Hj. simpl in Hj. lia. }
      rewrite lookup_app_l in Hj by exact Hlt.
      rewrite !list_lookup_insert_ne by lia.
      apply IH; [lia | lia | exact Hj].
Qed.

End ColumnFold.

(** ** What the stencil loops store in a row *)

Section StoreFold.
Variables row gnx gny : Z.

Let col (o : Z * Z * Z) : Z := row + o.1.1 * gnx * gny + o.1.2 * gnx + o.2.
Let filled (cs : list (Z * Z * Z)) (r : Row) : Row :=
  fold_left (exact_store_at row gnx gny) cs r.

Lemma filled_snoc cs o r :
  filled (cs ++ [o]) r = exact_store_at row gnx gny (filled cs r) o.
Proof. unfold filled. rewrite fold_left_app. reflexivity. Qed.

Lemma filled_fields cs r :
  numberOfNonzerosInRow (filled cs r) = numberOfNonzerosInRow r + Z.of_nat (length cs)
  /\ currentValuePointer (filled cs r) = (currentValuePointer r + length cs)%nat
  /\ currentIndexPointerG (filled cs r) = (currentIndexPointerG r + length cs)%nat
  /\ length (values (filled cs r)) = length (values r)
  /\ length (indices (filled cs r)) = length (indices r).
Proof. exact (stored_fields row col cs r). Qed.

Lemma filled_slots cs r :
  (currentValuePointer r + length cs <= length (values r))%nat ->
  (currentIndexPointerG r + length cs <= length (indices r))%nat ->
  forall j o, cs !! j = Some o ->
    values (filled cs r) !! (currentValuePointer r + j)%nat
    = Some (Some (if col o =? row then of_Z 27 else of_Z (-1)))
    /\ indices (filled cs r) !! (currentIndexPointerG r + j)%nat = Some (Some (col o)).
Proof. exact (stored_slots row col cs r). Qed.

Lemma filled_diagonal_keep cs r :
  (forall o, o ∈ cs -> col o <> row) -> diagonal (filled cs r) = diagonal r.
Proof.
  induction cs as [|o cs IH] using rev_ind; intros Hcs; [reflexivity|].
  rewrite filled_snoc. unfold exact_store_at, exact_store_entry. simpl. fold (col o).
  destruct (Z.eqb_spec (col o) row) as [E | _].
  - exfalso. apply (Hcs o); [|exact E].
    apply elem_of_app. right. apply list_elem_of_singleton. reflexivity.
  - apply IH. intros o' Ho'. apply Hcs, elem_of_app. left. exact Ho'.
Qed.

Lemma filled_diagonal_set l1 o l2 r :
  col o = row -> (forall o', o' ∈ l2 -> col o' <> row) ->
  diagonal (filled (l1 ++ o :: l2) r)
  = Some (currentValuePointer r + length l1)%nat.
Proof.
  intros Ho Hl2. unfold filled. rewrite fold_left_app. simpl.
  fold (filled l1 r). fold (filled l2 (exact_store_at row gnx gny (filled l1 r) o)).
  rewrite filled_diagonal_keep by exact Hl2.
  unfold exact_store_at, exact_store_entry. simpl. fold (col o).
  rewrite Ho, Z.eqb_refl.
  destruct (filled_fields l1 r) as (_ & -> & _). reflexivity.
Qed.
End StoreFold.

(** ** The linearization of grid coordinates *)

Section Linearization.

Lemma lin2_lt X a a' q q' :
  0 <= a < X -> 0 <= a' -> q < q' -> q * X + a < q' * X + a'.
Proof. intros Ha Ha' Hq. nia. Qed.

Lemma lin2_inj X a a' q q' :
  0 <= a < X -> 0 <= a' < X -> q * X + a = q' * X + a' -> q = q' /\ a = a'.
Proof.
  intros Ha Ha' E.
  destruct (Z.lt_trichotomy q q') as [Hlt | [-> | Hgt]].
  - pose proof (lin2_lt X a a' q q' Ha (proj1 Ha') Hlt). lia.
  - lia.
  - pose proof (lin2_lt X a' a q' q Ha' (proj1 Ha) Hgt). lia.
Qed.

Lemma lin3_lt X Y x y z x' y' z' :
  0 <= x < X -> 0 <= x' < X -> 0 <= y < Y -> 0 <= y' < Y ->
  z < z' \/ (z = z' /\ (y < y' \/ (y = y' /\ x < x'))) ->
  z * X * Y + y * X + x < z' * X * Y + y' * X + x'.
Proof.
  intros Hx Hx' Hy Hy' Hlex.
  replace (z * X * Y + y * X + x) with ((z * Y + y) * X + x) by ring.
  replace (z' * X * Y + y' * X + x') with ((z' * Y + y') * X + x') by ring.
  destruct Hlex as [Hz | [-> [Hlt | [-> Hlt]]]].
  - apply lin2_lt; [lia | lia |]. apply lin2_lt; lia.
  - apply lin2_lt; lia.
  - lia.
Qed.

Lemma lin3_inj X Y x y z x' y' z' :
  0 <= x < X -> 0 <= x' < X -> 0 <= y < Y -> 0 <= y' < Y ->
  z * X * Y + y * X + x = z' * X * Y + y' * X + x' ->
  z = z' /\ y = y' /\ x = x'.
Proof.
  intros Hx Hx' Hy Hy' E.
  replace (z * X * Y + y * X + x) with ((z * Y + y) * X + x) in E by ring.
  replace (z' * X * Y + y' * X + x') with ((z' * Y + y') * X + x') in E by ring.
  apply lin2_inj in E as [E ->]; [|lia..].
  apply lin2_inj in E as [-> ->]; [|lia..]. auto.
Qed.

(** Every local row is the row of one local point. *)
Lemma point_of_row_spec geom r :
  0 < nx geom -> 0 < ny geom -> 0 <= r < nx geom * ny geom * nz geom ->
  local_point geom (point_of_row geom r)
  /\ exact_local_row geom (point_of_row geom r).1.1 (point_of_row geom r).1.2
       (point_of_row geom r).2 = r.
Proof.
  intros Hx Hy Hr. unfold local_point, exact_local_row, point_of_row. cbn [fst snd].
  pose proof (Z.mod_pos_bound r (nx geom) Hx).
  pose proof (Z.mod_pos_bound (r / nx geom) (ny geom) Hy).
  pose proof (Z.div_mod r (nx geom) ltac:(lia)) as E1.
  pose proof (Z.div_mod (r / nx geom) (ny geom) ltac:(lia)) as E2.
  rewrite Z.div_div in E2 by lia.
  assert (0 <= r / (nx geom * ny geom) < nz geom).
  { split; [apply Z.div_pos; nia|].
    apply Z.div_lt_upper_bound; nia. }
  split; [lia|]. nia.
Qed.

Lemma local_row_inj geom p q :
  local_point geom p -> local_point geom q ->
  exact_local_row geom p.1.1 p.1.2 p.2 = exact_local_row geom q.1.1 q.1.2 q.2 -> p = q.
Proof.
  destruct p as [[iz iy] ix], q as [[jz jy] jx].
  unfold local_point, exact_local_row. cbn [fst snd]. intros Hp Hq E.
  apply lin3_inj in E as (-> & -> & ->); [reflexivity | lia..].
Qed.

Lemma local_row_range geom p :
  local_point geom p ->
  0 <= exact_local_row geom p.1.1 p.1.2 p.2 < nx geom * ny geom * nz geom.
Proof.
  destruct p as [[iz iy] ix]. unfold local_point, exact_local_row. cbn [fst snd].
  intros Hp.
  replace (iz * nx geom * ny geom + iy * nx geom + ix)
    with ((iz * ny geom + iy) * nx geom + ix) by ring.
  assert (0 <= iz * ny geom + iy <= nz geom * ny geom - 1) by nia.
  nia.
Qed.

(** The global coordinates of a local point lie inside the global grid. *)
Lemma global_point_range geom p :
  valid_geometry geom -> local_point geom p ->
  0 <= exact_global_x geom p.2 < exact_gnx geom
  /\ 0 <= exact_global_y geom p.1.2 < exact_gny geom
  /\ 0 <= exact_global_z geom p.1.1 < exact_gnz geom.
Proof.
  intros Hv (Hz & Hy & Hx). destruct Hv.
  unfold exact_global_x, exact_global_y, exact_global_z, exact_gnx, exact_gny, exact_gnz. split_and!; nia.
Qed.

Lemma global_row_inj geom p q :
  valid_geometry geom -> local_point geom p -> local_point geom q ->
  exact_global_row geom p.1.1 p.1.2 p.2 = exact_global_row geom q.1.1 q.1.2 q.2 -> p = q.
Proof.
  intros Hv Hp Hq E.
  pose proof (global_point_range geom p Hv Hp) as (Hpx & Hpy & Hpz).
  pose proof (global_point_range geom q Hv Hq) as (Hqx & Hqy & Hqz).
  unfold exact_global_row in E.
  apply lin3_inj in E as (Ez & Ey & Ex); [|lia..].
  destruct p as [[iz iy] ix], q as [[jz jy] jx].
  unfold exact_global_x, exact_global_y, exact_global_z in *. cbn [fst snd] in *.
  f_equal; [f_equal|]; lia.
Qed.

(** [curcol] is the linearization of the neighbour's global coordinates. *)
Lemma column_lin geom p o :
  column geom p o
  = (exact_global_z geom p.1.1 + o.1.1) * exact_gnx geom * exact_gny geom
    + (exact_global_y geom p.1.2 + o.1.2) * exact_gnx geom + (exact_global_x geom p.2 + o.2).
Proof. unfold column, exact_global_row. ring. Qed.

End Linearization.

(** ** The stencil entries of a row: order and number *)

Section Candidates.

Lemma stencil_sorted : StronglySorted Z.lt stencil.
Proof. unfold stencil. repeat constructor; lia. Qed.

Lemma sorted_masked {B} (R : relation B) (m : Z -> bool) (g : Z -> list B) :
  (forall s, StronglySorted R (g s)) ->
  (forall s s' y y', s < s' -> y ∈ g s -> y' ∈ g s' -> R y y') ->
  StronglySorted R (stencil ≫= fun s => if m s then g s else []).
Proof.
  intros Hg Hcross. generalize stencil_sorted.
  induction stencil as [|s l IH]; intros Hl; [constructor|].
  apply StronglySorted_inv in Hl as [Hl Hs]. rewrite bind_cons.
  apply StronglySorted_app_2; [| destruct (m s); [apply Hg | constructor] | auto].
  intros y y' Hy (s' & Hy' & Hs')%list_elem_of_bind.
  destruct (m s); [|inversion Hy]. destruct (m s'); [|inversion Hy'].
  rewrite Forall_forall in Hs. eapply Hcross; eauto.
Qed.

Variables gix giy giz gnx gny gnz : Z.

Lemma candidates_sorted :
  StronglySorted loop_order (candidates gix giy giz gnx gny gnz).
Proof.
  unfold candidates. apply sorted_masked.
  - intros sz. apply sorted_masked.
    + intros sy. apply sorted_masked.
      * intros sx. repeat constructor.
      * intros sx sx' o o' Hlt ->%list_elem_of_singleton ->%list_elem_of_singleton.
        unfold loop_order. cbn [fst snd]. lia.
    + intros sy sy' o o' Hlt (sx & Ho & _)%list_elem_of_bind
        (sx' & Ho' & _)%list_elem_of_bind.
      destruct (exact_in_bounds gix gnx sx); [|inversion Ho].
      destruct (exact_in_bounds gix gnx sx'); [|inversion Ho'].
      apply list_elem_of_singleton in Ho as ->.
      apply list_elem_of_singleton in Ho' as ->.
      unfold loop_order. cbn [fst snd]. lia.
  - intros sz sz' o o' Hlt (sy & Ho & _)%list_elem_of_bind
      (sy' & Ho' & _)%list_elem_of_bind.
    destruct (exact_in_bounds giy gny sy); [|inversion Ho].
    destruct (exact_in_bounds giy gny sy'); [|inversion Ho'].
    apply list_elem_of_bind in Ho as (sx & Ho & _).
    apply list_elem_of_bind in Ho' as (sx' & Ho' & _).
    destruct (exact_in_bounds gix gnx sx); [|inversion Ho].
    destruct (exact_in_bounds gix gnx sx'); [|inversion Ho'].
    apply list_elem_of_singleton in Ho as ->.
    apply list_elem_of_singleton in Ho' as ->.
    unfold loop_order. cbn [fst snd]. lia.
Qed.

Lemma length_candidates :
  Z.of_nat (length (candidates gix giy giz gnx gny gnz))
  = axis_count giz gnz * axis_count giy gny * axis_count gix gnx.
Proof.
  unfold candidates, axis_count, stencil.
  generalize (exact_in_bounds giz gnz), (exact_in_bounds giy gny), (exact_in_bounds gix gnx).
  intros mz my mx. cbn [mbind list_bind app].
  destruct (mz (-1)), (mz 0), (mz 1), (my (-1)), (my 0), (my 1),
    (mx (-1)), (mx 0), (mx 1); reflexivity.
Qed.

End Candidates.

Section AxisCount.
Variables gi gn : Z.

Lemma axis_count_range : 0 <= axis_count gi gn <= 3.
Proof.
  unfold axis_count.
  destruct (exact_in_bounds gi gn (-1)), (exact_in_bounds gi gn 0), (exact_in_bounds gi gn 1);
    simpl; lia.
Qed.

Lemma axis_count_cases :
  0 <= gi < gn ->
  axis_count gi gn
  = 1 + (if decide (0 < gi) then 1 else 0) + (if decide (gi < gn - 1) then 1 else 0).
Proof.
  intros Hgi. unfold axis_count.
  destruct (exact_in_bounds gi gn (-1)) eqn:E1, (exact_in_bounds gi gn 0) eqn:E2,
    (exact_in_bounds gi gn 1) eqn:E3;
    try apply in_bounds_spec in E1; try apply in_bounds_spec in E2;
    try apply in_bounds_spec in E3;
    try (apply not_true_iff_false in E1; rewrite in_bounds_spec in E1);
    try (apply not_true_iff_false in E2; rewrite in_bounds_spec in E2);
    try (apply not_true_iff_false in E3; rewrite in_bounds_spec in E3);
    repeat case_decide; simpl; lia.
Qed.
End AxisCount.

(** ** The entries of one row *)

Section RowEntries.
Variable geom : Geometry.
Variable p : Z * Z * Z.

Lemma elem_of_row_entries o :
  o ∈ row_entries geom p <->
  (o.1.1 ∈ stencil /\ o.1.2 ∈ stencil /\ o.2 ∈ stencil)
  /\ 0 <= exact_global_z geom p.1.1 + o.1.1 < exact_gnz geom
  /\ 0 <= exact_global_y geom p.1.2 + o.1.2 < exact_gny geom
  /\ 0 <= exact_global_x geom p.2 + o.2 < exact_gnx geom.
Proof. apply elem_of_candidates. Qed.

Lemma column_mono o o' :
  o ∈ row_entries geom p -> o' ∈ row_entries geom p ->
  loop_order o o' -> column geom p o < column geom p o'.
Proof.
  intros (_ & _ & Hy & Hx)%elem_of_row_entries
         (_ & _ & Hy' & Hx')%elem_of_row_entries Hord.
  rewrite !column_lin. apply lin3_lt; try assumption.
  unfold loop_order in Hord. lia.
Qed.

Lemma column_center : column geom p (0, 0, 0) = exact_global_row geom p.1.1 p.1.2 p.2.
Proof. unfold column. cbn [fst snd]. ring. Qed.

Lemma row_entries_count :
  Z.of_nat (length (row_entries geom p))
  = axis_count (exact_global_z geom p.1.1) (exact_gnz geom)
    * axis_count (exact_global_y geom p.1.2) (exact_gny geom)
    * axis_count (exact_global_x geom p.2) (exact_gnx geom).
Proof. apply length_candidates. Qed.

Lemma row_entries_count_le : 0 <= Z.of_nat (length (row_entries geom p)) <= 27.
Proof.
  rewrite row_entries_count.
  pose proof (axis_count_range (exact_global_z geom p.1.1) (exact_gnz geom)).
  pose proof (axis_count_range (exact_global_y geom p.1.2) (exact_gny geom)).
  pose proof (axis_count_range (exact_global_x geom p.2) (exact_gnx geom)).
  split; [nia|].
  assert (axis_count (exact_global_z geom p.1.1) (exact_gnz geom)
          * axis_count (exact_global_y geom p.1.2) (exact_gny geom) <= 9) by nia.
  nia.
Qed.

(** The entries of a row come in strictly increasing column order. *)
Lemma row_entries_lookup_lt j k o o' :
  (j < k)%nat -> row_entries geom p !! j = Some o ->
  row_entries geom p !! k = Some o' -> column geom p o < column geom p o'.
Proof.
  intros Hjk Hj Hk.
  apply column_mono; [eapply list_elem_of_lookup_2, Hj
                     | eapply list_elem_of_lookup_2, Hk |].
  pose proof (candidates_sorted (exact_global_x geom p.2) (exact_global_y geom p.1.2)
                (exact_global_z geom p.1.1) (exact_gnx geom) (exact_gny geom) (exact_gnz geom)) as Hs.
  fold (row_entries geom p) in Hs.
  rewrite <- (take_drop_middle _ _ _ Hj) in Hs, Hk.
  apply StronglySorted_app_1_r, StronglySorted_inv in Hs as [_ Hs].
  rewrite Forall_forall in Hs. apply Hs.
  rewrite lookup_app_r in Hk by (rewrite length_take; lia).
  rewrite length_take_le in Hk by (apply lookup_lt_Some in Hj; lia).
  destruct (k - j)%nat as [|m] eqn:E; [lia|].
  simpl in Hk. eapply list_elem_of_lookup_2, Hk.
Qed.

Hypothesis Hvalid : valid_geometry geom.
Hypothesis Hlocal : local_point geom p.

Lemma center_in_row : (0, 0, 0) ∈ row_entries geom p.
Proof.
  apply elem_of_row_entries. cbn [fst snd].
  pose proof (global_point_range geom p Hvalid Hlocal).
  rewrite !elem_of_stencil. lia.
Qed.

Lemma column_eq_center o :
  o ∈ row_entries geom p ->
  column geom p o = exact_global_row geom p.1.1 p.1.2 p.2 <-> o = (0, 0, 0).
Proof.
  intros (_ & Hz & Hy & Hx)%elem_of_row_entries. split.
  - intros E. rewrite column_lin in E. unfold exact_global_row in E.
    pose proof (global_point_range geom p Hvalid Hlocal).
    apply lin3_inj in E as (Ez & Ey & Ex); [|lia..].
    destruct o as [[sz sy] sx]. cbn [fst snd] in *.
    f_equal; [f_equal|]; lia.
  - intros ->. apply column_center.
Qed.

Lemma row_entries_count_ge_1 : 1 <= Z.of_nat (length (row_entries geom p)).
Proof.
  pose proof center_in_row as Hc. destruct (row_entries geom p); [inversion Hc|].
  simpl. lia.
Qed.

(** The slot of the diagonal entry. *)
Lemma center_slot :
  exists l1 l2, row_entries geom p = l1 ++ (0, 0, 0) :: l2
    /\ (forall o, o ∈ l2 -> column geom p o <> exact_global_row geom p.1.1 p.1.2 p.2).
Proof.
  destruct (list_elem_of_split _ _ center_in_row) as (l1 & l2 & E).
  exists l1, l2. split; [exact E|]. intros o Ho Hcol.
  assert (Hin : o ∈ row_entries geom p).
  { rewrite E. apply elem_of_app. right. apply elem_of_cons. right. exact Ho. }
  apply column_eq_center in Hcol; [|exact Hin]. subst o.
  pose proof (candidates_sorted (exact_global_x geom p.2) (exact_global_y geom p.1.2)
                (exact_global_z geom p.1.1) (exact_gnx geom) (exact_gny geom) (exact_gnz geom)) as Hs.
  fold (row_entries geom p) in Hs. rewrite E in Hs.
  apply StronglySorted_app_1_r, StronglySorted_inv in Hs as [_ Hs].
  rewrite Forall_forall in Hs. specialize (Hs _ Ho).
  unfold loop_order in Hs. cbn [fst snd] in Hs. lia.
Qed.

End RowEntries.

(** ** The row loops *)

Section RowLoops.
Variable geom : Geometry.
Hypothesis Hvalid : valid_geometry geom.

Let rows : nat := Z.to_nat (nx geom * ny geom * nz geom).

Lemma local_row_index p :
  local_point geom p -> (Z.to_nat (exact_local_row geom p.1.1 p.1.2 p.2) < rows)%nat.
Proof. intros Hp%local_row_range. unfold rows. lia. Qed.

Lemma local_row_index_ne p q :
  local_point geom p -> local_point geom q -> p <> q ->
  Z.to_nat (exact_local_row geom p.1.1 p.1.2 p.2)
  <> Z.to_nat (exact_local_row geom q.1.1 q.1.2 q.2).
Proof.
  intros Hp Hq Hne E. apply Hne, (local_row_inj geom); auto.
  pose proof (local_row_range geom p Hp). pose proof (local_row_range geom q Hq).
  lia.
Qed.

Lemma allocate_well_sized :
  well_sized rows (allocate (nx geom * ny geom * nz geom)).
Proof.
  unfold well_sized, allocate. cbn [nonzerosInRow mtxIndG matrixValues
    matrixDiagonal localToGlobalMap b x xexact].
  rewrite !length_replicate. fold rows. split_and!; try reflexivity.
  - apply Forall_replicate, length_replicate.
  - apply Forall_replicate, length_replicate.
Qed.

Lemma generate_at_well_sized st p :
  well_sized rows st -> well_sized rows (exact_generate_at geom st p).
Proof.
  intros (H1 & H2 & H3 & H4 & H5 & H6 & H7 & H8 & Hvs & Hjs).
  unfold well_sized, exact_generate_at, exact_generate_row.
  cbn [nonzerosInRow mtxIndG matrixValues matrixDiagonal localToGlobalMap
       b x xexact].
  rewrite !length_insert, !stencil_loops_candidates.
  set (i := Z.to_nat (exact_local_row geom p.1.1 p.1.2 p.2)).
  split_and!; try assumption.
  - destruct (decide (i < length (matrixValues st))%nat) as [Hi | Hi].
    + apply Forall_insert; [exact Hvs|].
      destruct (filled_fields (exact_global_row geom p.1.1 p.1.2 p.2) (exact_gnx geom) (exact_gny geom)
        (candidates (exact_global_x geom p.2) (exact_global_y geom p.1.2) (exact_global_z geom p.1.1)
           (exact_gnx geom) (exact_gny geom) (exact_gnz geom))
        (open_row st (exact_local_row geom p.1.1 p.1.2 p.2))) as (_ & _ & _ & -> & _).
      unfold open_row. cbn [values]. fold i.
      destruct (lookup_lt_is_Some_2 _ _ Hi) as [vs Hl]. rewrite Hl. simpl.
      rewrite Forall_forall in Hvs. eapply Hvs, list_elem_of_lookup_2, Hl.
    + rewrite list_insert_ge by lia. exact Hvs.
  - destruct (decide (i < length (mtxIndG st))%nat) as [Hi | Hi].
    + apply Forall_insert; [exact Hjs|].
      destruct (filled_fields (exact_global_row geom p.1.1 p.1.2 p.2) (exact_gnx geom) (exact_gny geom)
        (candidates (exact_global_x geom p.2) (exact_global_y geom p.1.2) (exact_global_z geom p.1.1)
           (exact_gnx geom) (exact_gny geom) (exact_gnz geom))
        (open_row st (exact_local_row geom p.1.1 p.1.2 p.2))) as (_ & _ & _ & _ & ->).
      unfold open_row. cbn [indices]. fold i.
      destruct (lookup_lt_is_Some_2 _ _ Hi) as [js Hl]. rewrite Hl. simpl.
      rewrite Forall_forall in Hjs. eapply Hjs, list_elem_of_lookup_2, Hl.
    + rewrite list_insert_ge by lia. exact Hjs.
Qed.

Lemma generate_at_other st p q :
  local_point geom p -> local_point geom q -> p <> q ->
  row_generated geom st q -> row_generated geom (exact_generate_at geom st p) q.
Proof.
  intros Hp Hq Hne. pose proof (local_row_index_ne p q Hp Hq Hne) as Hi.
  assert (Hg : exact_global_row geom p.1.1 p.1.2 p.2 <> exact_global_row geom q.1.1 q.1.2 q.2).
  { intros E. apply Hne, (global_row_inj geom); auto. }
  unfold row_generated, exact_generate_at, exact_generate_row.
  cbn [nonzerosInRow mtxIndG matrixValues matrixDiagonal localToGlobalMap
       globalToLocalMap b x xexact].
  rewrite !list_lookup_insert_ne by exact Hi.
  rewrite lookup_insert_ne by exact Hg. tauto.
Qed.

Lemma generate_at_this st p :
  local_point geom p -> well_sized rows st ->
  row_generated geom (exact_generate_at geom st p) p.
Proof.
  intros Hp (H1 & H2 & H3 & H4 & H5 & H6 & H7 & H8 & Hvs & Hjs).
  pose proof (local_row_index p Hp) as Hi.
  unfold row_generated, exact_generate_at, exact_generate_row.
  cbn [nonzerosInRow mtxIndG matrixValues matrixDiagonal localToGlobalMap
       globalToLocalMap b x xexact].
  rewrite !stencil_loops_candidates. fold (row_entries geom p).
  set (i := Z.to_nat (exact_local_row geom p.1.1 p.1.2 p.2)) in *.
  set (r0 := open_row st (exact_local_row geom p.1.1 p.1.2 p.2)).
  set (row := exact_global_row geom p.1.1 p.1.2 p.2).
  assert (Hr0v : length (values r0) = numberOfNonzerosPerRow).
  { unfold r0, open_row. cbn [values]. fold i.
    destruct (lookup_lt_is_Some_2 (matrixValues st) i) as [vs Hl]; [lia|].
    rewrite Hl. simpl. rewrite Forall_forall in Hvs.
    eapply Hvs, list_elem_of_lookup_2, Hl. }
  assert (Hr0j : length (indices r0) = numberOfNonzerosPerRow).
  { unfold r0, open_row. cbn [indices]. fold i.
    destruct (lookup_lt_is_Some_2 (mtxIndG st) i) as [js Hl]; [lia|].
    rewrite Hl. simpl. rewrite Forall_forall in Hjs.
    eapply Hjs, list_elem_of_lookup_2, Hl. }
  pose proof (row_entries_count_le geom p) as Hle.
  destruct (filled_fields row (exact_gnx geom) (exact_gny geom) (row_entries geom p) r0)
    as (Hcount & _ & _ & Hlv & Hlj).
  assert (Hcount' : numberOfNonzerosInRow
            (fold_left (exact_store_at row (exact_gnx geom) (exact_gny geom)) (row_entries geom p) r0)
          = Z.of_nat (length (row_entries geom p))).
  { rewrite Hcount. unfold r0, open_row. cbn [numberOfNonzerosInRow]. lia. }
  rewrite !Hcount'.
  rewrite !list_lookup_insert_eq by lia. rewrite lookup_insert_eq.
  split_and!; try reflexivity.
  - eexists. split; [reflexivity|]. split; [congruence|].
    intros j o Hj.
    apply (filled_slots row (exact_gnx geom) (exact_gny geom) (row_entries geom p) r0);
      [ unfold numberOfNonzerosPerRow in *; cbn [r0 open_row currentValuePointer]; lia
      | unfold numberOfNonzerosPerRow in *; cbn [r0 open_row currentIndexPointerG]; lia
      | exact Hj ].
  - eexists. split; [reflexivity|]. split; [congruence|].
    intros j o Hj.
    apply (filled_slots row (exact_gnx geom) (exact_gny geom) (row_entries geom p) r0);
      [ unfold numberOfNonzerosPerRow in *; cbn [r0 open_row currentValuePointer]; lia
      | unfold numberOfNonzerosPerRow in *; cbn [r0 open_row currentIndexPointerG]; lia
      | exact Hj ].
  - destruct (center_slot geom p Hvalid Hp) as (l1 & l2 & E & Hl2).
    exists (length l1). rewrite E. split; [|apply list_lookup_middle; reflexivity].
    f_equal. apply filled_diagonal_set; [|exact Hl2].
    fold (column geom p (0, 0, 0)). apply column_center.
Qed.

(** After the loops over a list of local points, every point of the list
    has its row generated. *)
Lemma generate_points_rows l st :
  well_sized rows st -> (forall p, p ∈ l -> local_point geom p) ->
  well_sized rows (fold_left (exact_generate_at geom) l st)
  /\ forall p, p ∈ l -> row_generated geom (fold_left (exact_generate_at geom) l st) p.
Proof.
  intros Hst. induction l as [|q l IH] using rev_ind; intros Hl.
  - split; [exact Hst | intros p Hp; inversion Hp].
  - rewrite fold_left_app. simpl.
    destruct IH as [Hsized Hrows].
    { intros p Hp. apply Hl, elem_of_app. left. exact Hp. }
    assert (Hq : local_point geom q).
    { apply Hl, elem_of_app. right. apply list_elem_of_singleton. reflexivity. }
    split; [apply generate_at_well_sized, Hsized|].
    intros p [Hp | ->%list_elem_of_singleton]%elem_of_app.
    + destruct (decide (q = p)) as [-> | Hne].
      * apply generate_at_this; assumption.
      * apply generate_at_other; auto.
        apply Hl, elem_of_app. left. exact Hp.
    + apply generate_at_this; assumption.
Qed.

(** The state the row loops leave: every local row is generated. *)
Lemma generate_rows_generated p :
  local_point geom p ->
  row_generated geom
    (exact_generate_rows geom (allocate (nx geom * ny geom * nz geom))) p.
Proof.
  intros Hp. rewrite generate_rows_points.
  apply generate_points_rows.
  - apply allocate_well_sized.
  - intros q. apply elem_of_points.
  - apply elem_of_points, Hp.
Qed.

Lemma generate_rows_well_sized :
  well_sized rows (exact_generate_rows geom (allocate (nx geom * ny geom * nz geom))).
Proof.
  rewrite generate_rows_points.
  apply generate_points_rows.
  - apply allocate_well_sized.
  - intros q. apply elem_of_points.
Qed.

End RowLoops.

(** ** The nonzero counts and the outcome of the exact generation *)

Section Outcome.
Variable geom : Geometry.

Lemma generate_at_nonzeros st p :
  localNumberOfNonzeros (exact_generate_at geom st p)
  = localNumberOfNonzeros st + Z.of_nat (length (row_entries geom p)).
Proof.
  unfold exact_generate_at, exact_generate_row. cbn [localNumberOfNonzeros].
  rewrite stencil_loops_candidates. fold (row_entries geom p).
  destruct (filled_fields (exact_global_row geom p.1.1 p.1.2 p.2) (exact_gnx geom) (exact_gny geom)
              (row_entries geom p) (open_row st (exact_local_row geom p.1.1 p.1.2 p.2)))
    as (-> & _).
  reflexivity.
Qed.

Lemma generate_points_nonzeros lo l st :
  (forall p, p ∈ l -> lo <= Z.of_nat (length (row_entries geom p))) ->
  localNumberOfNonzeros st + lo * Z.of_nat (length l)
  <= localNumberOfNonzeros (fold_left (exact_generate_at geom) l st).
Proof.
  induction l as [|q l IH] using rev_ind; intros Hl.
  - simpl. lia.
  - rewrite fold_left_app, length_app. cbn [fold_left length].
    rewrite generate_at_nonzeros.
    assert (lo <= Z.of_nat (length (row_entries geom q))).
    { apply Hl, elem_of_app. right. apply list_elem_of_singleton. reflexivity. }
    assert (localNumberOfNonzeros st + lo * Z.of_nat (length l)
            <= localNumberOfNonzeros (fold_left (exact_generate_at geom) l st)).
    { apply IH. intros p Hp. apply Hl, elem_of_app. left. exact Hp. }
    lia.
Qed.

(** A process never contributes a negative count to the reduction. *)
Lemma local_nonzeros_nonneg : 0 <= exact_local_nonzeros geom.
Proof.
  unfold exact_local_nonzeros. rewrite generate_rows_points.
  pose proof (generate_points_nonzeros 0 (points geom)
                (allocate (nx geom * ny geom * nz geom))) as H.
  cbn [allocate localNumberOfNonzeros] in H. simpl in H. apply H.
  intros p _. lia.
Qed.

Lemma local_nonzeros_positive : valid_geometry geom -> 0 < exact_local_nonzeros geom.
Proof.
  intros Hv. unfold exact_local_nonzeros. rewrite generate_rows_points.
  pose proof (generate_points_nonzeros 1 (points geom)
                (allocate (nx geom * ny geom * nz geom))) as H.
  cbn [allocate localNumberOfNonzeros] in H.
  assert (Hp : (0, 0, 0) ∈ points geom).
  { apply elem_of_points. destruct Hv. unfold local_point. cbn [fst snd]. lia. }
  assert (1 <= Z.of_nat (length (points geom))).
  { destruct (points geom); [inversion Hp | simpl; lia]. }
  assert (0 + 1 * Z.of_nat (length (points geom))
          <= localNumberOfNonzeros
               (fold_left (exact_generate_at geom) (points geom)
                  (allocate (nx geom * ny geom * nz geom)))).
  { apply H. intros p Hp'%elem_of_points.
    apply row_entries_count_ge_1; assumption. }
  lia.
Qed.
End Outcome.

Lemma MPI_Allreduce_SUM_ge local others :
  Forall (fun c => 0 <= c) others -> local <= MPI_Allreduce_SUM local others.
Proof.
  unfold MPI_Allreduce_SUM. revert local.
  induction others as [|c others IH]; intros local Hall; simpl; [lia|].
  apply Forall_cons in Hall as [Hc Hall]. specialize (IH (local + c) Hall). lia.
Qed.

Lemma peers_nonneg (peers : list Geometry) :
  Forall (fun c => 0 <= c) (map exact_local_nonzeros peers).
Proof.
  apply Forall_forall. intros c (g & -> & _)%list_elem_of_fmap.
  apply local_nonzeros_nonneg.
Qed.

Lemma valid_geometry_rows geom :
  valid_geometry geom ->
  0 < nx geom * ny geom * nz geom /\ 0 < nx geom * ny geom * nz geom * size geom.
Proof. intros []. split; nia. Qed.

(** For a valid geometry the three assertions hold and the problem is the
    state left by the row loops, with the aggregate fields filled in. *)
Lemma exact_GenerateProblem_generated peers geom :
  valid_geometry geom ->
  exists pr, exact_GenerateProblem peers geom = Generated pr
    /\ localNumberOfRows pr = nx geom * ny geom * nz geom
    /\ well_sized (Z.to_nat (nx geom * ny geom * nz geom)) pr
    /\ forall p, local_point geom p -> row_generated geom pr p.
Proof.
  intros Hv. destruct (valid_geometry_rows geom Hv) as [Hrows Htotal].
  unfold exact_GenerateProblem.
  destruct (Z.gtb_spec (nx geom * ny geom * nz geom) 0) as [_|]; [|lia].
  destruct (Z.gtb_spec (nx geom * ny geom * nz geom * size geom) 0) as [_|]; [|lia].
  cbn [negb].
  pose proof (local_nonzeros_positive geom Hv) as Hnz. unfold exact_local_nonzeros in Hnz.
  pose proof (MPI_Allreduce_SUM_ge
    (localNumberOfNonzeros (exact_generate_rows geom (allocate (nx geom * ny geom * nz geom))))
    (map exact_local_nonzeros peers) (peers_nonneg peers)) as Hsum.
  destruct (Z.gtb_spec (MPI_Allreduce_SUM
    (localNumberOfNonzeros (exact_generate_rows geom (allocate (nx geom * ny geom * nz geom))))
    (map exact_local_nonzeros peers)) 0) as [_|]; [|lia].
  cbn [negb]. eexists. split; [reflexivity|]. split; [reflexivity|]. split.
  - exact (generate_rows_well_sized geom Hv).
  - intros p Hp. exact (generate_rows_generated geom Hv p Hp).
Qed.

(** ** The generated rows *)

Lemma valid_single_point : valid_geometry single_point.
Proof. constructor; simpl; lia. Qed.

Lemma valid_corner_geometry : valid_geometry corner_geometry.
Proof. constructor; simpl; lia. Qed.

(** In a generated row the offset [(0,0,0)] sits in one slot only. *)
Lemma center_slot_unique geom p j d :
  row_entries geom p !! j = Some (0, 0, 0) ->
  row_entries geom p !! d = Some (0, 0, 0) -> j = d.
Proof.
  intros Hj Hd.
  destruct (Nat.lt_trichotomy j d) as [Hlt | [-> | Hgt]]; [|reflexivity|].
  - pose proof (row_entries_lookup_lt geom p j d _ _ Hlt Hj Hd). lia.
  - pose proof (row_entries_lookup_lt geom p d j _ _ Hgt Hd Hj). lia.
Qed.

(** ** The two index maps *)

Lemma generate_points_map geom l st g r :
  globalToLocalMap (fold_left (exact_generate_at geom) l st) !! g = Some r ->
  globalToLocalMap st !! g = Some r
  \/ exists p, p ∈ l /\ g = exact_global_row geom p.1.1 p.1.2 p.2
               /\ r = exact_local_row geom p.1.1 p.1.2 p.2.
Proof.
  induction l as [|q l IH] using rev_ind; [auto|].
  rewrite fold_left_app. cbn [fold_left]. unfold exact_generate_at at 1, exact_generate_row.
  cbn [globalToLocalMap]. intros [[<- <-] | [_ Hold]]%lookup_insert_Some.
  - right. exists q. split; [|auto].
    apply elem_of_app. right. apply list_elem_of_singleton. reflexivity.
  - destruct (IH Hold) as [? | (p & Hp & ? & ?)]; [auto|].
    right. exists p. split; [|auto]. apply elem_of_app. left. exact Hp.
Qed.

(** ** The vectors *)

Lemma Z_range_cases (P : Z -> Prop) (n : nat) :
  (forall k, (k < n)%nat -> P (Z.of_nat k)) -> forall c, 0 <= c < Z.of_nat n -> P c.
Proof.
  intros H c Hc. rewrite <- (Z2Nat.id c) by lia. apply H. lia.
Qed.

(** [27.0 - (double)(c - 1)] is computed exactly, and multiplying it by 1.0
    leaves it as it is. *)
Lemma rhs_exact c :
  0 <= c <= 27 ->
  sub (of_Z 27) (of_Z (c - 1)) = of_Z (27 - (c - 1))
  /\ mul (sub (of_Z 27) (of_Z (c - 1))) (of_Z 1) = sub (of_Z 27) (of_Z (c - 1)).
Proof.
  intros Hc.
  apply (Z_range_cases
    (fun c =>
       sub (of_Z 27) (of_Z (c - 1)) = of_Z (27 - (c - 1))
       /\ mul (sub (of_Z 27) (of_Z (c - 1))) (of_Z 1) = sub (of_Z 27) (of_Z (c - 1)))
    28); [|lia].
  intros k Hk.
  do 28 (destruct k as [|k]; [vm_compute; split; reflexivity|]). lia.
Qed.

(** ** The nonzero count of a row *)

Section Counts.
Variables gi gn : Z.
Hypothesis Hgi : 0 <= gi < gn.

Lemma axis_count_ge_2 : 2 <= gn -> 2 <= axis_count gi gn <= 3.
Proof. intros. rewrite (axis_count_cases gi gn Hgi). repeat case_decide; lia. Qed.


Lemma axis_count_boundary :
  2 <= gn -> axis_count gi gn = 2 <-> gi = 0 \/ gi = gn - 1.
Proof. intros. rewrite (axis_count_cases gi gn Hgi). repeat case_decide; lia. Qed.
End Counts.

Lemma product_ge_8 a b c :
  2 <= a <= 3 -> 2 <= b <= 3 -> 2 <= c <= 3 ->
  8 <= a * b * c <= 27 /\ (a * b * c = 8 <-> a = 2 /\ b = 2 /\ c = 2).
Proof.
  intros Ha Hb Hc.
  assert (a = 2 \/ a = 3) as [-> | ->] by lia;
  assert (b = 2 \/ b = 3) as [-> | ->] by lia;
  assert (c = 2 \/ c = 3) as [-> | ->] by lia; lia.
Qed.

Section RowCount.
Variable geom : Geometry.
Variable p : Z * Z * Z.
Hypothesis Hvalid : valid_geometry geom.
Hypothesis Hlocal : local_point geom p.

Let count : Z := Z.of_nat (length (row_entries geom p)).

Lemma row_count_range : 1 <= count <= 27.
Proof.
  split; [apply row_entries_count_ge_1; assumption | apply row_entries_count_le].
Qed.

Lemma row_count_ge_8 :
  2 <= exact_gnx geom -> 2 <= exact_gny geom -> 2 <= exact_gnz geom -> 8 <= count <= 27.
Proof.
  intros Hx Hy Hz. unfold count. rewrite row_entries_count.
  destruct (global_point_range geom p Hvalid Hlocal) as (Gx & Gy & Gz).
  apply product_ge_8; apply axis_count_ge_2; assumption.
Qed.


Lemma row_count_8 :
  2 <= exact_gnx geom -> 2 <= exact_gny geom -> 2 <= exact_gnz geom ->
  count = 8 <->
    (exact_global_z geom p.1.1 = 0 \/ exact_global_z geom p.1.1 = exact_gnz geom - 1)
    /\ (exact_global_y geom p.1.2 = 0 \/ exact_global_y geom p.1.2 = exact_gny geom - 1)
    /\ (exact_global_x geom p.2 = 0 \/ exact_global_x geom p.2 = exact_gnx geom - 1).
Proof.
  intros Hx Hy Hz. unfold count. rewrite row_entries_count.
  destruct (global_point_range geom p Hvalid Hlocal) as (Gx & Gy & Gz).
  rewrite <- !axis_count_boundary by assumption.
  apply product_ge_8; apply axis_count_ge_2; assumption.
Qed.
End RowCount.

Lemma global_extents_ge_9 geom :
  3 <= nx geom -> 3 <= ny geom -> 3 <= nz geom ->
  3 <= npx geom -> 3 <= npy geom -> 3 <= npz geom ->
  9 <= exact_gnx geom /\ 9 <= exact_gny geom /\ 9 <= exact_gnz geom.
Proof. unfold exact_gnx, exact_gny, exact_gnz. intros. split_and!; nia. Qed.

(** ** The rows of a corner process *)

Lemma filter_none {A} (P : A -> Prop) `{!forall a, Decision (P a)} (l : list A) :
  (forall a, a ∈ l -> ~ P a) -> filter P l = [].
Proof.
  induction l as [|a l IH]; intros Hl; [reflexivity|].
  rewrite filter_cons_False by (apply Hl, list_elem_of_here).
  apply IH. intros a' Ha'. apply Hl, list_elem_of_further, Ha'.
Qed.

Lemma filter_one {A} (P : A -> Prop) `{!forall a, Decision (P a)}
    (l : list A) (i0 : nat) :
  (i0 < length l)%nat ->
  (forall i a, l !! i = Some a -> (P a <-> i = i0)) ->
  length (filter P l) = 1%nat.
Proof.
  intros Hi0 Hiff.
  destruct (lookup_lt_is_Some_2 l i0 Hi0) as [a0 Ha0].
  rewrite <- (take_drop_middle l i0 a0 Ha0).
  rewrite filter_app, filter_cons_True by (eapply Hiff; eauto).
  rewrite !filter_none; [reflexivity | |].
  - intros a (k & Hk)%list_elem_of_lookup_1 HP. rewrite lookup_drop in Hk.
    apply (Hiff _ _ Hk) in HP. lia.
  - intros a (k & Hk)%list_elem_of_lookup_1 HP.
    apply lookup_take_Some in Hk as [Hk Hlt].
    apply (Hiff _ _ Hk) in HP. lia.
Qed.

(** On one axis: the local coordinate whose global coordinate lies on the
    boundary of the global domain. *)
Lemma corner_axis n np ip i :
  3 <= n -> 3 <= np -> ip = 0 \/ ip = np - 1 -> 0 <= i < n ->
  (ip * n + i = 0 \/ ip * n + i = n * np - 1)
  <-> i = (if decide (ip = 0) then 0 else n - 1).
Proof.
  intros Hn Hnp [-> | ->] Hi.
  - rewrite decide_True by reflexivity. split; [|lia].
    intros [? | ?]; [lia | nia].
  - rewrite decide_False by lia. split; [|nia].
    intros [? | ?]; nia.
Qed.

Section Corner.
Variable geom : Geometry.
Hypothesis Hvalid : valid_geometry geom.
Hypothesis Hnx : 3 <= nx geom.
Hypothesis Hny : 3 <= ny geom.
Hypothesis Hnz : 3 <= nz geom.
Hypothesis Hnpx : 3 <= npx geom.
Hypothesis Hnpy : 3 <= npy geom.
Hypothesis Hnpz : 3 <= npz geom.
Hypothesis Hcorner : corner_process geom.

Lemma corner_point_local : local_point geom (corner_point geom).
Proof.
  unfold local_point, corner_point. cbn [fst snd].
  repeat case_decide; lia.
Qed.

(** The row of a local point holds 8 nonzeros exactly when the point is the
    corner point. *)
Lemma corner_point_count p :
  local_point geom p ->
  Z.of_nat (length (row_entries geom p)) = 8 <-> p = corner_point geom.
Proof.
  intros Hp.
  destruct (global_extents_ge_9 geom) as (Gx & Gy & Gz); try assumption.
  rewrite (row_count_8 geom p Hvalid Hp) by lia.
  destruct Hcorner as (Cx & Cy & Cz). destruct Hp as (Pz & Py & Px).
  unfold exact_global_x, exact_global_y, exact_global_z, exact_gnx, exact_gny, exact_gnz.
  rewrite (corner_axis (nz geom)), (corner_axis (ny geom)), (corner_axis (nx geom))
    by assumption.
  destruct p as [[iz iy] ix]. unfold corner_point. cbn [fst snd]. split.
  - intros (-> & -> & ->). reflexivity.
  - intros [= -> -> ->]. auto.
Qed.
End Corner.

(** ** The size assertions *)

(** Over unbounded integers the routine either fails one of its three
    assertions or generates the problem, nothing else.  It fails the first
    assertion when the local row count is not positive, the second when the
    total row count is not positive, the third when the reduced nonzero count
    is not positive.  For a valid geometry no assertion fails, and the three
    asserted counts of the generated problem are positive. *)
Lemma assertions_on_exact_counts (peers : list Geometry) (geom : Geometry) :
  (nx geom * ny geom * nz geom <= 0 ->
     exact_GenerateProblem peers geom = AssertionFailed localNumberOfRows_positive)
  /\ (0 < nx geom * ny geom * nz geom ->
      nx geom * ny geom * nz geom * size geom <= 0 ->
      exact_GenerateProblem peers geom = AssertionFailed totalNumberOfRows_positive)
  /\ (0 < nx geom * ny geom * nz geom ->
      0 < nx geom * ny geom * nz geom * size geom ->
      MPI_Allreduce_SUM (exact_local_nonzeros geom) (map exact_local_nonzeros peers) <= 0 ->
      exact_GenerateProblem peers geom = AssertionFailed totalNumberOfNonzeros_positive)
  /\ (valid_geometry geom ->
      exists pr, exact_GenerateProblem peers geom = Generated pr
        /\ 0 < localNumberOfRows pr
        /\ 0 < totalNumberOfRows pr
        /\ 0 < totalNumberOfNonzeros pr)
  /\ (forall a, exact_GenerateProblem peers geom = AssertionFailed a ->
      ~ valid_geometry geom).
Proof.
  assert (Hvalid : valid_geometry geom ->
            exists pr, exact_GenerateProblem peers geom = Generated pr
              /\ 0 < localNumberOfRows pr
              /\ 0 < totalNumberOfRows pr
              /\ 0 < totalNumberOfNonzeros pr).
  { intros Hv. destruct (valid_geometry_rows geom Hv) as [Hrows Htotal].
    pose proof (local_nonzeros_positive geom Hv) as Hnz.
    pose proof (MPI_Allreduce_SUM_ge (exact_local_nonzeros geom)
                  (map exact_local_nonzeros peers) (peers_nonneg peers)) as Hsum.
    unfold exact_GenerateProblem. fold (exact_local_nonzeros geom).
    destruct (Z.gtb_spec (nx geom * ny geom * nz geom) 0) as [_|]; [|lia].
    destruct (Z.gtb_spec (nx geom * ny geom * nz geom * size geom) 0) as [_|]; [|lia].
    destruct (Z.gtb_spec (MPI_Allreduce_SUM (exact_local_nonzeros geom)
                            (map exact_local_nonzeros peers)) 0) as [_|]; [|lia].
    cbn [negb]. eexists. split; [reflexivity|].
    cbn [localNumberOfRows totalNumberOfRows totalNumberOfNonzeros]. lia. }
  split_and!.
  - intros Hrows. unfold exact_GenerateProblem.
    destruct (Z.gtb_spec (nx geom * ny geom * nz geom) 0); [lia | reflexivity].
  - intros Hrows Htotal. unfold exact_GenerateProblem.
    destruct (Z.gtb_spec (nx geom * ny geom * nz geom) 0); [|lia].
    destruct (Z.gtb_spec (nx geom * ny geom * nz geom * size geom) 0);
      [lia | reflexivity].
  - intros Hrows Htotal Hnz. unfold exact_GenerateProblem. fold (exact_local_nonzeros geom).
    destruct (Z.gtb_spec (nx geom * ny geom * nz geom) 0); [|lia].
    destruct (Z.gtb_spec (nx geom * ny geom * nz geom * size geom) 0); [|lia].
    destruct (Z.gtb_spec (MPI_Allreduce_SUM (exact_local_nonzeros geom)
                            (map exact_local_nonzeros peers)) 0); [lia | reflexivity].
  - exact Hvalid.
  - intros a Hfail Hv. destruct (Hvalid Hv) as (pr & Hgen & _). congruence.
Qed.

(** The three assertions fail on an empty local block, on a run without
    process and on a process outside the process grid; none fails on a valid
    geometry. *)
Lemma assertions_on_exact_counts_examples :
  exact_GenerateProblem [] empty_block = AssertionFailed localNumberOfRows_positive
  /\ exact_GenerateProblem [] no_process = AssertionFailed totalNumberOfRows_positive
  /\ exact_GenerateProblem [] outside_grid = AssertionFailed totalNumberOfNonzeros_positive
  /\ exists pr, exact_GenerateProblem [small_geometry] small_geometry = Generated pr
       /\ 0 < localNumberOfRows pr
       /\ 0 < totalNumberOfRows pr
       /\ 0 < totalNumberOfNonzeros pr.
Proof.
  split_and!.
  - apply (assertions_on_exact_counts [] empty_block). simpl. lia.
  - apply (assertions_on_exact_counts [] no_process); simpl; lia.
  - apply (assertions_on_exact_counts [] outside_grid); [simpl; lia | simpl; lia |].
    vm_compute. discriminate.
  - apply (assertions_on_exact_counts [small_geometry] small_geometry).
    constructor; simpl; lia.
Qed.

(** ** The asserted counts on the machine *)

Lemma wrap_representable bits z :
  0 < bits -> representable bits z -> wrap bits z = z.
Proof.
  intros Hbits [Hlo Hhi]. unfold wrap.
  assert (E : 2 ^ bits = 2 * 2 ^ (bits - 1)).
  { rewrite <- Z.pow_succ_r by lia. f_equal. lia. }
  rewrite Z.mod_small by lia. lia.
Qed.

Lemma length_bind_const {A B} (f : A -> list B) (k : nat) (l : list A) :
  (forall a, length (f a) = k) -> length (l ≫= f) = (length l * k)%nat.
Proof.
  intros Hf. induction l as [|a l IH]; [reflexivity|].
  rewrite bind_cons, length_app, Hf, IH. simpl. lia.
Qed.

Lemma length_points geom :
  length (points geom)
  = (Z.to_nat (nz geom) * (Z.to_nat (ny geom) * Z.to_nat (nx geom)))%nat.
Proof.
  unfold points.
  rewrite (length_bind_const _ (Z.to_nat (ny geom) * Z.to_nat (nx geom))%nat).
  { rewrite length_seqZ. reflexivity. }
  intros iz. rewrite (length_bind_const _ (Z.to_nat (nx geom))).
  { rewrite length_seqZ. reflexivity. }
  intros iy. rewrite (length_bind_const _ 1%nat); [|reflexivity].
  rewrite length_seqZ. lia.
Qed.

Lemma generate_points_nonzeros_le geom l st :
  localNumberOfNonzeros (fold_left (exact_generate_at geom) l st)
  <= localNumberOfNonzeros st + 27 * Z.of_nat (length l).
Proof.
  induction l as [|q l IH] using rev_ind; [simpl; lia|].
  rewrite fold_left_app, length_app. cbn [fold_left length].
  rewrite generate_at_nonzeros.
  pose proof (row_entries_count_le geom q). lia.
Qed.

(** A process holds at most 27 nonzeros per local row. *)
Lemma local_nonzeros_le geom :
  0 <= nx geom -> 0 <= ny geom -> 0 <= nz geom ->
  exact_local_nonzeros geom <= 27 * (nx geom * ny geom * nz geom).
Proof.
  intros Hx Hy Hz. unfold exact_local_nonzeros. rewrite generate_rows_points.
  pose proof (generate_points_nonzeros_le geom (points geom)
                (allocate (nx geom * ny geom * nz geom))) as H.
  rewrite length_points in H. cbn [allocate localNumberOfNonzeros] in H.
  rewrite !Nat2Z.inj_mul, !Z2Nat.id in H by lia. lia.
Qed.

Lemma MPI_Allreduce_SUM_le hi local others :
  Forall (fun c => c <= hi) others ->
  MPI_Allreduce_SUM local others <= local + hi * Z.of_nat (length others).
Proof.
  unfold MPI_Allreduce_SUM. revert local.
  induction others as [|c others IH]; intros local Hall; simpl length; simpl fold_left;
    [lia|].
  apply Forall_cons in Hall as [Hc Hall]. specialize (IH (local + c) Hall). lia.
Qed.

Lemma representable_mono b b' z :
  b <= b' -> 0 < b -> representable b z -> representable b' z.
Proof.
  unfold representable. intros Hb Hpos [Hlo Hhi].
  assert (2 ^ (b - 1) <= 2 ^ (b' - 1)) by (apply Z.pow_le_mono_r; lia). lia.
Qed.

(** When nothing overflows the machine forms the exact counts, and fails an
    assertion exactly when [exact_GenerateProblem] does. *)
Lemma machine_counts_exact T peers geom :
  32 <= local_bits T -> local_bits T <= global_bits T ->
  counts_without_overflow T peers geom ->
  machine_localNumberOfRows T geom = nx geom * ny geom * nz geom
  /\ machine_totalNumberOfRows T geom = nx geom * ny geom * nz geom * size geom
  /\ machine_totalNumberOfNonzeros T peers geom
     = MPI_Allreduce_SUM (exact_local_nonzeros geom) (map exact_local_nonzeros peers)
  /\ (forall a, machine_assertion T peers geom = Some a <->
                exact_GenerateProblem peers geom = AssertionFailed a).
Proof.
  intros HL HG (Hxy & Hxyz & Htotal & Hlocals & Hsum64 & Hsum).
  assert (E1 : machine_localNumberOfRows T geom = nx geom * ny geom * nz geom).
  { unfold machine_localNumberOfRows.
    rewrite (wrap_representable int_bits (nx geom * ny geom)) by (auto; reflexivity).
    rewrite (wrap_representable int_bits) by (auto; reflexivity).
    apply wrap_representable; [lia|].
    apply (representable_mono int_bits); [exact HL | reflexivity | exact Hxyz]. }
  assert (E2 : machine_totalNumberOfRows T geom
               = nx geom * ny geom * nz geom * size geom).
  { unfold machine_totalNumberOfRows. rewrite E1.
    rewrite Z.max_r by (unfold int_bits; lia).
    rewrite (wrap_representable (local_bits T)) by (auto; lia).
    apply wrap_representable; [lia|].
    apply (representable_mono (local_bits T)); [exact HG | lia | exact Htotal]. }
  assert (E3 : machine_totalNumberOfNonzeros T peers geom
               = MPI_Allreduce_SUM (exact_local_nonzeros geom) (map exact_local_nonzeros peers)).
  { unfold machine_totalNumberOfNonzeros, machine_localNumberOfNonzeros.
    apply Forall_cons in Hlocals as [Hgeom Hpeers].
    rewrite (wrap_representable (local_bits T) (exact_local_nonzeros geom)) by (auto; lia).
    assert (Epeers : map (fun g => wrap (local_bits T) (exact_local_nonzeros g)) peers
                     = map exact_local_nonzeros peers).
    { apply map_ext_in. intros g Hg%list_elem_of_In.
      rewrite Forall_forall in Hpeers.
      apply wrap_representable; [lia | auto]. }
    rewrite Epeers.
    rewrite (wrap_representable long_long_bits) by (auto; reflexivity).
    apply wrap_representable; [lia | exact Hsum]. }
  split_and!; auto.
  intros a. unfold machine_assertion, exact_GenerateProblem. rewrite E1, E2, E3.
  fold (exact_local_nonzeros geom).
  destruct (negb (nx geom * ny geom * nz geom >? 0)); [split; congruence|].
  destruct (negb (nx geom * ny geom * nz geom * size geom >? 0));
    [split; congruence|].
  destruct (negb (MPI_Allreduce_SUM (exact_local_nonzeros geom) (map exact_local_nonzeros peers)
                  >? 0)); split; congruence.
Qed.

Lemma exact_GenerateProblem_totalNumberOfRows peers geom pr :
  exact_GenerateProblem peers geom = Generated pr ->
  totalNumberOfRows pr = nx geom * ny geom * nz geom * size geom.
Proof.
  unfold exact_GenerateProblem.
  destruct (negb _); [discriminate|]. destruct (negb _); [discriminate|].
  destruct (negb _); [discriminate|]. intros [= <-]. reflexivity.
Qed.

Lemma large_run_valid : valid_geometry large_run.
Proof. constructor; simpl; lia. Qed.

(** C6, evaluated where the code departs from it.  A 128x128x128 block on
    each of 1024 processes, [int] local indices and [long long] global
    indices: the geometry is valid and the three derived counts fit the index
    types they are declared with (2^21 local rows, 2^31 rows in all, at most
    27 nonzeros per row); yet the product [localNumberOfRows*geom.size] is
    formed in [local_int_t], where 2^21 * 2^10 wraps to -2^31 before it is
    widened, and the assertion on [totalNumberOfRows] fails: the run of
    [GenerateProblem] ends there, whatever the other ranks would pass to the
    reduction.  Over unbounded integers the same geometry passes the three
    assertions. *)
Theorem total_rows_product_overflows (peers : list Geometry) :
  length peers = 1023%nat ->
  Forall (fun g => nx g = 128 /\ ny g = 128 /\ nz g = 128) peers ->
  valid_geometry large_run
  /\ counts_fit_index_types int_and_long_long peers large_run
  /\ machine_localNumberOfRows int_and_long_long large_run = 2 ^ 21
  /\ machine_totalNumberOfRows int_and_long_long large_run = - 2 ^ 31
  /\ machine_assertion int_and_long_long peers large_run
     = Some totalNumberOfRows_positive
  /\ (forall others, GenerateProblem int_and_long_long others large_run
                     = AssertionFailed totalNumberOfRows_positive)
  /\ exists pr, exact_GenerateProblem peers large_run = Generated pr
       /\ totalNumberOfRows pr = 2 ^ 31.
Proof.
  intros Hlen Hpeers.
  assert (Hlocal : forall g, nx g = 128 /\ ny g = 128 /\ nz g = 128 ->
                   0 <= exact_local_nonzeros g <= 27 * 2 ^ 21).
  { intros g (Hx & Hy & Hz). split; [apply local_nonzeros_nonneg|].
    pose proof (local_nonzeros_le g) as H. rewrite Hx, Hy, Hz in H.
    specialize (H ltac:(lia) ltac:(lia) ltac:(lia)). lia. }
  assert (Hlarge : 0 <= exact_local_nonzeros large_run <= 27 * 2 ^ 21)
    by (apply Hlocal; repeat split).
  assert (Hsum : 0 <= MPI_Allreduce_SUM (exact_local_nonzeros large_run)
                        (map exact_local_nonzeros peers) <= 1024 * (27 * 2 ^ 21)).
  { split.
    - pose proof (MPI_Allreduce_SUM_ge (exact_local_nonzeros large_run)
                    (map exact_local_nonzeros peers) (peers_nonneg peers)). lia.
    - pose proof (MPI_Allreduce_SUM_le (27 * 2 ^ 21) (exact_local_nonzeros large_run)
                    (map exact_local_nonzeros peers)) as H.
      rewrite length_map, Hlen in H.
      assert (Forall (fun c => c <= 27 * 2 ^ 21) (map exact_local_nonzeros peers)).
      { apply Forall_forall. intros c (g & -> & Hg)%list_elem_of_fmap.
        rewrite Forall_forall in Hpeers. apply Hlocal, Hpeers, Hg. }
      specialize (H ltac:(assumption)). lia. }
  split; [exact large_run_valid|]. split_and!.
  - unfold counts_fit_index_types. split_and!.
    + vm_compute. split; [discriminate | reflexivity].
    + vm_compute. split; [discriminate | reflexivity].
    + unfold representable. change (local_bits int_and_long_long) with 32. lia.
    + unfold representable. change (global_bits int_and_long_long) with 64. lia.
  - reflexivity.
  - reflexivity.
  - reflexivity.
  - intros others. reflexivity.
  - destruct (exact_GenerateProblem_generated peers large_run large_run_valid)
      as (pr & Hgen & _).
    exists pr. split; [exact Hgen|].
    rewrite (exact_GenerateProblem_totalNumberOfRows _ _ _ Hgen). reflexivity.
Qed.

Lemma total_rows_product_overflows_witness :
  valid_geometry large_run
  /\ counts_fit_index_types int_and_long_long (replicate 1023 large_run) large_run
  /\ machine_localNumberOfRows int_and_long_long large_run = 2 ^ 21
  /\ machine_totalNumberOfRows int_and_long_long large_run = - 2 ^ 31
  /\ machine_assertion int_and_long_long (replicate 1023 large_run) large_run
     = Some totalNumberOfRows_positive
  /\ (forall others, GenerateProblem int_and_long_long others large_run
                     = AssertionFailed totalNumberOfRows_positive)
  /\ exists pr, exact_GenerateProblem (replicate 1023 large_run) large_run = Generated pr
       /\ totalNumberOfRows pr = 2 ^ 31.
Proof.
  apply (total_rows_product_overflows (replicate 1023 large_run)).
  - apply length_replicate.
  - apply Forall_replicate. simpl. auto.
Defined.

(** * Further properties of the two routines *)

(** ** The number of nonzeros of a row, in closed form *)

Lemma axis_neighbours_count gi gn :
  0 <= gi < gn -> axis_count gi gn = axis_neighbours gi gn.
Proof. intros H. unfold axis_neighbours. apply axis_count_cases, H. Qed.

Lemma axis_neighbours_range gi gn : 1 <= axis_neighbours gi gn <= 3.
Proof. unfold axis_neighbours. repeat case_decide; lia. Qed.

Lemma axis_neighbours_3 gi gn : axis_neighbours gi gn = 3 <-> 0 < gi < gn - 1.
Proof. unfold axis_neighbours. repeat case_decide; lia. Qed.

Lemma product_27 a b c :
  1 <= a <= 3 -> 1 <= b <= 3 -> 1 <= c <= 3 ->
  a * b * c = 27 <-> a = 3 /\ b = 3 /\ c = 3.
Proof.
  intros Ha Hb Hc.
  assert (a = 1 \/ a = 2 \/ a = 3) as Ea by lia.
  assert (b = 1 \/ b = 2 \/ b = 3) as Eb by lia.
  assert (c = 1 \/ c = 2 \/ c = 3) as Ec by lia.
  destruct Ea as [Ea|[Ea|Ea]], Eb as [Eb|[Eb|Eb]], Ec as [Ec|[Ec|Ec]];
    subst a b c; lia.
Qed.

(** ** ComputeResidual: sign of the value written, and when it is 0.0 *)

Section ResidualValue.
Variables v1 v2 : list double.

Lemma diff_at_fabs i d : diff_at v1 v2 i = Some d -> fabs d = d.
Proof.
  unfold diff_at. destruct (read v1 i), (read v2 i); try discriminate.
  intros [= <-]. apply fabs_idem.
Qed.

Lemma visited_diffs_fabs (l : list Z) d : d ∈ omap (diff_at v1 v2) l -> fabs d = d.
Proof. intros (i & _ & Hd)%list_elem_of_omap. eapply diff_at_fabs, Hd. Qed.

(** The threads of a team, merged in the critical section, hold a running
    maximum of everything the team has visited. *)
Lemma thread_residuals_max schedule ts :
  thread_residuals v1 v2 schedule = Some ts ->
  running_max zero (omap (diff_at v1 v2) (mjoin schedule))
    (fold_left merge_thread ts zero).
Proof.
  intros Hts%mapM_Some_1.
  pose proof (fold_merge_thread_max ts zero) as (H0 & Hall & Hr).
  assert (Hthread : forall k chunk t, schedule !! k = Some chunk -> ts !! k = Some t ->
            running_max zero (omap (diff_at v1 v2) chunk) t).
  { intros k chunk t Hc Ht.
    destruct (Forall2_lookup_l _ _ _ _ _ Hts Hc) as (t' & Ht' & Hl).
    rewrite Ht in Ht'. injection Ht' as <-. apply residual_loop_max, Hl. }
  split; [exact H0 | split].
  - intros d (i & Hi & Hd)%list_elem_of_omap.
    apply list_elem_of_join in Hi as (chunk & Hic & Hc).
    destruct (list_elem_of_lookup_1 _ _ Hc) as (k & Hk).
    destruct (Forall2_lookup_l _ _ _ _ _ Hts Hk) as (t & Ht & _).
    destruct (Hthread k chunk t Hk Ht) as (_ & Htall & Htr).
    assert (Hdt : gt d t = false).
    { apply Htall, list_elem_of_omap. eauto. }
    assert (Htn : is_nan t = false) by (destruct Htr as [-> | []]; auto).
    destruct (gt d (fold_left merge_thread ts zero)) eqn:E; [|reflexivity].
    destruct (gt_cotrans _ t _ E Htn) as [E' | E']; [congruence|].
    rewrite (Hall t) in E'; [discriminate|]. eapply list_elem_of_lookup_2, Ht.
  - destruct Hr as [-> | [Hin Hnan]]; [left; reflexivity|].
    destruct (list_elem_of_lookup_1 _ _ Hin) as (k & Hk).
    destruct (Forall2_lookup_r _ _ _ _ _ Hts Hk) as (chunk & Hc & _).
    destruct (Hthread k chunk _ Hc Hk) as (_ & _ & [-> | [Hd _]]);
      [left; reflexivity | right].
    split; [|exact Hnan].
    apply list_elem_of_omap in Hd as (i & Hi & Hd).
    apply list_elem_of_omap. exists i. split; [|exact Hd].
    apply list_elem_of_join. exists chunk. split; [exact Hi|].
    eapply list_elem_of_lookup_2, Hc.
Qed.

(** A running maximum from 0.0 of absolute values is 0.0 exactly when every
    value is 0.0 or a NaN. *)
Lemma running_max_zero ds r :
  (forall d, d ∈ ds -> fabs d = d) ->
  running_max zero ds r ->
  is_nan r = false /\ fabs r = r
  /\ (r = zero <-> forall d, d ∈ ds -> d = zero \/ is_nan d = true).
Proof.
  intros Hfix Hmax.
  pose proof (running_max_not_nan zero ds r eq_refl Hmax) as Hnan.
  destruct Hmax as (H0 & Hall & Hr).
  split; [exact Hnan|]. split.
  { destruct Hr as [-> | [Hin _]]; [reflexivity | auto]. }
  split.
  - intros -> d Hd. destruct (is_nan d) eqn:E; [right; reflexivity | left].
    rewrite <- (Hfix d Hd). apply fabs_not_gt_zero; rewrite (Hfix d Hd); auto.
  - intros Hzero. destruct Hr as [-> | [Hin Hn]]; [reflexivity|].
    destruct (Hzero r Hin) as [-> | E]; [reflexivity | congruence].
Qed.
End ResidualValue.

(** X3: for every [n] and every pair of vectors that hold at least [n]
    entries, the value ComputeResidual writes is never a NaN and never
    negative, not even -0.0, whatever the entries are; it is 0.0 exactly
    when each of the [n] differences is 0.0 or a NaN, in particular when
    [n <= 0]; and the threaded build writes the same value under every
    schedule of the iterations. *)
Theorem residual_sign_and_zero (n : Z) (v1 v2 : list double) :
  (Z.to_nat n <= length v1)%nat -> (Z.to_nat n <= length v2)%nat ->
  exists r, ComputeResidual n v1 v2 = Some (0, r)
    /\ is_nan r = false
    /\ fabs r = r
    /\ (r = zero <->
        forall i d, 0 <= i < n -> diff_at v1 v2 i = Some d ->
                    d = zero \/ is_nan d = true)
    /\ (n <= 0 -> r = zero)
    /\ forall schedule, schedule_of n schedule ->
         ComputeResidual_omp schedule v1 v2 = Some (0, r).
Proof.
  intros Hv1 Hv2.
  assert (Hread : forall i, 0 <= i < n -> is_Some (diff_at v1 v2 i)).
  { intros i Hi. unfold diff_at, read.
    destruct (Z.leb_spec 0 i); [|lia].
    destruct (lookup_lt_is_Some_2 v1 (Z.to_nat i)) as [a ->]; [lia|].
    destruct (lookup_lt_is_Some_2 v2 (Z.to_nat i)) as [c ->]; [lia|].
    eauto. }
  destruct (residual_loop_total v1 v2 (seqZ 0 n) zero) as [r Hr].
  { intros i Hi%elem_of_seqZ. apply Hread. lia. }
  pose proof (residual_loop_max v1 v2 _ _ _ Hr) as Hmax.
  destruct (running_max_zero _ r (visited_diffs_fabs v1 v2 (seqZ 0 n)) Hmax)
    as (Hnan & Hfix & Hzero).
  assert (Hiff : r = zero <->
            forall i d, 0 <= i < n -> diff_at v1 v2 i = Some d ->
                        d = zero \/ is_nan d = true).
  { rewrite Hzero. split.
    - intros H i d Hi Hd. apply H, list_elem_of_omap. exists i.
      split; [apply elem_of_seqZ; lia | exact Hd].
    - intros H d (i & Hi%elem_of_seqZ & Hd)%list_elem_of_omap.
      apply (H i); [lia | exact Hd]. }
  exists r. split_and!; auto.
  - unfold ComputeResidual. rewrite Hr. reflexivity.
  - intros Hn. apply Hiff. intros i d Hi. lia.
  - intros schedule Hs.
    destruct (mapM_is_Some_2 (fun chunk => residual_loop v1 v2 chunk zero) schedule)
      as [ts Hts].
    { apply Forall_forall. intros chunk Hc. apply residual_loop_total.
      intros i Hi. apply Hread.
      assert (i ∈ seqZ 0 n) as Hs'%elem_of_seqZ; [|lia].
      rewrite <- Hs. apply list_elem_of_join. eauto. }
    unfold ComputeResidual_omp. fold (thread_residuals v1 v2 schedule) in Hts.
    rewrite Hts. cbn [MPI_Allreduce_MAX fold_left]. do 2 f_equal.
    apply (running_max_unique (omap (diff_at v1 v2) (seqZ 0 n)));
      [apply visited_diffs_fabs | | exact Hmax].
    eapply running_max_ext; [|apply thread_residuals_max, Hts].
    intros d. rewrite !list_elem_of_omap.
    split; intros (i & Hi & Hd); exists i; (split; [|exact Hd]).
    + rewrite <- Hs. exact Hi.
    + rewrite Hs. exact Hi.
Qed.

Lemma residual_sign_and_zero_witness :
  exists r, ComputeResidual 2 [of_Z 4; nan; of_Z 7] [infinity; of_Z 1] = Some (0, r)
    /\ is_nan r = false
    /\ fabs r = r
    /\ (r = zero <->
        forall i d, 0 <= i < 2 ->
          diff_at [of_Z 4; nan; of_Z 7] [infinity; of_Z 1] i = Some d ->
          d = zero \/ is_nan d = true)
    /\ (2 <= 0 -> r = zero)
    /\ forall schedule, schedule_of 2 schedule ->
         ComputeResidual_omp schedule [of_Z 4; nan; of_Z 7] [infinity; of_Z 1]
         = Some (0, r).
Proof.
  apply (residual_sign_and_zero 2); simpl; lia.
Defined.

(** ** ComputeResidual: the order of the two vectors *)

Lemma fabs_binary_round sx m e :
  fabs (binary_round prec emax sx m e) = fabs (binary_round prec emax false m e).
Proof.
  unfold binary_round.
  destruct (shl_align m e (fexp prec emax (Z.pos (digits2_pos m) + e))) as [mz ez].
  unfold binary_round_aux.
  destruct (shr_fexp prec emax (Z.pos mz) ez loc_Exact) as [mrs' e'].
  destruct (shr_fexp prec emax
              (round_nearest_even (shr_m mrs') (loc_of_shr_record mrs')) e' loc_Exact)
    as [mrs'' e''].
  destruct (shr_m mrs''); [reflexivity | | reflexivity].
  destruct (e'' <=? emax - prec); reflexivity.
Qed.

Lemma fabs_binary_normalize_opp m e :
  fabs (binary_normalize prec emax (- m) e false)
  = fabs (binary_normalize prec emax m e false).
Proof.
  destruct m as [|m|m]; [reflexivity | |]; cbn [Z.opp binary_normalize].
  - apply fabs_binary_round.
  - symmetry. apply fabs_binary_round.
Qed.

(** [|a - b|] and [|b - a|] are the same double. *)
Lemma fabs_sub_comm a b : fabs (sub a b) = fabs (sub b a).
Proof.
  destruct a as [sa|sa| |sa ma ea], b as [sb|sb| |sb mb eb];
    try (destruct sa, sb; reflexivity); try (destruct sa; reflexivity);
    try (destruct sb; reflexivity); try reflexivity.
  unfold sub, SFsub. rewrite (Z.min_comm eb ea).
  rewrite <- fabs_binary_normalize_opp. do 2 f_equal. lia.
Qed.

Lemma diff_at_comm v1 v2 i : diff_at v1 v2 i = diff_at v2 v1 i.
Proof.
  unfold diff_at. destruct (read v1 i), (read v2 i); try reflexivity.
  f_equal. apply fabs_sub_comm.
Qed.

Lemma residual_step_comm v1 v2 acc i :
  residual_step v1 v2 acc i = residual_step v2 v1 acc i.
Proof.
  unfold residual_step. destruct acc, (read v1 i), (read v2 i); try reflexivity.
  rewrite fabs_sub_comm. reflexivity.
Qed.

Lemma residual_loop_comm v1 v2 l res :
  residual_loop v1 v2 l res = residual_loop v2 v1 l res.
Proof.
  unfold residual_loop. apply fold_left_pointwise. intros. apply residual_step_comm.
Qed.

(** X4: ComputeResidual does not depend on the order of its two vectors:
    for all arguments, in range or not, exchanging [v1] and [v2] gives the
    same outcome and the same value, bit for bit, in the build without
    threads and, for every distribution of the iterations among the threads,
    in the threaded build. *)
Theorem residual_symmetric (n : Z) (v1 v2 : list double) :
  ComputeResidual n v1 v2 = ComputeResidual n v2 v1
  /\ forall schedule,
       ComputeResidual_omp schedule v1 v2 = ComputeResidual_omp schedule v2 v1.
Proof.
  split.
  - unfold ComputeResidual. rewrite residual_loop_comm. reflexivity.
  - intros schedule. unfold ComputeResidual_omp, thread_residuals.
    replace (mapM (fun chunk => residual_loop v1 v2 chunk zero) schedule)
      with (mapM (fun chunk => residual_loop v2 v1 chunk zero) schedule);
      [reflexivity|].
    induction schedule as [|chunk schedule IH]; [reflexivity|].
    cbn [mapM]. rewrite IH, residual_loop_comm. reflexivity.
Qed.

(** ** ComputeResidual on several processes *)

Lemma abs_diffs_app l1 l2 k1 k2 :
  length l1 = length l2 ->
  abs_diffs (l1 ++ k1) (l2 ++ k2) = abs_diffs l1 l2 ++ abs_diffs k1 k2.
Proof. intros H. unfold abs_diffs. apply zip_with_app, H. Qed.

Lemma all_v1_cons a ranks : all_v1 (a :: ranks) = a.2.1 ++ all_v1 ranks.
Proof. reflexivity. Qed.

Lemma all_v2_cons a ranks : all_v2 (a :: ranks) = a.2.2 ++ all_v2 ranks.
Proof. reflexivity. Qed.

Lemma length_all_vectors ranks :
  Forall (fun a : rank_vectors => length a.2.1 = length a.2.2) ranks ->
  length (all_v1 ranks) = length (all_v2 ranks).
Proof.
  induction 1 as [|a ranks Ha _ IH]; [reflexivity|].
  rewrite all_v1_cons, all_v2_cons, !length_app, Ha, IH. reflexivity.
Qed.

(** The differences of the concatenated vectors are those of the ranks. *)
Lemma elem_of_all_diffs ranks d :
  Forall (fun a : rank_vectors => length a.2.1 = length a.2.2) ranks ->
  d ∈ abs_diffs (all_v1 ranks) (all_v2 ranks)
  <-> exists a, a ∈ ranks /\ d ∈ abs_diffs a.2.1 a.2.2.
Proof.
  induction 1 as [|a ranks Ha _ IH].
  - split; [intros H; inversion H | intros (a & Ha & _); inversion Ha].
  - rewrite all_v1_cons, all_v2_cons, (abs_diffs_app _ _ _ _ Ha), elem_of_app, IH.
    split.
    + intros [Hd | (a' & Ha' & Hd)].
      * exists a. split; [apply list_elem_of_here | exact Hd].
      * exists a'. split; [apply list_elem_of_further, Ha' | exact Hd].
    + intros (a' & [-> | Ha']%elem_of_cons & Hd); [left; exact Hd | right; eauto].
Qed.

(** What the reduction leaves on one rank is a running maximum of the
    differences of all ranks. *)
Lemma reduction_max (ranks : list rank_vectors) locals me lm (ds : list double) :
  Forall2 (fun a t => running_max zero (abs_diffs a.2.1 a.2.2) t) ranks locals ->
  (forall d, d ∈ ds <-> exists a, a ∈ ranks /\ d ∈ abs_diffs a.2.1 a.2.2) ->
  locals !! me = Some lm ->
  running_max zero ds (MPI_Allreduce_MAX lm (delete me locals))
  /\ forall t, t ∈ locals -> gt t (MPI_Allreduce_MAX lm (delete me locals)) = false.
Proof.
  intros Hlocals Hds Hme. unfold MPI_Allreduce_MAX.
  pose proof (fold_merge_thread_max (delete me locals) lm) as (H0 & Hall & Hr).
  set (R := fold_left merge_thread (delete me locals) lm) in *.
  assert (Hlocal : forall t, t ∈ locals -> exists a, a ∈ ranks
            /\ running_max zero (abs_diffs a.2.1 a.2.2) t).
  { intros t (k & Hk)%list_elem_of_lookup_1.
    destruct (Forall2_lookup_r _ _ _ _ _ Hlocals Hk) as (a & Ha & Hmax).
    exists a. split; [eapply list_elem_of_lookup_2, Ha | exact Hmax]. }
  assert (HA : forall t, t ∈ locals -> gt t R = false).
  { intros t (k & Hk)%list_elem_of_lookup_1.
    destruct (decide (k = me)) as [-> | Hne].
    - rewrite Hme in Hk. injection Hk as <-. exact H0.
    - apply Hall. destruct (decide (k < me)%nat).
      + apply (list_elem_of_lookup_2 _ k). rewrite list_lookup_delete_lt by lia. exact Hk.
      + apply (list_elem_of_lookup_2 _ (pred k)).
        rewrite list_lookup_delete_ge by lia.
        replace (S (pred k)) with k by lia. exact Hk. }
  assert (HB : R ∈ locals).
  { destruct Hr as [-> | [Hin _]].
    - eapply list_elem_of_lookup_2, Hme.
    - eapply list_elem_of_delete_inv, Hin. }
  split; [|exact HA].
  destruct (Hlocal R HB) as (aR & HaR & HR0 & _ & HRr).
  split; [exact HR0 | split].
  - intros d (a & Ha & Hd)%Hds.
    destruct (list_elem_of_lookup_1 _ _ Ha) as (k & Hk).
    destruct (Forall2_lookup_l _ _ _ _ _ Hlocals Hk) as (t & Ht & Hmax).
    pose proof (running_max_not_nan zero _ _ eq_refl Hmax) as Htn.
    destruct Hmax as (_ & Htall & _).
    destruct (gt d R) eqn:E; [|reflexivity].
    destruct (gt_cotrans _ t _ E Htn) as [E' | E'].
    + rewrite (Htall d Hd) in E'. discriminate.
    + rewrite (HA t) in E'; [discriminate|]. eapply list_elem_of_lookup_2, Ht.
  - destruct HRr as [-> | [Hin Hn]]; [left; reflexivity | right].
    split; [|exact Hn]. apply Hds. eauto.
Qed.

(** X5: in a run on several processes, where every rank passes vectors of
    its own length, ComputeResidual writes the same value on every rank;
    this value is the one a single process writes for the vectors of all
    ranks put one after the other, and no rank's local residual is above
    it. *)
Theorem residual_across_ranks (ranks : list rank_vectors) :
  Forall (fun a : rank_vectors =>
            0 <= a.1 /\ length a.2.1 = Z.to_nat a.1 /\ length a.2.2 = Z.to_nat a.1)
         ranks ->
  exists r,
    (forall me, (me < length ranks)%nat ->
       ComputeResidual_on_rank ranks me = Some (0, r))
    /\ ComputeResidual (Z.of_nat (length (all_v1 ranks))) (all_v1 ranks) (all_v2 ranks)
       = Some (0, r)
    /\ running_max zero (abs_diffs (all_v1 ranks) (all_v2 ranks)) r
    /\ (forall a lr, a ∈ ranks -> rank_residual a = Some lr -> gt lr r = false).
Proof.
  intros Hranks.
  assert (Hlen : Forall (fun a : rank_vectors => length a.2.1 = length a.2.2) ranks).
  { eapply Forall_impl; [exact Hranks|]. intros a (_ & -> & ->). reflexivity. }
  assert (Hrank : forall a, a ∈ ranks ->
            exists t, rank_residual a = Some t
                      /\ running_max zero (abs_diffs a.2.1 a.2.2) t).
  { intros a Ha. rewrite Forall_forall in Hranks.
    destruct (Hranks a Ha) as (Hn & H1 & H2).
    apply (serial_loop_max a.2.1 a.2.2 a.1); assumption. }
  destruct (mapM_is_Some_2 rank_residual ranks) as [locals Hlocals].
  { apply Forall_forall. intros a Ha. destruct (Hrank a Ha) as (t & Ht & _).
    exists t. exact Ht. }
  assert (Hmax : Forall2 (fun a t => running_max zero (abs_diffs a.2.1 a.2.2) t)
                   ranks locals).
  { apply mapM_Some_1 in Hlocals. apply Forall2_same_length_lookup.
    split; [eapply Forall2_length, Hlocals|].
    intros k a t Ha Ht.
    destruct (Forall2_lookup_l _ _ _ _ _ Hlocals Ha) as (t' & Ht' & Hat).
    destruct (Hrank a) as (t'' & Ht'' & Hm); [eapply list_elem_of_lookup_2, Ha|].
    congruence. }
  destruct (serial_loop_max (all_v1 ranks) (all_v2 ranks)
              (Z.of_nat (length (all_v1 ranks)))) as (r & Hloop & Hr).
  { rewrite Nat2Z.id. reflexivity. }
  { rewrite Nat2Z.id. symmetry. apply length_all_vectors, Hlen. }
  assert (Hreduce : forall me lm, locals !! me = Some lm ->
            MPI_Allreduce_MAX lm (delete me locals) = r
            /\ forall t, t ∈ locals -> gt t r = false).
  { intros me lm Hme.
    destruct (reduction_max ranks locals me lm (abs_diffs (all_v1 ranks) (all_v2 ranks))
                Hmax (fun d => elem_of_all_diffs ranks d Hlen) Hme) as [HR HA].
    assert (E : MPI_Allreduce_MAX lm (delete me locals) = r).
    { apply (running_max_unique (abs_diffs (all_v1 ranks) (all_v2 ranks)));
        [apply abs_diffs_fabs | exact HR | exact Hr]. }
    rewrite <- E. auto. }
  exists r. split_and!.
  - intros me Hme. unfold ComputeResidual_on_rank. rewrite Hlocals.
    destruct (lookup_lt_is_Some_2 locals me) as [lm Hlm].
    { apply mapM_Some_1, Forall2_length in Hlocals. lia. }
    rewrite Hlm. destruct (Hreduce me lm Hlm) as [-> _]. reflexivity.
  - unfold ComputeResidual. rewrite Hloop. reflexivity.
  - exact Hr.
  - intros a lr (k & Hk)%list_elem_of_lookup_1 Hlr.
    apply mapM_Some_1 in Hlocals.
    destruct (Forall2_lookup_l _ _ _ _ _ Hlocals Hk) as (t & Ht & Hat).
    assert (t = lr) as -> by congruence.
    destruct (Hreduce k lr Ht) as [_ HA]. apply HA.
    eapply list_elem_of_lookup_2, Ht.
Qed.

(** Two ranks: [1,5] against [1,2] on one, [2] against [2] on the other. *)
Lemma residual_across_ranks_witness :
  exists r,
    (forall me, (me < length [(2, ([of_Z 1; of_Z 5], [of_Z 1; of_Z 2]));
                              (1, ([of_Z 2], [of_Z 2]))])%nat ->
       ComputeResidual_on_rank [(2, ([of_Z 1; of_Z 5], [of_Z 1; of_Z 2]));
                                (1, ([of_Z 2], [of_Z 2]))] me = Some (0, r))
    /\ ComputeResidual
         (Z.of_nat (length (all_v1 [(2, ([of_Z 1; of_Z 5], [of_Z 1; of_Z 2]));
                                    (1, ([of_Z 2], [of_Z 2]))])))
         (all_v1 [(2, ([of_Z 1; of_Z 5], [of_Z 1; of_Z 2])); (1, ([of_Z 2], [of_Z 2]))])
         (all_v2 [(2, ([of_Z 1; of_Z 5], [of_Z 1; of_Z 2])); (1, ([of_Z 2], [of_Z 2]))])
       = Some (0, r)
    /\ running_max zero
         (abs_diffs
            (all_v1 [(2, ([of_Z 1; of_Z 5], [of_Z 1; of_Z 2])); (1, ([of_Z 2], [of_Z 2]))])
            (all_v2 [(2, ([of_Z 1; of_Z 5], [of_Z 1; of_Z 2])); (1, ([of_Z 2], [of_Z 2]))]))
         r
    /\ (forall a lr,
          a ∈ [(2, ([of_Z 1; of_Z 5], [of_Z 1; of_Z 2])); (1, ([of_Z 2], [of_Z 2]))] ->
          rank_residual a = Some lr -> gt lr r = false).
Proof.
  apply (residual_across_ranks
           [(2, ([of_Z 1; of_Z 5], [of_Z 1; of_Z 2])); (1, ([of_Z 2], [of_Z 2]))]).
  constructor; [cbn beta; split; [cbn [fst]; lia | split; reflexivity] |].
  constructor; [cbn beta; split; [cbn [fst]; lia | split; reflexivity] |].
  constructor.
Defined.

(** ** ComputeResidual: the entries it reads *)

Lemma read_take v n i : i < n -> read (take (Z.to_nat n) v) i = read v i.
Proof.
  intros Hi. unfold read. destruct (Z.leb_spec 0 i); [|reflexivity].
  apply lookup_take_lt. lia.
Qed.

Lemma residual_loop_take v1 v2 n l res :
  (forall i, i ∈ l -> i < n) ->
  residual_loop (take (Z.to_nat n) v1) (take (Z.to_nat n) v2) l res
  = residual_loop v1 v2 l res.
Proof.
  induction l as [|i l IH] using rev_ind; intros Hl; [reflexivity|].
  rewrite !residual_loop_snoc, IH by (intros; apply Hl; set_solver).
  unfold residual_step. rewrite !read_take by (apply Hl; set_solver). reflexivity.
Qed.

(** A loop that returns has read both vectors at every index it visits. *)
Lemma residual_loop_reads v1 v2 l res r :
  residual_loop v1 v2 l res = Some r ->
  forall i, i ∈ l -> is_Some (diff_at v1 v2 i).
Proof.
  revert r. induction l as [|j l IH] using rev_ind; intros r Hr i Hi.
  - inversion Hi.
  - rewrite residual_loop_snoc in Hr.
    apply residual_step_inv in Hr as (res' & d & Hl & Hd & _).
    apply elem_of_app in Hi as [Hi | ->%list_elem_of_singleton]; eauto.
Qed.

(** X6: ComputeResidual reads the entries [0..n-1] of both vectors, all of
    them and no other: later entries have no influence on the outcome, and
    the routine returns exactly when both vectors hold at least [n]
    entries. *)
Theorem residual_reads_first_n (n : Z) (v1 v2 : list double) :
  ComputeResidual n v1 v2
  = ComputeResidual n (take (Z.to_nat n) v1) (take (Z.to_nat n) v2)
  /\ (is_Some (ComputeResidual n v1 v2)
      <-> (Z.to_nat n <= length v1)%nat /\ (Z.to_nat n <= length v2)%nat).
Proof.
  split.
  - unfold ComputeResidual. rewrite residual_loop_take; [reflexivity|].
    intros i Hi%elem_of_seqZ. lia.
  - unfold ComputeResidual. split.
    + destruct (residual_loop v1 v2 (seqZ 0 n) zero) as [r|] eqn:Hr;
        [intros _ | intros [? [=]]].
      destruct (Z.le_gt_cases n 0) as [Hn | Hn]; [lia|].
      destruct (residual_loop_reads v1 v2 _ _ _ Hr (n - 1)) as [d Hd].
      { apply elem_of_seqZ. lia. }
      unfold diff_at in Hd.
      destruct (read v1 (n - 1)) as [a|] eqn:Ea; [|discriminate].
      destruct (read v2 (n - 1)) as [c|] eqn:Ec; [|discriminate].
      apply read_Some in Ea as [_ Ea%lookup_lt_Some].
      apply read_Some in Ec as [_ Ec%lookup_lt_Some]. lia.
    + intros [Hv1 Hv2].
      destruct (residual_loop_total v1 v2 (seqZ 0 n) zero) as [r ->]; [|eauto].
      intros i Hi%elem_of_seqZ. unfold diff_at, read.
      destruct (Z.leb_spec 0 i); [|lia].
      destruct (lookup_lt_is_Some_2 v1 (Z.to_nat i)) as [a ->]; [lia|].
      destruct (lookup_lt_is_Some_2 v2 (Z.to_nat i)) as [c ->]; [lia|].
      eauto.
Qed.

(** ** The numbering of the local rows *)

Lemma row_order_is_loop_order geom p q :
  local_point geom p -> local_point geom q ->
  exact_local_row geom p.1.1 p.1.2 p.2 < exact_local_row geom q.1.1 q.1.2 q.2 ->
  p.1.1 < q.1.1 \/ (p.1.1 = q.1.1 /\ (p.1.2 < q.1.2 \/ (p.1.2 = q.1.2 /\ p.2 < q.2))).
Proof.
  intros Hp Hq Hlt.
  destruct p as [[pz py] px], q as [[qz qy] qx]. cbn [fst snd] in *.
  destruct Hp as (Hpz & Hpy & Hpx), Hq as (Hqz & Hqy & Hqx). cbn [fst snd] in *.
  assert (Hcases :
    (pz < qz \/ (pz = qz /\ (py < qy \/ (py = qy /\ px < qx))))
    \/ (pz = qz /\ py = qy /\ px = qx)
    \/ (qz < pz \/ (qz = pz /\ (qy < py \/ (qy = py /\ qx < px))))) by lia.
  destruct Hcases as [H | [(-> & -> & ->) | H]]; [exact H | lia |].
  pose proof (lin3_lt (nx geom) (ny geom) qx qy qz px py pz Hqx Hpx Hqy Hpy H) as Hgt.
  unfold exact_local_row in Hlt. lia.
Qed.

(** ** What the generation leaves unset *)

Lemma store_beyond row gnx gny cs r j :
  (currentValuePointer r + length cs <= j)%nat ->
  (currentIndexPointerG r + length cs <= j)%nat ->
  values (fold_left (exact_store_at row gnx gny) cs r) !! j = values r !! j
  /\ indices (fold_left (exact_store_at row gnx gny) cs r) !! j = indices r !! j.
Proof.
  induction cs as [|o cs IH] using rev_ind; intros Hv Hi; [split; reflexivity|].
  rewrite length_app in Hv, Hi. cbn [length] in Hv, Hi.
  rewrite fold_left_app. cbn [fold_left].
  destruct (filled_fields row gnx gny cs r) as (_ & Hvp & Hip & _).
  unfold exact_store_at at 1 3, exact_store_entry. cbn [values indices].
  rewrite Hvp, Hip, !list_lookup_insert_ne by lia.
  apply IH; lia.
Qed.

Lemma generate_points_mtxIndL geom l st :
  mtxIndL (fold_left (exact_generate_at geom) l st) = mtxIndL st.
Proof.
  induction l as [|q l IH] using rev_ind; [reflexivity|].
  rewrite fold_left_app. cbn [fold_left]. exact IH.
Qed.

Lemma generate_points_unwritten geom l st :
  (forall q, q ∈ l -> local_point geom q) ->
  (forall p, local_point geom p -> unwritten geom st p) ->
  forall p, local_point geom p ->
    unwritten geom (fold_left (exact_generate_at geom) l st) p.
Proof.
  intros Hl Hst. induction l as [|q l IH] using rev_ind; [exact Hst|].
  rewrite fold_left_app. cbn [fold_left].
  assert (Hq : local_point geom q).
  { apply Hl, elem_of_app. right. apply list_elem_of_singleton. reflexivity. }
  assert (IH' : forall p, local_point geom p ->
            unwritten geom (fold_left (exact_generate_at geom) l st) p).
  { apply IH. intros q' Hq'. apply Hl, elem_of_app. left. exact Hq'. }
  clear IH. set (st' := fold_left (exact_generate_at geom) l st) in *.
  intros p Hp j Hj.
  destruct (IH' p Hp j Hj) as [IHv IHj].
  unfold exact_generate_at, exact_generate_row. cbn [matrixValues mtxIndG].
  rewrite !stencil_loops_candidates. fold (row_entries geom q).
  destruct (decide (q = p)) as [-> | Hne].
  - set (i := Z.to_nat (exact_local_row geom p.1.1 p.1.2 p.2)) in *.
    destruct (store_beyond (exact_global_row geom p.1.1 p.1.2 p.2) (exact_gnx geom) (exact_gny geom)
                (row_entries geom p) (open_row st' (exact_local_row geom p.1.1 p.1.2 p.2)) j)
      as [Ev Ej]; [cbn [open_row currentValuePointer]; lia
                  |cbn [open_row currentIndexPointerG]; lia|].
    split.
    + intros vs [(_ & <- & Hlt) | (Hne & _)]%list_lookup_insert_Some; [|congruence].
      rewrite Ev. cbn [open_row values]. fold i.
      destruct (lookup_lt_is_Some_2 _ _ Hlt) as [vs0 Hvs0].
      rewrite Hvs0. cbn [default]. apply IHv, Hvs0.
    + intros js [(_ & <- & Hlt) | (Hne & _)]%list_lookup_insert_Some; [|congruence].
      rewrite Ej. cbn [open_row indices]. fold i.
      destruct (lookup_lt_is_Some_2 _ _ Hlt) as [js0 Hjs0].
      rewrite Hjs0. cbn [default]. apply IHj, Hjs0.
  - assert (Hi : Z.to_nat (exact_local_row geom q.1.1 q.1.2 q.2)
                 <> Z.to_nat (exact_local_row geom p.1.1 p.1.2 p.2)).
    { intros E. apply Hne, (local_row_inj geom); auto.
      pose proof (local_row_range geom p Hp). pose proof (local_row_range geom q Hq).
      lia. }
    rewrite !list_lookup_insert_ne by exact Hi. split; assumption.
Qed.

Lemma allocate_unwritten geom p :
  local_point geom p -> unwritten geom (allocate (nx geom * ny geom * nz geom)) p.
Proof.
  intros Hp j Hj. unfold allocate. cbn [matrixValues mtxIndG].
  split; intros l Hl; apply lookup_replicate in Hl as [-> _];
    apply lookup_replicate_2; lia.
Qed.

(** ** The right-hand side is the matrix applied to the exact solution *)

(** The partial sums of a row are small integers, added without rounding. *)
Lemma partial_sum_exact a :
  -26 <= a <= 27 ->
  add (of_Z a) (mul (of_Z (-1)) (of_Z 1)) = of_Z (a - 1)
  /\ add (of_Z a) (mul (of_Z 27) (of_Z 1)) = of_Z (a + 27).
Proof.
  intros Ha. replace a with ((a + 26) - 26) by lia.
  apply (Z_range_cases
    (fun c => add (of_Z (c - 26)) (mul (of_Z (-1)) (of_Z 1)) = of_Z (c - 26 - 1)
              /\ add (of_Z (c - 26)) (mul (of_Z 27) (of_Z 1)) = of_Z (c - 26 + 27))
    54); [|lia].
  intros k Hk.
  do 54 (destruct k as [|k]; [vm_compute; split; reflexivity|]). lia.
Qed.

Lemma row_partial_sums (vs : list (option double)) (count : Z) (d : nat) :
  Z.of_nat d < count <= 27 ->
  (forall j, Z.of_nat j < count ->
     vs !! j = Some (Some (if decide (j = d) then of_Z 27 else of_Z (-1)))) ->
  forall k, Z.of_nat k <= count ->
    row_times_constant (of_Z 1) (Z.of_nat k) vs
    = Some (of_Z (if decide (d < k)%nat then 27 - (Z.of_nat k - 1) else - Z.of_nat k)).
Proof.
  intros Hd Hvs. unfold row_times_constant.
  induction k as [|k IH]; intros Hk; [reflexivity|].
  rewrite Nat2Z.id in *.
  rewrite (take_S_r _ _ _ (Hvs k ltac:(lia))), fold_left_app, IH by lia.
  cbn [fold_left].
  destruct (decide (k = d)) as [-> | Hne].
  - rewrite decide_False by lia. rewrite decide_True by lia.
    destruct (partial_sum_exact (- Z.of_nat d)) as [_ ->]; [lia|].
    do 2 f_equal. lia.
  - destruct (decide (d < k)%nat).
    + rewrite decide_True by lia.
      destruct (partial_sum_exact (27 - (Z.of_nat k - 1))) as [-> _]; [lia|].
      do 2 f_equal. lia.
    + rewrite decide_False by lia.
      destruct (partial_sum_exact (- Z.of_nat k)) as [-> _]; [lia|].
      do 2 f_equal. lia.
Qed.

(** ** The number of nonzeros of a process *)

Lemma sum_counts_from (cells : list (option Z)) (a : Z) :
  fold_left (fun acc cell => acc + default 0 cell) cells a = a + sum_counts cells.
Proof.
  unfold sum_counts. revert a.
  induction cells as [|c cells IH]; intros a; cbn [fold_left]; [lia|].
  rewrite (IH (a + default 0 c)), (IH (0 + default 0 c)). lia.
Qed.

Lemma sum_counts_cons c cells : sum_counts (c :: cells) = default 0 c + sum_counts cells.
Proof. unfold sum_counts at 1. cbn [fold_left]. rewrite sum_counts_from. lia. Qed.

Lemma sum_counts_Some z cells : sum_counts (Some z :: cells) = z + sum_counts cells.
Proof. apply sum_counts_cons. Qed.

Lemma sum_counts_nil : sum_counts [] = 0.
Proof. reflexivity. Qed.

Lemma sum_counts_app l1 l2 : sum_counts (l1 ++ l2) = sum_counts l1 + sum_counts l2.
Proof.
  induction l1 as [|c l1 IH]; [reflexivity|].
  rewrite <- app_comm_cons, !sum_counts_cons, IH. lia.
Qed.

Lemma sum_counts_ext {A} (f g : A -> Z) (l : list A) :
  (forall a, a ∈ l -> f a = g a) ->
  sum_counts ((fun a => Some (f a)) <$> l) = sum_counts ((fun a => Some (g a)) <$> l).
Proof.
  induction l as [|a l IH]; intros H; [reflexivity|].
  rewrite !fmap_cons, !sum_counts_Some, IH by (intros; apply H; set_solver).
  rewrite (H a) by set_solver. reflexivity.
Qed.

(** Along one axis, the in-bounds offsets of a run of [m] consecutive grid
    points: three each, less one at either end of the domain. *)
Lemma axis_neighbours_run (G off : Z) (m : nat) :
  0 <= off -> off + Z.of_nat m <= G ->
  sum_counts ((fun i => Some (axis_neighbours (off + i) G)) <$> seqZ 0 (Z.of_nat m))
  = 3 * Z.of_nat m
    - (if decide (off = 0 /\ (0 < m)%nat) then 1 else 0)
    - (if decide (off + Z.of_nat m = G /\ (0 < m)%nat) then 1 else 0).
Proof.
  intros Hoff. induction m as [|m IH]; intros Hm.
  - change (seqZ 0 (Z.of_nat 0)) with (@nil Z). cbn [fmap list_fmap].
    rewrite sum_counts_nil. repeat case_decide; lia.
  - rewrite seqZ_S, fmap_app, sum_counts_app, IH by lia.
    cbn [fmap list_fmap]. rewrite sum_counts_Some, sum_counts_nil.
    unfold axis_neighbours. repeat case_decide; lia.
Qed.

Lemma axis_total_sum n np ip :
  0 < n -> 0 <= ip < np ->
  sum_counts ((fun i => Some (axis_neighbours (ip * n + i) (n * np))) <$> seqZ 0 n)
  = axis_total n np ip.
Proof.
  intros Hn Hip.
  replace (seqZ 0 n) with (seqZ 0 (Z.of_nat (Z.to_nat n)))
    by (rewrite Z2Nat.id; [reflexivity | lia]).
  rewrite axis_neighbours_run by nia.
  rewrite Z2Nat.id by lia. unfold axis_total.
  assert (ip * n = 0 <-> ip = 0) by nia.
  assert (ip * n + n = n * np <-> ip = np - 1) by nia.
  repeat case_decide; lia.
Qed.

Lemma generate_points_nonzeros_sum geom l st :
  localNumberOfNonzeros (fold_left (exact_generate_at geom) l st)
  = localNumberOfNonzeros st
    + sum_counts ((fun p => Some (Z.of_nat (length (row_entries geom p)))) <$> l).
Proof.
  induction l as [|q l IH] using rev_ind;
    [cbn [fmap list_fmap fold_left]; rewrite sum_counts_nil; lia|].
  rewrite fold_left_app. cbn [fold_left].
  rewrite generate_at_nonzeros, IH, fmap_app, sum_counts_app.
  cbn [fmap list_fmap]. rewrite sum_counts_Some, sum_counts_nil. lia.
Qed.

Lemma sum_over_x (c iz iy : Z) (fx : Z -> Z) (lx : list Z) :
  sum_counts ((fun p : Z * Z * Z => Some (c * fx p.2))
                <$> (lx ≫= fun ix => [(iz, iy, ix)]))
  = c * sum_counts ((fun i => Some (fx i)) <$> lx).
Proof.
  induction lx as [|ix lx IH]; [cbn [fmap list_fmap mbind list_bind]; rewrite !sum_counts_nil; lia|].
  rewrite bind_cons, fmap_app, sum_counts_app, IH, fmap_cons.
  cbn [fmap list_fmap snd]. rewrite !sum_counts_Some, sum_counts_nil. ring.
Qed.

Lemma sum_over_yx (c iz : Z) (fy fx : Z -> Z) (ly lx : list Z) :
  sum_counts ((fun p : Z * Z * Z => Some (c * (fy p.1.2 * fx p.2)))
                <$> (ly ≫= fun iy => lx ≫= fun ix => [(iz, iy, ix)]))
  = c * (sum_counts ((fun i => Some (fy i)) <$> ly)
         * sum_counts ((fun i => Some (fx i)) <$> lx)).
Proof.
  induction ly as [|iy ly IH]; [cbn [fmap list_fmap mbind list_bind]; rewrite !sum_counts_nil; lia|].
  rewrite bind_cons, fmap_app, sum_counts_app, IH, fmap_cons, sum_counts_Some.
  rewrite (sum_counts_ext _ (fun p : Z * Z * Z => c * fy iy * fx p.2)).
  - rewrite sum_over_x. ring.
  - intros p (ix & ->%list_elem_of_singleton & _)%list_elem_of_bind.
    cbn [fst snd]. ring.
Qed.

Lemma sum_over_points (fz fy fx : Z -> Z) (lz ly lx : list Z) :
  sum_counts ((fun p : Z * Z * Z => Some (fz p.1.1 * (fy p.1.2 * fx p.2)))
                <$> (lz ≫= fun iz => ly ≫= fun iy => lx ≫= fun ix => [(iz, iy, ix)]))
  = sum_counts ((fun i => Some (fz i)) <$> lz)
    * (sum_counts ((fun i => Some (fy i)) <$> ly)
       * sum_counts ((fun i => Some (fx i)) <$> lx)).
Proof.
  induction lz as [|iz lz IH]; [cbn [fmap list_fmap mbind list_bind]; rewrite !sum_counts_nil; lia|].
  rewrite bind_cons, fmap_app, sum_counts_app, IH, fmap_cons, sum_counts_Some.
  rewrite (sum_counts_ext _ (fun p : Z * Z * Z => fz iz * (fy p.1.2 * fx p.2))).
  - rewrite sum_over_yx. ring.
  - intros p (iy & (ix & ->%list_elem_of_singleton & _)%list_elem_of_bind & _)%list_elem_of_bind.
    reflexivity.
Qed.

(** The nonzeros of a process, summed over its local points. *)
Lemma local_nonzeros_closed_form geom :
  valid_geometry geom ->
  exact_local_nonzeros geom
  = axis_total (nz geom) (npz geom) (ipz geom)
    * axis_total (ny geom) (npy geom) (ipy geom)
    * axis_total (nx geom) (npx geom) (ipx geom).
Proof.
  intros Hv. unfold exact_local_nonzeros.
  rewrite generate_rows_points, generate_points_nonzeros_sum.
  cbn [allocate localNumberOfNonzeros].
  rewrite (sum_counts_ext _
    (fun p => axis_neighbours (ipz geom * nz geom + p.1.1) (nz geom * npz geom)
              * (axis_neighbours (ipy geom * ny geom + p.1.2) (ny geom * npy geom)
                 * axis_neighbours (ipx geom * nx geom + p.2) (nx geom * npx geom)))).
  2:{ intros p Hp%elem_of_points.
      destruct (global_point_range geom p Hv Hp) as (Gx & Gy & Gz).
      rewrite row_entries_count, !axis_neighbours_count by assumption.
      unfold exact_global_z, exact_global_y, exact_global_x, exact_gnz, exact_gny, exact_gnx. ring. }
  unfold points.
  rewrite (sum_over_points
             (fun i => axis_neighbours (ipz geom * nz geom + i) (nz geom * npz geom))
             (fun i => axis_neighbours (ipy geom * ny geom + i) (ny geom * npy geom))
             (fun i => axis_neighbours (ipx geom * nx geom + i) (nx geom * npx geom))).
  destruct Hv.
  rewrite !axis_total_sum by assumption. ring.
Qed.

Lemma NoDup_points geom : NoDup (points geom).
Proof.
  unfold points. apply NoDup_bind; [| |apply NoDup_seqZ].
  - intros iz iz' p _ _
      (iy & (ix & ->%list_elem_of_singleton & _)%list_elem_of_bind & _)%list_elem_of_bind
      (iy' & (ix' & [= -> _ _]%list_elem_of_singleton & _)%list_elem_of_bind & _)%list_elem_of_bind.
    reflexivity.
  - intros iz _. apply NoDup_bind; [| |apply NoDup_seqZ].
    + intros iy iy' p _ _ (ix & ->%list_elem_of_singleton & _)%list_elem_of_bind
        (ix' & [= -> _]%list_elem_of_singleton & _)%list_elem_of_bind.
      reflexivity.
    + intros iy _. apply NoDup_bind; [| |apply NoDup_seqZ].
      * intros ix ix' p _ _ ->%list_elem_of_singleton [= ->]%list_elem_of_singleton.
        reflexivity.
      * intros ix _. apply NoDup_singleton.
Qed.

Lemma sum_counts_replicate n : sum_counts (replicate n None) = 0.
Proof.
  induction n as [|n IH]; [reflexivity|].
  cbn [replicate]. rewrite sum_counts_cons, IH. reflexivity.
Qed.

Lemma sum_counts_insert cells i c :
  cells !! i = Some None ->
  sum_counts (<[i := Some c]> cells) = sum_counts cells + c.
Proof.
  intros Hi. pose proof (lookup_lt_Some _ _ _ Hi) as Hlt.
  rewrite insert_take_drop by exact Hlt.
  rewrite <- (take_drop_middle cells i None Hi) at 3.
  rewrite !sum_counts_app, sum_counts_Some, sum_counts_cons.
  change (default 0 None) with 0. lia.
Qed.

(** While the rows of distinct local points are generated, the running
    count is the sum of the counts stored so far. *)
Lemma generate_points_sum geom l st :
  NoDup l -> (forall q, q ∈ l -> local_point geom q) ->
  localNumberOfNonzeros st = sum_counts (nonzerosInRow st) ->
  (forall p, local_point geom p ->
     nonzerosInRow st !! Z.to_nat (exact_local_row geom p.1.1 p.1.2 p.2) = Some None) ->
  localNumberOfNonzeros (fold_left (exact_generate_at geom) l st)
  = sum_counts (nonzerosInRow (fold_left (exact_generate_at geom) l st))
  /\ forall p, local_point geom p -> p ∉ l ->
       nonzerosInRow (fold_left (exact_generate_at geom) l st)
         !! Z.to_nat (exact_local_row geom p.1.1 p.1.2 p.2) = Some None.
Proof.
  intros Hnd Hl Hsum Hnone.
  induction l as [|q l IH] using rev_ind; [split; [exact Hsum | auto]|].
  apply NoDup_app in Hnd as (Hnd & Hql & _).
  assert (Hq : local_point geom q).
  { apply Hl, elem_of_app. right. apply list_elem_of_singleton. reflexivity. }
  assert (Hq' : q ∉ l).
  { intros Hin. apply (Hql q Hin), list_elem_of_singleton. reflexivity. }
  destruct IH as [IHsum IHnone]; [exact Hnd | |].
  { intros p Hp. apply Hl, elem_of_app. left. exact Hp. }
  rewrite fold_left_app. cbn [fold_left].
  set (st' := fold_left (exact_generate_at geom) l st) in *.
  unfold exact_generate_at at 1 2 3, exact_generate_row.
  cbn [localNumberOfNonzeros nonzerosInRow]. split.
  - rewrite sum_counts_insert by (apply IHnone; assumption). lia.
  - intros p Hp Hpl.
    assert (Hne : q <> p).
    { intros ->. apply Hpl, elem_of_app. right. apply list_elem_of_singleton.
      reflexivity. }
    rewrite list_lookup_insert_ne.
    + apply IHnone; [exact Hp|]. intros Hin. apply Hpl, elem_of_app. left. exact Hin.
    + intros E. apply Hne, (local_row_inj geom); auto.
      pose proof (local_row_range geom p Hp). pose proof (local_row_range geom q Hq).
      lia.
Qed.

(** ** The number of nonzeros of a run *)

Lemma MPI_Allreduce_SUM_sum (local : Z) (others : list Z) :
  MPI_Allreduce_SUM local others = local + sum_counts (Some <$> others).
Proof.
  unfold MPI_Allreduce_SUM. revert local.
  induction others as [|c others IH]; intros local.
  - cbn [fold_left fmap list_fmap]. rewrite sum_counts_nil. lia.
  - cbn [fold_left]. rewrite IH, fmap_cons, sum_counts_Some. lia.
Qed.

Lemma sum_counts_permutation (l l' : list (option Z)) :
  l ≡ₚ l' -> sum_counts l = sum_counts l'.
Proof.
  induction 1 as [|c l l' _ IH|c c' l|l l' l'' _ IH1 _ IH2].
  - reflexivity.
  - rewrite !sum_counts_cons, IH. reflexivity.
  - rewrite !sum_counts_cons. lia.
  - congruence.
Qed.

(** Along one axis, summed over the processes of the grid: every grid point
    has three in-bounds offsets, but for the two ends of the domain. *)
Lemma axis_total_run (n np : Z) (m : nat) :
  Z.of_nat m <= np ->
  sum_counts ((fun j => Some (axis_total n np j)) <$> seqZ 0 (Z.of_nat m))
  = 3 * n * Z.of_nat m
    - (if decide (0 < m)%nat then 1 else 0)
    - (if decide (Z.of_nat m = np /\ (0 < m)%nat) then 1 else 0).
Proof.
  induction m as [|m IH]; intros Hm.
  - change (seqZ 0 (Z.of_nat 0)) with (@nil Z). cbn [fmap list_fmap].
    rewrite sum_counts_nil. repeat case_decide; lia.
  - rewrite seqZ_S, fmap_app, sum_counts_app, IH by lia.
    cbn [fmap list_fmap]. rewrite sum_counts_Some, sum_counts_nil.
    unfold axis_total. rewrite Nat2Z.inj_succ.
    repeat case_decide; nia.
Qed.

Lemma axis_total_grid (n np : Z) :
  0 < np ->
  sum_counts ((fun j => Some (axis_total n np j)) <$> seqZ 0 np) = 3 * (n * np) - 2.
Proof.
  intros Hnp.
  replace (seqZ 0 np) with (seqZ 0 (Z.of_nat (Z.to_nat np)))
    by (rewrite Z2Nat.id; [reflexivity | lia]).
  rewrite axis_total_run by lia. rewrite Z2Nat.id by lia.
  repeat case_decide; lia.
Qed.

Lemma elem_of_process_grid g pos :
  pos ∈ process_grid g
  <-> 0 <= pos.1.1 < npz g /\ 0 <= pos.1.2 < npy g /\ 0 <= pos.2 < npx g.
Proof.
  unfold process_grid. destruct pos as [[jz jy] jx]. cbn [fst snd]. split.
  - intros (z & (y & (x & [= -> -> ->]%list_elem_of_singleton
                        & Hx%elem_of_seqZ)%list_elem_of_bind
                   & Hy%elem_of_seqZ)%list_elem_of_bind
              & Hz%elem_of_seqZ)%list_elem_of_bind. lia.
  - intros (Hz & Hy & Hx).
    apply list_elem_of_bind. exists jz. split; [|apply elem_of_seqZ; lia].
    apply list_elem_of_bind. exists jy. split; [|apply elem_of_seqZ; lia].
    apply list_elem_of_bind. exists jx. split; [|apply elem_of_seqZ; lia].
    apply list_elem_of_singleton. reflexivity.
Qed.

(** Every process of a run has a valid geometry when one of them has. *)
Lemma full_run_valid peers geom g :
  valid_geometry geom -> full_run peers geom -> g ∈ geom :: peers ->
  valid_geometry g /\ same_run geom g.
Proof.
  intros Hv [Hsame Hgrid] [-> | Hg]%elem_of_cons.
  { split; [exact Hv | repeat split]. }
  rewrite Forall_forall in Hsame. pose proof (Hsame g Hg) as Hrun.
  split; [|exact Hrun].
  assert (Hpos : position g ∈ process_grid geom).
  { rewrite <- Hgrid. apply list_elem_of_fmap. exists g.
    split; [reflexivity | apply list_elem_of_further, Hg]. }
  apply elem_of_process_grid in Hpos. unfold position in Hpos. cbn [fst snd] in Hpos.
  destruct Hrun as (Es & Ex & Ey & Ez & Epx & Epy & Epz). destruct Hv.
  constructor; lia.
Qed.

(** ** Symmetry of the matrix across the processes *)

(** What a generated row holds, read off the stencil offsets. *)
Lemma stored_iff geom pr p c v :
  row_generated geom pr p ->
  stored pr (exact_local_row geom p.1.1 p.1.2 p.2) c v
  <-> exists o, o ∈ row_entries geom p /\ c = column geom p o
        /\ v = if c =? exact_global_row geom p.1.1 p.1.2 p.2 then of_Z 27 else of_Z (-1).
Proof.
  intros (Hcount & (vs & Hvs & _ & Hvslots) & (js & Hjs & _ & Hjslots) & _).
  unfold stored. split.
  - intros (count & vs' & js' & j & Hc & Hv' & Hj' & Hlt & Hcol & Hval).
    rewrite Hcount in Hc. injection Hc as <-.
    rewrite Hvs in Hv'. injection Hv' as <-.
    rewrite Hjs in Hj'. injection Hj' as <-.
    destruct (lookup_lt_is_Some_2 (row_entries geom p) j) as [o Ho]; [lia|].
    rewrite (Hjslots j o Ho) in Hcol. rewrite (Hvslots j o Ho) in Hval.
    injection Hcol as <-. injection Hval as <-.
    exists o. split; [eapply list_elem_of_lookup_2, Ho|].
    split; reflexivity.
  - intros (o & (j & Ho)%list_elem_of_lookup_1 & -> & ->).
    exists (Z.of_nat (length (row_entries geom p))), vs, js, j.
    split_and!; auto.
    apply lookup_lt_Some in Ho. lia.
Qed.

(** A neighbour relation of grid points is symmetric. *)
Lemma neighbour_symmetric g1 g2 p1 p2 o :
  valid_geometry g1 -> valid_geometry g2 -> same_run g1 g2 ->
  local_point g1 p1 -> local_point g2 p2 ->
  o ∈ row_entries g1 p1 ->
  column g1 p1 o = exact_global_row g2 p2.1.1 p2.1.2 p2.2 ->
  exists o', o' ∈ row_entries g2 p2
             /\ column g2 p2 o' = exact_global_row g1 p1.1.1 p1.1.2 p1.2.
Proof.
  intros Hv1 Hv2 (_ & Ex & Ey & Ez & Epx & Epy & Epz) Hp1 Hp2 Ho Hcol.
  assert (EX : exact_gnx g1 = exact_gnx g2) by (unfold exact_gnx; congruence).
  assert (EY : exact_gny g1 = exact_gny g2) by (unfold exact_gny; congruence).
  assert (EZ : exact_gnz g1 = exact_gnz g2) by (unfold exact_gnz; congruence).
  destruct (global_point_range g1 p1 Hv1 Hp1) as (Gx1 & Gy1 & Gz1).
  destruct (global_point_range g2 p2 Hv2 Hp2) as (Gx2 & Gy2 & Gz2).
  apply elem_of_row_entries in Ho as ((Sz & Sy & Sx) & Hz & Hy & Hx).
  apply elem_of_stencil in Sz, Sy, Sx.
  rewrite column_lin in Hcol. unfold exact_global_row in Hcol. rewrite <- EX, <- EY in Hcol.
  apply lin3_inj in Hcol as (Cz & Cy & Cx); [|lia..].
  exists (- o.1.1, - o.1.2, - o.2). split.
  - apply elem_of_row_entries. rewrite !elem_of_stencil. cbn [fst snd].
    split_and!; lia.
  - rewrite column_lin. cbn [fst snd]. unfold exact_global_row.
    rewrite <- EX, <- EY. rewrite <- Cz, <- Cy, <- Cx. ring.
Qed.

(** ** The order in which the rows are generated *)

Lemma fold_left_permutation {A S} (f : S -> A -> S) (P : A -> Prop) (l l' : list A) :
  l ≡ₚ l' -> NoDup l -> (forall a, a ∈ l -> P a) ->
  (forall s a b, P a -> P b -> a <> b -> f (f s a) b = f (f s b) a) ->
  forall s, fold_left f l s = fold_left f l' s.
Proof.
  intros Hperm Hnd HP Hcomm.
  induction Hperm as [|x l l' Hperm IH|x y l|l l' l'' H1 IH1 H2 IH2]; intros s.
  - reflexivity.
  - cbn [fold_left]. apply NoDup_cons in Hnd as [_ Hnd].
    apply IH; [exact Hnd|]. intros a Ha. apply HP, list_elem_of_further, Ha.
  - cbn [fold_left]. f_equal.
    apply NoDup_cons in Hnd as [Hy _].
    apply Hcomm.
    + apply HP, list_elem_of_here.
    + apply HP, list_elem_of_further, list_elem_of_here.
    + intros ->. apply Hy, list_elem_of_here.
  - rewrite IH1 by assumption. apply IH2.
    + rewrite <- H1. exact Hnd.
    + intros a Ha. apply HP. rewrite H1. exact Ha.
Qed.

(** Generating two distinct rows in either order leaves the same state. *)
Lemma generate_at_commute geom st p q :
  valid_geometry geom -> local_point geom p -> local_point geom q -> p <> q ->
  exact_generate_at geom (exact_generate_at geom st p) q
  = exact_generate_at geom (exact_generate_at geom st q) p.
Proof.
  intros Hv Hp Hq Hne.
  assert (Hi : Z.to_nat (exact_local_row geom p.1.1 p.1.2 p.2)
               <> Z.to_nat (exact_local_row geom q.1.1 q.1.2 q.2)).
  { intros E. apply Hne, (local_row_inj geom); auto.
    pose proof (local_row_range geom p Hp). pose proof (local_row_range geom q Hq).
    lia. }
  assert (Hg : exact_global_row geom p.1.1 p.1.2 p.2 <> exact_global_row geom q.1.1 q.1.2 q.2).
  { intros E. apply Hne, (global_row_inj geom); auto. }
  unfold exact_generate_at, exact_generate_row, open_row.
  cbn [totalNumberOfRows totalNumberOfNonzeros localNumberOfRows localNumberOfColumns
       localNumberOfNonzeros nonzerosInRow mtxIndG mtxIndL matrixValues matrixDiagonal
       localToGlobalMap globalToLocalMap b x xexact].
  rewrite !(list_lookup_insert_ne _ _ _ _ Hi).
  rewrite !(list_lookup_insert_ne _ _ _ _ (not_eq_sym Hi)).
  f_equal; try (apply list_insert_insert_ne; auto); try lia.
  apply insert_insert_ne. auto.
Qed.

(** ** The rows of the global matrix are shared out among the processes *)

Lemma block_coordinate (g n np ip i : Z) :
  0 < n -> 0 <= i < n -> g = ip * n + i -> g / n = ip.
Proof.
  intros Hn Hi ->. symmetry. apply (Z.div_unique _ _ _ i); lia.
Qed.

Lemma block_offset (g n : Z) : 0 < n -> 0 <= g -> 0 <= g - g / n * n < n.
Proof.
  intros Hn Hg. pose proof (Z.div_mod g n ltac:(lia)).
  pose proof (Z.mod_pos_bound g n Hn). lia.
Qed.

(** * The machine run *)

(** ** Wrap-around *)

Lemma wrap_range bits z : 0 < bits -> representable bits (wrap bits z).
Proof.
  intros Hbits. unfold representable, wrap.
  assert (E : 2 ^ bits = 2 * 2 ^ (bits - 1)).
  { rewrite <- Z.pow_succ_r by lia. f_equal. lia. }
  assert (0 < 2 ^ (bits - 1)) by (apply Z.pow_pos_nonneg; lia).
  pose proof (Z.mod_pos_bound (z + 2 ^ (bits - 1)) (2 ^ bits) ltac:(lia)). lia.
Qed.

Lemma representable_int z :
  representable int_bits z <-> -2147483648 <= z < 2147483648.
Proof. unfold representable, int_bits. change (2 ^ (32 - 1)) with 2147483648. tauto. Qed.


(** A value that fits an [int] fits every type at least as wide. *)
Lemma representable_small bits z :
  32 <= bits -> -2147483648 <= z < 2147483648 -> representable bits z.
Proof.
  intros Hbits Hz. apply (representable_mono int_bits); [exact Hbits | reflexivity |].
  apply representable_int, Hz.
Qed.

Lemma representable_below bits z hi :
  0 < bits -> 0 <= z <= hi -> representable bits hi -> representable bits z.
Proof.
  unfold representable. intros Hbits Hz [_ Hhi].
  assert (0 < 2 ^ (bits - 1)) by (apply Z.pow_pos_nonneg; lia). lia.
Qed.

Lemma wrap_small bits z :
  32 <= bits -> -2147483648 <= z < 2147483648 -> wrap bits z = z.
Proof.
  intros Hbits Hz. apply wrap_representable; [lia|].
  apply representable_small; assumption.
Qed.

Lemma wrap_below bits z hi :
  0 < bits -> 0 <= z <= hi -> representable bits hi -> wrap bits z = z.
Proof.
  intros Hbits Hz Hhi. apply wrap_representable; [exact Hbits|].
  eapply representable_below; eassumption.
Qed.

Lemma max_int_bits bits : 32 <= bits -> Z.max int_bits bits = bits.
Proof. unfold int_bits. lia. Qed.

(** The index of a point of a box, line after line and plane after plane. *)
Lemma lin3_range X Y Z' x y z :
  0 <= x < X -> 0 <= y < Y -> 0 <= z < Z' ->
  0 <= z * X * Y + y * X + x < X * Y * Z'.
Proof.
  intros Hx Hy Hz.
  assert (Hxy : 0 <= y * X + x < X * Y) by nia.
  assert (Hzz : 0 <= z * (X * Y) <= (Z' - 1) * (X * Y)) by nia.
  replace (z * X * Y) with (z * (X * Y)) by ring.
  replace (X * Y * Z') with ((Z' - 1) * (X * Y) + X * Y) by ring.
  lia.
Qed.

(** ** One stencil entry, one bounds test *)

Lemma in_bounds_exact T gi gn s :
  32 <= global_bits T -> 0 <= gi < gn -> gn < 2147483648 -> s ∈ stencil ->
  in_bounds T gi gn s = exact_in_bounds gi gn s.
Proof.
  intros HT Hgi Hgn Hs%elem_of_stencil. unfold in_bounds, exact_in_bounds.
  rewrite max_int_bits by exact HT.
  rewrite wrap_small by lia. reflexivity.
Qed.

Lemma store_entry_exact T X Y Z' x y z sz sy sx r :
  32 <= global_bits T ->
  0 < X -> 0 < Y -> X * Y < 2147483648 ->
  representable (global_bits T) (X * Y * Z') ->
  0 <= x < X -> 0 <= y < Y -> 0 <= z < Z' ->
  sz ∈ stencil -> sy ∈ stencil -> sx ∈ stencil ->
  0 <= z + sz < Z' -> 0 <= y + sy < Y -> 0 <= x + sx < X ->
  store_entry T (z * X * Y + y * X + x) X Y sz sy sx r
  = exact_store_entry (z * X * Y + y * X + x) X Y sz sy sx r.
Proof.
  intros HT HX HY HXY Hgrid Hx Hy Hz Sz%elem_of_stencil Sy%elem_of_stencil
    Sx%elem_of_stencil Bz By Bx.
  assert (HXle : X <= X * Y) by nia.
  assert (E : wrap (global_bits T)
                (wrap (Z.max int_bits (global_bits T))
                   (wrap (Z.max int_bits (global_bits T))
                      (wrap (Z.max int_bits (global_bits T))
                         (z * X * Y + y * X + x
                          + wrap int_bits (wrap int_bits (sz * X) * Y))
                       + wrap int_bits (sy * X))
                    + sx))
              = z * X * Y + y * X + x + sz * X * Y + sy * X + sx).
  { rewrite max_int_bits by exact HT.
    rewrite (wrap_small int_bits (sz * X)) by (unfold int_bits; lia).
    rewrite (wrap_small int_bits (sz * X * Y)) by (unfold int_bits; nia).
    rewrite (wrap_small int_bits (sy * X)) by (unfold int_bits; lia).
    pose proof (lin3_range X Y Z' x y (z + sz) Hx Hy Bz) as R1.
    pose proof (lin3_range X Y Z' x (y + sy) (z + sz) Hx By Bz) as R2.
    pose proof (lin3_range X Y Z' (x + sx) (y + sy) (z + sz) Bx By Bz) as R3.
    rewrite (wrap_below (global_bits T) (z * X * Y + y * X + x + sz * X * Y)
               (X * Y * Z')) by (try lia; try assumption).
    rewrite (wrap_below (global_bits T)
               (z * X * Y + y * X + x + sz * X * Y + sy * X) (X * Y * Z'))
      by (try lia; try assumption).
    rewrite (wrap_below (global_bits T)
               (z * X * Y + y * X + x + sz * X * Y + sy * X + sx) (X * Y * Z'))
      by (try lia; try assumption).
    apply (wrap_below _ _ (X * Y * Z')); try lia; assumption. }
  unfold store_entry, exact_store_entry. cbv zeta. rewrite E. reflexivity.
Qed.

Lemma fold_left_ext_in {A S} (f g : S -> A -> S) (l : list A) (s : S) :
  (forall s a, a ∈ l -> f s a = g s a) -> fold_left f l s = fold_left g l s.
Proof.
  revert s. induction l as [|a l IH]; intros s H; [reflexivity|].
  cbn [fold_left]. rewrite H by apply list_elem_of_here.
  apply IH. intros s' a' Ha'. apply H, list_elem_of_further, Ha'.
Qed.

Lemma stencil_loops_exact T X Y Z' x y z r :
  32 <= global_bits T ->
  0 < X -> 0 < Y -> X * Y < 2147483648 -> Z' < 2147483648 ->
  representable (global_bits T) (X * Y * Z') ->
  0 <= x < X -> 0 <= y < Y -> 0 <= z < Z' ->
  stencil_loops T (z * X * Y + y * X + x) x y z X Y Z' r
  = exact_stencil_loops (z * X * Y + y * X + x) x y z X Y Z' r.
Proof.
  intros HT HX HY HXY HZ Hgrid Hx Hy Hz.
  assert (X <= X * Y) by nia. assert (Y <= X * Y) by nia.
  unfold stencil_loops, exact_stencil_loops.
  apply fold_left_ext_in. intros r1 sz Hsz.
  rewrite in_bounds_exact by (try assumption; lia).
  destruct (exact_in_bounds z Z' sz) eqn:Ez; [|reflexivity].
  apply in_bounds_spec in Ez.
  apply fold_left_ext_in. intros r2 sy Hsy.
  rewrite in_bounds_exact by (try assumption; lia).
  destruct (exact_in_bounds y Y sy) eqn:Ey; [|reflexivity].
  apply in_bounds_spec in Ey.
  apply fold_left_ext_in. intros r3 sx Hsx.
  rewrite in_bounds_exact by (try assumption; lia).
  destruct (exact_in_bounds x X sx) eqn:Ex; [|reflexivity].
  apply in_bounds_spec in Ex.
  apply (store_entry_exact T X Y Z'); assumption.
Qed.

(** ** The index computations of a row *)

Lemma global_coordinate_fits T (ip n np i : Z) :
  32 <= local_bits T -> 32 <= global_bits T ->
  0 < n -> 0 <= ip < np -> n * np < 2147483648 -> 0 <= i < n ->
  wrap (global_bits T)
    (wrap (Z.max int_bits (local_bits T)) (wrap int_bits (ip * n) + i))
  = ip * n + i.
Proof.
  intros HL HG Hn Hip Hnp Hi.
  assert (0 <= ip * n /\ ip * n + n <= n * np) by nia.
  rewrite max_int_bits by exact HL.
  rewrite (wrap_small int_bits) by (unfold int_bits; lia).
  rewrite (wrap_small (local_bits T)) by lia.
  apply wrap_small; lia.
Qed.

Section Indices.
Variable T : index_types.
Variable geom : Geometry.
Hypothesis Hvalid : valid_geometry geom.
Hypothesis Hfit : indices_fit T geom.

Lemma extents_in_int :
  (0 < exact_gnx geom < 2147483648)
  /\ (0 < exact_gny geom < 2147483648)
  /\ (0 < exact_gnz geom < 2147483648)
  /\ 0 < nx geom * ny geom * nz geom < 2147483648.
Proof.
  destruct Hvalid, Hfit as [_ _ Hx Hy Hz _ Hr _].
  apply (proj1 (representable_int _)) in Hx, Hy, Hz, Hr.
  unfold exact_gnx, exact_gny, exact_gnz in *.
  assert (0 < nx geom * npx geom) by (apply Z.mul_pos_pos; lia).
  assert (0 < ny geom * npy geom) by (apply Z.mul_pos_pos; lia).
  assert (0 < nz geom * npz geom) by (apply Z.mul_pos_pos; lia).
  assert (0 < nx geom * ny geom) by (apply Z.mul_pos_pos; lia).
  assert (0 < nx geom * ny geom * nz geom) by (apply Z.mul_pos_pos; lia).
  split_and!; lia.
Qed.

Lemma machine_gnx : gnx geom = exact_gnx geom.
Proof. apply wrap_representable; [reflexivity | apply Hfit]. Qed.

Lemma machine_gny : gny geom = exact_gny geom.
Proof. apply wrap_representable; [reflexivity | apply Hfit]. Qed.

Lemma machine_gnz : gnz geom = exact_gnz geom.
Proof. apply wrap_representable; [reflexivity | apply Hfit]. Qed.

Lemma machine_global_x ix :
  0 <= ix < nx geom -> global_x T geom ix = exact_global_x geom ix.
Proof.
  intros Hi. destruct extents_in_int as (Hx & _). destruct Hvalid.
  apply (global_coordinate_fits T _ _ (npx geom));
    try apply Hfit; unfold exact_gnx in Hx; lia.
Qed.

Lemma machine_global_y iy :
  0 <= iy < ny geom -> global_y T geom iy = exact_global_y geom iy.
Proof.
  intros Hi. destruct extents_in_int as (_ & Hy & _). destruct Hvalid.
  apply (global_coordinate_fits T _ _ (npy geom));
    try apply Hfit; unfold exact_gny in Hy; lia.
Qed.

Lemma machine_global_z iz :
  0 <= iz < nz geom -> global_z T geom iz = exact_global_z geom iz.
Proof.
  intros Hi. destruct extents_in_int as (_ & _ & Hz & _). destruct Hvalid.
  apply (global_coordinate_fits T _ _ (npz geom));
    try apply Hfit; unfold exact_gnz in Hz; lia.
Qed.

Lemma machine_local_row p :
  local_point geom p ->
  local_row T geom p.1.1 p.1.2 p.2 = exact_local_row geom p.1.1 p.1.2 p.2.
Proof.
  intros Hp. pose proof (local_row_range geom p Hp) as Hrange.
  destruct Hp as (Hz & Hy & Hx).
  destruct extents_in_int as (_ & _ & _ & Hrows).
  pose proof (fit_local_int_t T geom Hfit) as HL. destruct Hvalid.
  unfold local_row, exact_local_row in *.
  set (iz := p.1.1) in *. set (iy := p.1.2) in *. set (ix := p.2) in *.
  assert (H1 : 0 <= iz * nx geom <= (nz geom - 1) * nx geom) by nia.
  assert (H2 : 0 <= iz * nx geom * ny geom <= (nz geom - 1) * nx geom * ny geom) by nia.
  assert (H3 : 0 <= iy * nx geom <= (ny geom - 1) * nx geom) by nia.
  assert (H4 : nx geom <= nx geom * ny geom) by nia.
  assert (H5 : nx geom * ny geom <= nx geom * ny geom * nz geom) by nia.
  assert (H6 : (nz geom - 1) * nx geom * ny geom + nx geom * ny geom
               = nx geom * ny geom * nz geom) by ring.
  assert (H7 : (ny geom - 1) * nx geom + nx geom = nx geom * ny geom) by ring.
  assert (H8 : (nz geom - 1) * nx geom <= (nz geom - 1) * nx geom * ny geom) by nia.
  rewrite max_int_bits by exact HL.
  rewrite (wrap_small _ (iz * nx geom)) by lia.
  rewrite (wrap_small _ (iz * nx geom * ny geom)) by lia.
  rewrite (wrap_small _ (iy * nx geom)) by lia.
  rewrite (wrap_small _ (iz * nx geom * ny geom + iy * nx geom)) by lia.
  rewrite (wrap_small _ (iz * nx geom * ny geom + iy * nx geom + ix)) by lia.
  apply wrap_small; lia.
Qed.

Lemma machine_global_row p :
  local_point geom p ->
  global_row T geom (exact_global_z geom p.1.1) (exact_global_y geom p.1.2)
    (exact_global_x geom p.2)
  = exact_global_row geom p.1.1 p.1.2 p.2.
Proof.
  intros Hp. destruct (global_point_range geom p Hvalid Hp) as (Gx & Gy & Gz).
  destruct extents_in_int as (HX & HY & HZ & _).
  pose proof (fit_grid T geom Hfit) as Hgrid.
  pose proof (fit_global_int_t T geom Hfit) as HG.
  unfold global_row, exact_global_row. rewrite machine_gnx, machine_gny.
  set (gx := exact_global_x geom p.2) in *.
  set (gy := exact_global_y geom p.1.2) in *.
  set (gz := exact_global_z geom p.1.1) in *.
  set (X := exact_gnx geom) in *. set (Y := exact_gny geom) in *.
  set (Z' := exact_gnz geom) in *.
  pose proof (lin3_range X Y Z' gx gy gz Gx Gy Gz) as R.
  pose proof (lin3_range X Y Z' 0 0 gz ltac:(lia) ltac:(lia) Gz) as Rz.
  pose proof (lin3_range X Y Z' 0 gy gz ltac:(lia) Gy Gz) as Rzy.
  assert (H1 : 0 <= gz * X <= gz * X * Y) by nia.
  assert (H2 : 0 <= gy * X) by nia.
  rewrite max_int_bits by exact HG.
  rewrite (wrap_below _ (gz * X) (X * Y * Z')) by (try lia; assumption).
  rewrite (wrap_below _ (gz * X * Y) (X * Y * Z')) by (try lia; assumption).
  rewrite (wrap_below _ (gy * X) (X * Y * Z')) by (try lia; assumption).
  rewrite (wrap_below _ (gz * X * Y + gy * X) (X * Y * Z')) by (try lia; assumption).
  rewrite (wrap_below _ (gz * X * Y + gy * X + gx) (X * Y * Z'))
    by (try lia; assumption).
  apply (wrap_below _ _ (X * Y * Z')); try lia; assumption.
Qed.

End Indices.

Lemma rows_indices_fit T geom : rows_without_overflow T geom -> indices_fit T geom.
Proof. intros []. constructor; assumption. Qed.

(** ** One row *)

Section Refinement.
Variable T : index_types.
Variable geom : Geometry.
Hypothesis Hvalid : valid_geometry geom.
Hypothesis Hfit : rows_without_overflow T geom.

Lemma extents_fit :
  (0 < exact_gnx geom < 2147483648)
  /\ (0 < exact_gny geom < 2147483648)
  /\ (0 < exact_gnz geom < 2147483648)
  /\ exact_gnx geom * exact_gny geom < 2147483648
  /\ 0 < nx geom * ny geom * nz geom < 2147483648.
Proof.
  destruct Hvalid, Hfit as [_ _ Hx Hy Hz Hxy _ Hr _].
  apply (proj1 (representable_int _)) in Hx, Hy, Hz, Hxy, Hr.
  unfold exact_gnx, exact_gny, exact_gnz in *.
  assert (0 < nx geom * npx geom) by (apply Z.mul_pos_pos; lia).
  assert (0 < ny geom * npy geom) by (apply Z.mul_pos_pos; lia).
  assert (0 < nz geom * npz geom) by (apply Z.mul_pos_pos; lia).
  assert (0 < nx geom * ny geom) by (apply Z.mul_pos_pos; lia).
  assert (0 < nx geom * ny geom * nz geom) by (apply Z.mul_pos_pos; lia).
  split_and!; lia.
Qed.

Lemma gnx_exact : gnx geom = exact_gnx geom.
Proof. exact (machine_gnx T geom (rows_indices_fit T geom Hfit)). Qed.

Lemma gny_exact : gny geom = exact_gny geom.
Proof. exact (machine_gny T geom (rows_indices_fit T geom Hfit)). Qed.

Lemma gnz_exact : gnz geom = exact_gnz geom.
Proof. exact (machine_gnz T geom (rows_indices_fit T geom Hfit)). Qed.

Lemma global_x_exact ix :
  0 <= ix < nx geom -> global_x T geom ix = exact_global_x geom ix.
Proof. exact (machine_global_x T geom Hvalid (rows_indices_fit T geom Hfit) ix). Qed.

Lemma global_y_exact iy :
  0 <= iy < ny geom -> global_y T geom iy = exact_global_y geom iy.
Proof. exact (machine_global_y T geom Hvalid (rows_indices_fit T geom Hfit) iy). Qed.

Lemma global_z_exact iz :
  0 <= iz < nz geom -> global_z T geom iz = exact_global_z geom iz.
Proof. exact (machine_global_z T geom Hvalid (rows_indices_fit T geom Hfit) iz). Qed.

Lemma local_row_exact p :
  local_point geom p ->
  local_row T geom p.1.1 p.1.2 p.2 = exact_local_row geom p.1.1 p.1.2 p.2.
Proof. exact (machine_local_row T geom Hvalid (rows_indices_fit T geom Hfit) p). Qed.

Lemma global_row_exact p :
  local_point geom p ->
  global_row T geom (exact_global_z geom p.1.1) (exact_global_y geom p.1.2)
    (exact_global_x geom p.2)
  = exact_global_row geom p.1.1 p.1.2 p.2.
Proof. exact (machine_global_row T geom Hvalid (rows_indices_fit T geom Hfit) p). Qed.

Lemma stencil_loops_row_exact p r :
  local_point geom p ->
  stencil_loops T (exact_global_row geom p.1.1 p.1.2 p.2)
    (exact_global_x geom p.2) (exact_global_y geom p.1.2) (exact_global_z geom p.1.1)
    (exact_gnx geom) (exact_gny geom) (exact_gnz geom) r
  = exact_stencil_loops (exact_global_row geom p.1.1 p.1.2 p.2)
      (exact_global_x geom p.2) (exact_global_y geom p.1.2) (exact_global_z geom p.1.1)
      (exact_gnx geom) (exact_gny geom) (exact_gnz geom) r.
Proof.
  intros Hp. destruct (global_point_range geom p Hvalid Hp) as (Gx & Gy & Gz).
  destruct extents_fit as (HX & HY & HZ & HXY & _).
  unfold exact_global_row.
  apply (stencil_loops_exact T (exact_gnx geom) (exact_gny geom) (exact_gnz geom));
    try lia; try assumption; apply Hfit.
Qed.

(** The body of the row loops does what the exact generation does, as
    long as the running count of nonzeros fits [local_int_t]. *)
Lemma generate_row_exact st p :
  local_point geom p ->
  length (nonzerosInRow st) = Z.to_nat (nx geom * ny geom * nz geom) ->
  representable (local_bits T)
    (localNumberOfNonzeros (exact_generate_at geom st p)) ->
  generate_row T geom p.1.1 p.1.2 p.2 st = Some (exact_generate_at geom st p).
Proof.
  intros Hp Hlen Hcount.
  pose proof (local_row_range geom p Hp) as Hrange.
  destruct (global_point_range geom p Hvalid Hp) as (Gx & Gy & Gz).
  destruct extents_fit as (HX & HY & HZ & HXY & _).
  pose proof (local_int_t_wide T geom Hfit) as HL.
  pose proof (global_int_t_wide T geom Hfit) as HG.
  pose proof Hp as (Hz & Hy & Hx).
  unfold generate_row.
  rewrite global_z_exact, global_y_exact, global_x_exact by assumption.
  rewrite local_row_exact, global_row_exact by assumption.
  rewrite gnx_exact, gny_exact, gnz_exact.
  destruct (Z.leb_spec 0 (exact_local_row geom p.1.1 p.1.2 p.2)) as [_|]; [|lia].
  destruct (Z.ltb_spec (exact_local_row geom p.1.1 p.1.2 p.2)
              (Z.of_nat (length (nonzerosInRow st)))) as [_|]; [|lia].
  cbn [andb]. cbv zeta.
  rewrite !stencil_loops_row_exact by assumption.
  unfold exact_generate_at, exact_generate_row in *. cbv zeta in *.
  cbn [localNumberOfNonzeros] in Hcount.
  rewrite max_int_bits by exact HL.
  set (c := localNumberOfNonzeros st + _) in *.
  rewrite !(wrap_representable (local_bits T) c) by (try lia; exact Hcount).
  reflexivity.
Qed.

End Refinement.

(** ** The row loops *)

Lemma generate_rows_order T geom st :
  generate_rows T geom st = fold_left (generate_at T geom) (points geom) st.
Proof.
  unfold generate_rows, points.
  rewrite fold_left_bind. apply fold_left_pointwise. intros s1 iz.
  rewrite fold_left_bind. apply fold_left_pointwise. intros s2 iy.
  rewrite fold_left_bind. apply fold_left_pointwise. intros s3 ix.
  reflexivity.
Qed.

Lemma exact_rows_length geom l st :
  length (nonzerosInRow (fold_left (exact_generate_at geom) l st))
  = length (nonzerosInRow st).
Proof.
  induction l as [|q l IH] using rev_ind; [reflexivity|].
  rewrite fold_left_app. cbn [fold_left].
  unfold exact_generate_at at 1, exact_generate_row. cbn [nonzerosInRow].
  rewrite length_insert. exact IH.
Qed.

(** The row loops over local points, in any order, do what the exact
    generation does, as long as the count of nonzeros they reach fits
    [local_int_t]. *)
Lemma generate_points_exact T geom l st :
  valid_geometry geom -> rows_without_overflow T geom ->
  (forall p, p ∈ l -> local_point geom p) ->
  length (nonzerosInRow st) = Z.to_nat (nx geom * ny geom * nz geom) ->
  0 <= localNumberOfNonzeros st ->
  representable (local_bits T)
    (localNumberOfNonzeros (fold_left (exact_generate_at geom) l st)) ->
  fold_left (generate_at T geom) l (Some st)
  = Some (fold_left (exact_generate_at geom) l st).
Proof.
  intros Hv Hfit Hl Hlen Hst.
  induction l as [|q l IH] using rev_ind; intros Hcount; [reflexivity|].
  rewrite !fold_left_app in *. cbn [fold_left] in *.
  set (st' := fold_left (exact_generate_at geom) l st) in *.
  assert (Hq : local_point geom q).
  { apply Hl, elem_of_app. right. apply list_elem_of_singleton. reflexivity. }
  pose proof (generate_points_nonzeros geom 0 l st
                ltac:(intros; lia)) as Hlow. fold st' in Hlow.
  pose proof (generate_at_nonzeros geom st' q) as Hstep.
  rewrite IH.
  - unfold generate_at. cbn [mbind option_bind].
    apply generate_row_exact; try assumption.
    unfold st'. rewrite exact_rows_length. exact Hlen.
  - intros p Hp. apply Hl, elem_of_app. left. exact Hp.
  - apply (representable_below _ _
             (localNumberOfNonzeros (exact_generate_at geom st' q)));
      [destruct Hfit; lia | lia | exact Hcount].
Qed.

(** The counts that the assertions test. *)
Lemma machine_localNumberOfRows_fits T geom :
  valid_geometry geom -> 32 <= local_bits T ->
  representable int_bits (nx geom * ny geom * nz geom) ->
  machine_localNumberOfRows T geom = nx geom * ny geom * nz geom.
Proof.
  intros Hv HL Hrows. apply (proj1 (representable_int _)) in Hrows. destruct Hv.
  assert (0 < nx geom * ny geom) by (apply Z.mul_pos_pos; lia).
  assert (nx geom * ny geom <= nx geom * ny geom * nz geom) by nia.
  unfold machine_localNumberOfRows.
  rewrite (wrap_small int_bits (nx geom * ny geom)) by (unfold int_bits; lia).
  rewrite (wrap_small int_bits) by (unfold int_bits; lia).
  apply wrap_small; lia.
Qed.

Lemma machine_totalNumberOfRows_fits T geom :
  valid_geometry geom -> 32 <= local_bits T -> 32 <= global_bits T ->
  representable int_bits (nx geom * ny geom * nz geom) ->
  representable (local_bits T) (nx geom * ny geom * nz geom * size geom) ->
  representable (global_bits T) (nx geom * ny geom * nz geom * size geom) ->
  machine_totalNumberOfRows T geom = nx geom * ny geom * nz geom * size geom.
Proof.
  intros Hv HL HG Hrows Hlocal Hglobal.
  unfold machine_totalNumberOfRows.
  rewrite (machine_localNumberOfRows_fits T geom Hv HL Hrows).
  rewrite max_int_bits by exact HL.
  rewrite (wrap_representable (local_bits T)) by (try lia; exact Hlocal).
  apply wrap_representable; [lia | exact Hglobal].
Qed.

Lemma reduction_fits T others c :
  32 <= global_bits T -> 0 < c -> Forall (fun c => 0 <= c) others ->
  representable long_long_bits (MPI_Allreduce_SUM c others) ->
  representable (global_bits T) (MPI_Allreduce_SUM c others) ->
  wrap (global_bits T)
    (wrap long_long_bits (MPI_Allreduce_SUM (wrap long_long_bits c) others))
  = MPI_Allreduce_SUM c others
  /\ 0 < MPI_Allreduce_SUM c others.
Proof.
  intros HG Hpos Hothers H64 Hsum.
  pose proof (MPI_Allreduce_SUM_ge c others Hothers) as Hge.
  rewrite (wrap_below long_long_bits c (MPI_Allreduce_SUM c others))
    by (try reflexivity; try lia; exact H64).
  rewrite (wrap_representable long_long_bits) by (try reflexivity; exact H64).
  split; [|lia].
  apply wrap_representable; [lia | exact Hsum].
Qed.

Section Run.
Variable T : index_types.
Variable geom : Geometry.
Hypothesis Hvalid : valid_geometry geom.
Hypothesis Hfit : rows_without_overflow T geom.

Lemma block_nonzeros_exact : exact_local_nonzeros geom = block_nonzeros geom.
Proof. apply local_nonzeros_closed_form, Hvalid. Qed.

Lemma machine_localNumberOfRows_exact :
  machine_localNumberOfRows T geom = nx geom * ny geom * nz geom.
Proof. apply machine_localNumberOfRows_fits; [exact Hvalid | apply Hfit | apply Hfit]. Qed.

(** The rows generated in any order of the local points. *)
Lemma generate_in_order_exact order :
  order ≡ₚ points geom ->
  generate_in_order T geom order
  = Some (exact_generate_rows geom (allocate (nx geom * ny geom * nz geom))).
Proof.
  intros Horder. unfold generate_in_order.
  rewrite machine_localNumberOfRows_exact.
  assert (Hsame : fold_left (exact_generate_at geom) order
                    (allocate (nx geom * ny geom * nz geom))
                  = exact_generate_rows geom (allocate (nx geom * ny geom * nz geom))).
  { rewrite generate_rows_points. symmetry.
    apply (fold_left_permutation (exact_generate_at geom) (local_point geom)).
    - symmetry. exact Horder.
    - apply NoDup_points.
    - intros p. apply elem_of_points.
    - intros s p q Hp Hq Hne. apply generate_at_commute; assumption. }
  rewrite <- Hsame. apply generate_points_exact; try assumption.
  - intros p Hp. apply elem_of_points. rewrite <- Horder. exact Hp.
  - cbn [allocate nonzerosInRow]. apply length_replicate.
  - cbn [allocate localNumberOfNonzeros]. lia.
  - rewrite Hsame. fold (exact_local_nonzeros geom).
    rewrite block_nonzeros_exact. apply Hfit.
Qed.

Lemma generate_rows_exact :
  generate_rows T geom (Some (allocate (nx geom * ny geom * nz geom)))
  = Some (exact_generate_rows geom (allocate (nx geom * ny geom * nz geom))).
Proof.
  rewrite generate_rows_order.
  pose proof (generate_in_order_exact (points geom) ltac:(reflexivity)) as H.
  unfold generate_in_order in H. rewrite machine_localNumberOfRows_exact in H.
  exact H.
Qed.

End Run.

(** ** The run *)

Section Generated.
Variable T : index_types.
Variable others : list Z.
Variable geom : Geometry.
Hypothesis Hvalid : valid_geometry geom.
Hypothesis Hfit : no_overflow T others geom.

Lemma machine_totalNumberOfRows_exact :
  machine_totalNumberOfRows T geom = nx geom * ny geom * nz geom * size geom.
Proof.
  destruct Hfit as [Hrows HL HG _ _ _].
  apply machine_totalNumberOfRows_fits; try assumption; apply Hrows.
Qed.

Lemma block_nonzeros_positive : 0 < block_nonzeros geom.
Proof.
  rewrite <- (block_nonzeros_exact geom Hvalid).
  apply local_nonzeros_positive, Hvalid.
Qed.

Lemma reduction_exact :
  wrap (global_bits T)
    (wrap long_long_bits
       (MPI_Allreduce_SUM (wrap long_long_bits (block_nonzeros geom)) others))
  = MPI_Allreduce_SUM (block_nonzeros geom) others
  /\ 0 < MPI_Allreduce_SUM (block_nonzeros geom) others.
Proof.
  destruct Hfit as [Hrows _ _ Hothers H64 HG].
  apply reduction_fits; try assumption; [apply Hrows | exact block_nonzeros_positive].
Qed.

(** When nothing overflows, the run ends with the problem generated: the
    arrays, maps and vectors are those of the exact generation, and the
    counts are the exact counts. *)
Lemma GenerateProblem_run :
  GenerateProblem T others geom
  = Generated
      (let st := exact_generate_rows geom (allocate (nx geom * ny geom * nz geom)) in
       {| totalNumberOfRows := nx geom * ny geom * nz geom * size geom;
          totalNumberOfNonzeros := MPI_Allreduce_SUM (block_nonzeros geom) others;
          localNumberOfRows := nx geom * ny geom * nz geom;
          localNumberOfColumns := nx geom * ny geom * nz geom;
          localNumberOfNonzeros := block_nonzeros geom;
          nonzerosInRow := nonzerosInRow st;
          mtxIndG := mtxIndG st;
          mtxIndL := mtxIndL st;
          matrixValues := matrixValues st;
          matrixDiagonal := matrixDiagonal st;
          localToGlobalMap := localToGlobalMap st;
          globalToLocalMap := globalToLocalMap st;
          b := b st;
          x := x st;
          xexact := xexact st |}).
Proof.
  pose proof (rows_part T others geom Hfit) as Hrows.
  destruct (valid_geometry_rows geom Hvalid) as [Hpos Htotal].
  destruct reduction_exact as [Hsum Hsumpos].
  unfold GenerateProblem. cbv zeta.
  rewrite machine_totalNumberOfRows_exact.
  rewrite (machine_localNumberOfRows_exact T geom Hvalid Hrows).
  destruct (Z.gtb_spec (nx geom * ny geom * nz geom) 0) as [_|]; [|lia].
  destruct (Z.gtb_spec (nx geom * ny geom * nz geom * size geom) 0) as [_|]; [|lia].
  cbn [negb].
  rewrite (generate_rows_exact T geom Hvalid Hrows).
  fold (exact_local_nonzeros geom). rewrite (block_nonzeros_exact geom Hvalid).
  rewrite Hsum.
  destruct (Z.gtb_spec (MPI_Allreduce_SUM (block_nonzeros geom) others) 0) as [_|];
    [|lia].
  reflexivity.
Qed.

(** The generated problem, row by row. *)
Lemma run_rows :
  exists pr, GenerateProblem T others geom = Generated pr
    /\ localNumberOfRows pr = nx geom * ny geom * nz geom
    /\ well_sized (Z.to_nat (nx geom * ny geom * nz geom)) pr
    /\ (forall p, local_point geom p -> row_generated geom pr p)
    /\ forall r, 0 <= r < localNumberOfRows pr ->
         exists p, local_point geom p /\ exact_local_row geom p.1.1 p.1.2 p.2 = r
                   /\ p = point_of_row geom r /\ row_generated geom pr p.
Proof.
  eexists. split; [exact GenerateProblem_run|]. cbv zeta.
  assert (Hrow : forall p, local_point geom p ->
            row_generated geom
              (exact_generate_rows geom (allocate (nx geom * ny geom * nz geom))) p).
  { intros p Hp. exact (generate_rows_generated geom Hvalid p Hp). }
  split; [reflexivity|]. split; [exact (generate_rows_well_sized geom Hvalid)|].
  split; [exact Hrow|].
  cbn [localNumberOfRows]. intros r Hr.
  destruct (point_of_row_spec geom r) as [Hp E];
    [apply Hvalid | apply Hvalid | exact Hr|].
  exists (point_of_row geom r).
  split; [exact Hp|]. split; [exact E|]. split; [reflexivity|].
  exact (Hrow _ Hp).
Qed.

End Generated.

Lemma run_map T others geom pr g r :
  valid_geometry geom -> no_overflow T others geom ->
  GenerateProblem T others geom = Generated pr ->
  globalToLocalMap pr !! g = Some r ->
  exists p, local_point geom p /\ g = exact_global_row geom p.1.1 p.1.2 p.2
            /\ r = exact_local_row geom p.1.1 p.1.2 p.2.
Proof.
  intros Hv Hfit. rewrite (GenerateProblem_run T others geom Hv Hfit).
  intros [= <-]. cbn [globalToLocalMap].
  rewrite generate_rows_points.
  intros [Hempty | (p & Hp%elem_of_points & ? & ?)]%generate_points_map.
  - unfold allocate in Hempty. cbn [globalToLocalMap] in Hempty.
    rewrite lookup_empty in Hempty. discriminate.
  - eauto.
Qed.

Lemma run_fields T others geom pr :
  valid_geometry geom -> no_overflow T others geom ->
  GenerateProblem T others geom = Generated pr ->
  let st := exact_generate_rows geom (allocate (nx geom * ny geom * nz geom)) in
  nonzerosInRow pr = nonzerosInRow st
  /\ mtxIndG pr = mtxIndG st
  /\ mtxIndL pr = mtxIndL st
  /\ matrixValues pr = matrixValues st
  /\ localNumberOfRows pr = nx geom * ny geom * nz geom
  /\ localNumberOfColumns pr = nx geom * ny geom * nz geom
  /\ totalNumberOfRows pr = nx geom * ny geom * nz geom * size geom
  /\ localNumberOfNonzeros pr = block_nonzeros geom
  /\ totalNumberOfNonzeros pr = MPI_Allreduce_SUM (block_nonzeros geom) others.
Proof.
  intros Hv Hfit. rewrite (GenerateProblem_run T others geom Hv Hfit).
  intros [= <-]. cbn. split_and!; reflexivity.
Qed.

(** A concrete run in which nothing overflows, by evaluation. *)
Ltac run_fits :=
  repeat match goal with
  | |- no_overflow _ _ _ => constructor
  | |- only_plane_may_overflow _ _ _ => constructor
  | |- indices_fit _ _ => constructor
  | |- run_without_overflow _ _ _ => constructor
  | |- Forall _ (_ :: _) => constructor
  | |- rows_without_overflow _ _ => constructor
  | |- valid_geometry _ => constructor; simpl; lia
  | |- representable _ _ => vm_compute; split; [discriminate | reflexivity]
  | |- Forall _ [] => constructor
  | |- _ <= _ => vm_compute; discriminate
  end.

(** * The generated problem *)

(** ** The order of the stored columns *)



(** ** The diagonal entry and the values of a row *)



(** ** The local-to-global and global-to-local maps *)



(** ** The three vectors *)

Lemma vector_sum_Some (v : list (option double)) :
  Forall (fun cell => is_Some cell) v -> is_Some (vector_sum v).
Proof.
  unfold vector_sum. generalize zero.
  induction v as [|cell v IH]; intros acc Hv; [eauto|].
  apply Forall_cons in Hv as [[c ->] Hv]. cbn [fold_left]. apply IH, Hv.
Qed.

(** C5: in a run in which nothing overflows, [nx*ny*nz] local rows are
    generated, and in every one of them [x] is 0.0, [xexact] is 1.0 and [b]
    is [27.0 - (nnzInRow - 1)], an exactly computed value; so [b] is, entry
    by entry, the vector of the [(27 - (nnz[r]-1)) * xexact[r]], and the two
    sums over all rows are the same number; the three vectors have
    [nx*ny*nz] entries. *)
Theorem vectors_initialised (T : index_types) (others : list Z)
    (geom : Geometry) :
  valid_geometry geom -> no_overflow T others geom ->
  exists pr, GenerateProblem T others geom = Generated pr
    /\ localNumberOfRows pr = nx geom * ny geom * nz geom
    /\ (forall r, 0 <= r < localNumberOfRows pr ->
          exists count,
            nonzerosInRow pr !! Z.to_nat r = Some (Some count)
            /\ x pr !! Z.to_nat r = Some (Some (of_Z 0))
            /\ xexact pr !! Z.to_nat r = Some (Some (of_Z 1))
            /\ b pr !! Z.to_nat r = Some (Some (sub (of_Z 27) (of_Z (count - 1))))
            /\ sub (of_Z 27) (of_Z (count - 1)) = of_Z (27 - (count - 1)))
    /\ length (b pr) = Z.to_nat (nx geom * ny geom * nz geom)
    /\ length (x pr) = Z.to_nat (nx geom * ny geom * nz geom)
    /\ length (xexact pr) = Z.to_nat (nx geom * ny geom * nz geom)
    /\ b pr = rhs_from_counts pr
    /\ exists s, vector_sum (b pr) = Some s /\ vector_sum (rhs_from_counts pr) = Some s.
Proof.
  intros Hv Hfit.
  destruct (run_rows T others geom Hv Hfit) as (pr & Hgen & Hrows & Hsized & _ & Hall).
  assert (Hrow : forall r, 0 <= r < localNumberOfRows pr ->
            exists count,
              nonzerosInRow pr !! Z.to_nat r = Some (Some count)
              /\ x pr !! Z.to_nat r = Some (Some (of_Z 0))
              /\ xexact pr !! Z.to_nat r = Some (Some (of_Z 1))
              /\ b pr !! Z.to_nat r = Some (Some (sub (of_Z 27) (of_Z (count - 1))))
              /\ 0 <= count <= 27).
  { intros r Hr. destruct (Hall r Hr) as (p & Hp & E & _ & Hgenerated).
    destruct Hgenerated as (Hcount & _ & _ & _ & _ & _ & Hb & Hx & Hxe).
    rewrite E in *. eexists. split_and!; eauto.
    - apply row_entries_count_le.
    - apply row_entries_count_le. }
  assert (Hb : b pr = rhs_from_counts pr).
  { destruct Hsized as (Hn & _ & _ & _ & _ & Hlb & _ & Hlxe & _).
    apply list_eq. intros i. unfold rhs_from_counts. rewrite lookup_zip_with.
    destruct (decide (i < length (b pr))%nat) as [Hi | Hi].
    - destruct (Hrow (Z.of_nat i)) as (count & Hc & _ & Hxe & Hbi & Hle).
      { rewrite Hrows. destruct (valid_geometry_rows geom Hv). lia. }
      rewrite Nat2Z.id in Hc, Hxe, Hbi. rewrite Hbi, Hc, Hxe. cbn [mbind option_bind].
      destruct (rhs_exact count Hle) as [_ ->]. reflexivity.
    - rewrite (lookup_ge_None_2 (b pr)) by lia.
      rewrite (lookup_ge_None_2 (nonzerosInRow pr)) by lia. reflexivity. }
  assert (Hsum : is_Some (vector_sum (b pr))).
  { apply vector_sum_Some, Forall_lookup. intros i cell Hi.
    pose proof (lookup_lt_Some _ _ _ Hi) as Hlt.
    destruct Hsized as (_ & _ & _ & _ & _ & Hlb & _).
    destruct (Hrow (Z.of_nat i)) as (count & _ & _ & _ & Hbi & _).
    { rewrite Hrows. destruct (valid_geometry_rows geom Hv). lia. }
    rewrite Nat2Z.id, Hi in Hbi. injection Hbi as ->. eauto. }
  destruct Hsum as [s Hs].
  exists pr. split; [exact Hgen|]. split; [exact Hrows|]. split.
  { intros r Hr. destruct (Hrow r Hr) as (count & ? & ? & ? & ? & Hle).
    exists count. split_and!; auto. apply rhs_exact, Hle. }
  destruct Hsized as (_ & _ & _ & _ & _ & Hlb & Hlx & Hlxe & _).
  split; [exact Hlb|]. split; [exact Hlx|]. split; [exact Hlxe|].
  split; [exact Hb|].
  exists s. rewrite <- Hb. split; exact Hs.
Qed.

Lemma vectors_initialised_witness :
  exists pr, GenerateProblem int_and_long_long [] small_geometry = Generated pr
    /\ localNumberOfRows pr = nx small_geometry * ny small_geometry * nz small_geometry
    /\ (forall r, 0 <= r < localNumberOfRows pr ->
          exists count,
            nonzerosInRow pr !! Z.to_nat r = Some (Some count)
            /\ x pr !! Z.to_nat r = Some (Some (of_Z 0))
            /\ xexact pr !! Z.to_nat r = Some (Some (of_Z 1))
            /\ b pr !! Z.to_nat r = Some (Some (sub (of_Z 27) (of_Z (count - 1))))
            /\ sub (of_Z 27) (of_Z (count - 1)) = of_Z (27 - (count - 1)))
    /\ length (b pr)
       = Z.to_nat (nx small_geometry * ny small_geometry * nz small_geometry)
    /\ length (x pr)
       = Z.to_nat (nx small_geometry * ny small_geometry * nz small_geometry)
    /\ length (xexact pr)
       = Z.to_nat (nx small_geometry * ny small_geometry * nz small_geometry)
    /\ b pr = rhs_from_counts pr
    /\ exists s, vector_sum (b pr) = Some s /\ vector_sum (rhs_from_counts pr) = Some s.
Proof.
  apply (vectors_initialised int_and_long_long [] small_geometry); run_fits.
Defined.

(** ** The number of nonzeros of a row *)



(** C7, as amended: in a run in which nothing overflows, [nx*ny*nz] local
    rows are generated; every one of them holds between 1 and 27 nonzeros
    and its diagonal pointer is set, to a slot below the count; the count is
    at least 8 when the global domain has an extent of at least 2 in every
    axis. *)
Theorem nonzeros_and_diagonal_slot (T : index_types) (others : list Z)
    (geom : Geometry) :
  valid_geometry geom -> no_overflow T others geom ->
  exists pr, GenerateProblem T others geom = Generated pr
    /\ localNumberOfRows pr = nx geom * ny geom * nz geom
    /\ forall r, 0 <= r < localNumberOfRows pr ->
         exists count d, nonzerosInRow pr !! Z.to_nat r = Some (Some count)
           /\ 1 <= count <= 27
           /\ matrixDiagonal pr !! Z.to_nat r = Some (Some d)
           /\ Z.of_nat d < count
           /\ (2 <= nx geom * npx geom -> 2 <= ny geom * npy geom ->
               2 <= nz geom * npz geom -> 8 <= count).
Proof.
  intros Hv Hfit.
  destruct (run_rows T others geom Hv Hfit) as (pr & Hgen & Hrows & _ & _ & Hall).
  exists pr. split; [exact Hgen|]. split; [exact Hrows|]. intros r Hr.
  destruct (Hall r Hr) as (p & Hp & E & _ & Hrow).
  destruct Hrow as (Hcount & _ & _ & (d & Hdiag & Hd) & _). rewrite E in *.
  exists (Z.of_nat (length (row_entries geom p))), d. split_and!; auto.
  - apply row_count_range; assumption.
  - apply row_count_range; assumption.
  - apply lookup_lt_Some in Hd. lia.
  - intros. apply row_count_ge_8; assumption.
Qed.

Lemma nonzeros_and_diagonal_slot_witness :
  exists pr, GenerateProblem int_and_long_long [] small_geometry = Generated pr
    /\ localNumberOfRows pr = nx small_geometry * ny small_geometry * nz small_geometry
    /\ forall r, 0 <= r < localNumberOfRows pr ->
         exists count d, nonzerosInRow pr !! Z.to_nat r = Some (Some count)
           /\ 1 <= count <= 27
           /\ matrixDiagonal pr !! Z.to_nat r = Some (Some d)
           /\ Z.of_nat d < count
           /\ (2 <= nx small_geometry * npx small_geometry ->
               2 <= ny small_geometry * npy small_geometry ->
               2 <= nz small_geometry * npz small_geometry -> 8 <= count).
Proof.
  apply (nonzeros_and_diagonal_slot int_and_long_long [] small_geometry); run_fits.
Defined.

(** C7 as stated fails on the smallest domain, where nothing overflows: one
    point on one process has an extent of 1 in every axis, and its only row
    holds one nonzero, the diagonal. *)
Lemma single_point_counterexample :
  valid_geometry single_point
  /\ no_overflow int_and_long_long [] single_point
  /\ 1 <= gnx single_point /\ 1 <= gny single_point /\ 1 <= gnz single_point
  /\ ~ every_row_has_8_to_27 int_and_long_long [] single_point.
Proof.
  split; [exact valid_single_point|]. split; [run_fits|].
  split_and!; try (vm_compute; discriminate).
  intros (pr & Hgen & Hrows).
  vm_compute in Hgen. injection Hgen as <-.
  destruct (Hrows 0) as (count & d & Hcount & Hle & _); [simpl; lia|].
  vm_compute in Hcount. injection Hcount as <-. lia.
Qed.

(** ** The minimal rows of a corner process *)

(** C8, as amended: when nx, ny, nz, npx, npy, npz are all at least 3, the
    process sits at a corner of the process grid and nothing overflows in
    the run, [nx*ny*nz] local rows are generated, the minimum nonzero count
    of these rows is 8 and exactly one local row has it: the row of the
    local corner that is a corner of the global domain. *)
Theorem corner_process_has_one_minimal_row (T : index_types) (others : list Z)
    (geom : Geometry) :
  valid_geometry geom -> no_overflow T others geom ->
  3 <= nx geom -> 3 <= ny geom -> 3 <= nz geom ->
  3 <= npx geom -> 3 <= npy geom -> 3 <= npz geom ->
  corner_process geom ->
  exists pr, GenerateProblem T others geom = Generated pr
    /\ localNumberOfRows pr = nx geom * ny geom * nz geom
    /\ 0 <= corner_row geom < localNumberOfRows pr
    /\ (forall r, 0 <= r < localNumberOfRows pr ->
          exists count, nonzerosInRow pr !! Z.to_nat r = Some (Some count)
                        /\ 8 <= count /\ (count = 8 <-> r = corner_row geom))
    /\ minimum_count pr 8
    /\ length (rows_with_count 8 pr) = 1%nat.
Proof.
  intros Hvalid Hfit Hnx Hny Hnz Hnpx Hnpy Hnpz Hcorner.
  pose proof (corner_point_local geom Hnx Hny Hnz) as Hcp.
  destruct (global_extents_ge_9 geom) as (Gx & Gy & Gz); try assumption.
  destruct (run_rows T others geom Hvalid Hfit)
    as (pr & Hgen & Hrows & Hsized & _ & Hall).
  assert (Hc : 0 <= corner_row geom < localNumberOfRows pr).
  { rewrite Hrows. apply local_row_range, Hcp. }
  assert (Hrow : forall r, 0 <= r < localNumberOfRows pr ->
            exists count, nonzerosInRow pr !! Z.to_nat r = Some (Some count)
                          /\ 8 <= count /\ (count = 8 <-> r = corner_row geom)).
  { intros r Hr. destruct (Hall r Hr) as (p & Hp & E & _ & Hrow).
    destruct Hrow as (Hcount & _). rewrite E in Hcount.
    eexists. split; [exact Hcount|]. split.
    - apply row_count_ge_8; auto; lia.
    - rewrite (corner_point_count geom Hvalid Hnx Hny Hnz Hnpx Hnpy Hnpz Hcorner p Hp).
      split.
      + intros ->. symmetry. exact E.
      + intros ->. apply (local_row_inj geom); auto. }
  assert (Hlen : length (nonzerosInRow pr) = Z.to_nat (localNumberOfRows pr)).
  { destruct Hsized as (-> & _). rewrite Hrows. reflexivity. }
  assert (Hcell : forall i cell, nonzerosInRow pr !! i = Some cell ->
            exists count, cell = Some count /\ 8 <= count
                          /\ (count = 8 <-> Z.of_nat i = corner_row geom)).
  { intros i cell Hi. pose proof (lookup_lt_Some _ _ _ Hi).
    destruct (Hrow (Z.of_nat i)) as (count & Hcount & Hge & Hiff); [lia|].
    rewrite Nat2Z.id in Hcount. exists count. split_and!; auto. congruence. }
  exists pr. split; [exact Hgen|]. split; [exact Hrows|]. split; [exact Hc|]. split; [exact Hrow|].
  split; [split|].
  - destruct (Hrow _ Hc) as (count & Hcount & _ & Hiff).
    rewrite (proj2 Hiff eq_refl) in Hcount. eapply list_elem_of_lookup_2, Hcount.
  - intros c (i & Hi)%list_elem_of_lookup_1.
    destruct (Hcell _ _ Hi) as (count & [= ->] & Hge & _). exact Hge.
  - unfold rows_with_count.
    apply (filter_one _ _ (Z.to_nat (corner_row geom))); [lia|].
    intros i cell Hi. destruct (Hcell _ _ Hi) as (count & -> & _ & Hiff). split.
    + intros [= ->]. apply proj1 in Hiff. specialize (Hiff eq_refl). lia.
    + intros ->. f_equal. apply Hiff. lia.
Qed.

Lemma corner_geometry_is_corner :
  valid_geometry corner_geometry
  /\ 3 <= nx corner_geometry /\ 3 <= ny corner_geometry /\ 3 <= nz corner_geometry
  /\ 3 <= npx corner_geometry /\ 3 <= npy corner_geometry /\ 3 <= npz corner_geometry
  /\ corner_process corner_geometry.
Proof.
  split; [exact valid_corner_geometry|].
  unfold corner_process. simpl. lia.
Qed.

Lemma corner_process_has_one_minimal_row_witness :
  exists pr, GenerateProblem int_and_long_long [] corner_geometry = Generated pr
    /\ localNumberOfRows pr = nx corner_geometry * ny corner_geometry * nz corner_geometry
    /\ 0 <= corner_row corner_geometry < localNumberOfRows pr
    /\ (forall r, 0 <= r < localNumberOfRows pr ->
          exists count, nonzerosInRow pr !! Z.to_nat r = Some (Some count)
                        /\ 8 <= count /\ (count = 8 <-> r = corner_row corner_geometry))
    /\ minimum_count pr 8
    /\ length (rows_with_count 8 pr) = 1%nat.
Proof.
  apply (corner_process_has_one_minimal_row int_and_long_long [] corner_geometry);
    [run_fits .. | simpl; lia | simpl; lia | simpl; lia | simpl; lia | simpl; lia
    | simpl; lia | unfold corner_process; simpl; lia].
Defined.

(** The nonzero counts of the 27 rows of [corner_geometry], row after row. *)
Lemma corner_geometry_counts pr :
  GenerateProblem int_and_long_long [] corner_geometry = Generated pr ->
  nonzerosInRow pr
  = map Some [8; 12; 12; 12; 18; 18; 12; 18; 18;
              12; 18; 18; 18; 27; 27; 18; 27; 27;
              12; 18; 18; 18; 27; 27; 18; 27; 27].
Proof.
  intros Hgen. vm_compute in Hgen. injection Hgen as <-. reflexivity.
Qed.

(** C8 as stated fails where nothing overflows: the process at the corner
    (0,0,0) of a 3x3x3 process grid, with a 3x3x3 local block, has a single
    row with the minimum count 8, the row of the local point (0,0,0); its 7
    other local corners are not corners of the global domain and hold 12, 18
    or 27 nonzeros. *)
Lemma corner_rows_counterexample :
  (valid_geometry corner_geometry
   /\ 3 <= nx corner_geometry /\ 3 <= ny corner_geometry /\ 3 <= nz corner_geometry
   /\ 3 <= npx corner_geometry /\ 3 <= npy corner_geometry /\ 3 <= npz corner_geometry
   /\ corner_process corner_geometry)
  /\ no_overflow int_and_long_long [] corner_geometry
  /\ ~ corner_has_8_minimal_rows int_and_long_long [] corner_geometry.
Proof.
  split; [exact corner_geometry_is_corner|]. split; [run_fits|].
  intros (pr & m & Hgen & [Hin Hmin] & Hlen).
  apply corner_geometry_counts in Hgen. unfold rows_with_count in Hlen.
  rewrite Hgen in Hin, Hmin, Hlen. clear Hgen.
  assert (Hm : m <= 8) by (apply Hmin, list_elem_of_here).
  cbn [map] in Hin.
  repeat (apply elem_of_cons in Hin as [[= ->] | Hin]; [try lia|]);
    try (inversion Hin).
  vm_compute in Hlen. discriminate.
Qed.

(** ** The number of nonzeros of a row as a product *)

(** X1: in a run in which nothing overflows, [nx*ny*nz] local rows are
    generated, and the nonzero count of every one of them is the product,
    over the three axes, of the number of grid points among the point and
    its two axis neighbours that lie inside the global domain; it is 27
    exactly for the rows of the points whose 26 neighbours all lie inside
    the domain. *)
Theorem nonzeros_closed_form (T : index_types) (others : list Z)
    (geom : Geometry) :
  valid_geometry geom -> no_overflow T others geom ->
  exists pr, GenerateProblem T others geom = Generated pr
    /\ localNumberOfRows pr = nx geom * ny geom * nz geom
    /\ forall r, 0 <= r < localNumberOfRows pr ->
         let p := point_of_row geom r in
         exists count, nonzerosInRow pr !! Z.to_nat r = Some (Some count)
           /\ count = axis_neighbours (exact_global_z geom p.1.1) (exact_gnz geom)
                      * axis_neighbours (exact_global_y geom p.1.2) (exact_gny geom)
                      * axis_neighbours (exact_global_x geom p.2) (exact_gnx geom)
           /\ (count = 27 <-> interior_point geom p).
Proof.
  intros Hv Hfit.
  destruct (run_rows T others geom Hv Hfit) as (pr & Hgen & Hrows & _ & _ & Hall).
  exists pr. split; [exact Hgen|]. split; [exact Hrows|]. intros r Hr p.
  destruct (Hall r Hr) as (q & Hq & E & Epoint & Hrow).
  destruct Hrow as (Hcount & _). rewrite E in Hcount.
  assert (q = p) as -> by exact Epoint.
  destruct (global_point_range geom p Hv Hq) as (Gx & Gy & Gz).
  eexists. split; [exact Hcount|].
  rewrite row_entries_count, !axis_neighbours_count by assumption.
  split; [reflexivity|].
  rewrite product_27 by apply axis_neighbours_range.
  rewrite !axis_neighbours_3. unfold interior_point. tauto.
Qed.

Lemma nonzeros_closed_form_witness :
  exists pr, GenerateProblem int_and_long_long [] small_geometry = Generated pr
    /\ localNumberOfRows pr = nx small_geometry * ny small_geometry * nz small_geometry
    /\ forall r, 0 <= r < localNumberOfRows pr ->
         let p := point_of_row small_geometry r in
         exists count, nonzerosInRow pr !! Z.to_nat r = Some (Some count)
           /\ count = axis_neighbours (exact_global_z small_geometry p.1.1) (exact_gnz small_geometry)
                      * axis_neighbours (exact_global_y small_geometry p.1.2) (exact_gny small_geometry)
                      * axis_neighbours (exact_global_x small_geometry p.2) (exact_gnx small_geometry)
           /\ (count = 27 <-> interior_point small_geometry p).
Proof.
  apply (nonzeros_closed_form int_and_long_long [] small_geometry); run_fits.
Defined.

(** ** The sparsity pattern *)

(** X2: in a run in which nothing overflows, [nx*ny*nz] local rows are
    generated, and the global column indices stored in every one of them are
    exactly the global rows of the grid points of the global domain that
    differ from the point of the row by at most 1 in every axis; each of
    them is a row index of the global matrix. *)
Theorem stored_columns_are_neighbours (T : index_types) (others : list Z)
    (geom : Geometry) :
  valid_geometry geom -> no_overflow T others geom ->
  exists pr, GenerateProblem T others geom = Generated pr
    /\ localNumberOfRows pr = nx geom * ny geom * nz geom
    /\ forall r, 0 <= r < localNumberOfRows pr ->
         let p := point_of_row geom r in
         exists count js,
           nonzerosInRow pr !! Z.to_nat r = Some (Some count)
           /\ mtxIndG pr !! Z.to_nat r = Some js
           /\ (forall j c, Z.of_nat j < count -> js !! j = Some (Some c) ->
                 0 <= c < exact_gnx geom * exact_gny geom * exact_gnz geom)
           /\ forall c,
                (exists j, Z.of_nat j < count /\ js !! j = Some (Some c))
                <-> exists z y x,
                      0 <= z < exact_gnz geom /\ 0 <= y < exact_gny geom /\ 0 <= x < exact_gnx geom
                      /\ Z.abs (z - exact_global_z geom p.1.1) <= 1
                      /\ Z.abs (y - exact_global_y geom p.1.2) <= 1
                      /\ Z.abs (x - exact_global_x geom p.2) <= 1
                      /\ c = z * exact_gnx geom * exact_gny geom + y * exact_gnx geom + x.
Proof.
  intros Hv Hfit.
  destruct (run_rows T others geom Hv Hfit) as (pr & Hgen & Hrows & _ & _ & Hall).
  exists pr. split; [exact Hgen|]. split; [exact Hrows|]. intros r Hr p.
  destruct (Hall r Hr) as (q & Hq & E & Epoint & Hrow).
  assert (q = p) as -> by exact Epoint.
  destruct Hrow as (Hcount & _ & (js & Hjs & _ & Hslots) & _).
  rewrite E in Hcount, Hjs.
  exists (Z.of_nat (length (row_entries geom p))), js.
  split; [exact Hcount|]. split; [exact Hjs|].
  assert (Hstored : forall j c,
    Z.of_nat j < Z.of_nat (length (row_entries geom p)) ->
    js !! j = Some (Some c) ->
    exists o, o ∈ row_entries geom p /\ c = column geom p o).
  { intros j c Hj Hc.
    destruct (lookup_lt_is_Some_2 (row_entries geom p) j) as [o Ho]; [lia|].
    exists o. split; [eapply list_elem_of_lookup_2, Ho|].
    rewrite (Hslots j o Ho) in Hc. congruence. }
  split.
  - intros j c Hj Hc. destruct (Hstored j c Hj Hc) as (o & Ho & ->).
    apply elem_of_row_entries in Ho as (_ & Hz & Hy & Hx).
    rewrite column_lin.
    assert (0 <= (exact_global_y geom p.1.2 + o.1.2) * exact_gnx geom
                 + (exact_global_x geom p.2 + o.2) < exact_gnx geom * exact_gny geom) by nia.
    nia.
  - intros c. split.
    + intros (j & Hj & Hc). destruct (Hstored j c Hj Hc) as (o & Ho & ->).
      apply elem_of_row_entries in Ho as ((Sz & Sy & Sx) & Hz & Hy & Hx).
      apply elem_of_stencil in Sz, Sy, Sx.
      exists (exact_global_z geom p.1.1 + o.1.1), (exact_global_y geom p.1.2 + o.1.2),
        (exact_global_x geom p.2 + o.2).
      rewrite column_lin. split_and!; try lia; reflexivity.
    + intros (z & y & x & Hz & Hy & Hx & Az & Ay & Ax & ->).
      set (o := (z - exact_global_z geom p.1.1, y - exact_global_y geom p.1.2,
                 x - exact_global_x geom p.2)).
      assert (Ho : o ∈ row_entries geom p).
      { apply elem_of_row_entries. rewrite !elem_of_stencil.
        unfold o; cbn [fst snd]. split_and!; lia. }
      apply list_elem_of_lookup_1 in Ho as [j Ho].
      exists j. split; [apply lookup_lt_Some in Ho; lia|].
      rewrite (Hslots j o Ho), column_lin. unfold o; cbn [fst snd].
      do 2 f_equal. ring.
Qed.

Lemma stored_columns_are_neighbours_witness :
  exists pr, GenerateProblem int_and_long_long [] small_geometry = Generated pr
    /\ localNumberOfRows pr = nx small_geometry * ny small_geometry * nz small_geometry
    /\ forall r, 0 <= r < localNumberOfRows pr ->
         let p := point_of_row small_geometry r in
         exists count js,
           nonzerosInRow pr !! Z.to_nat r = Some (Some count)
           /\ mtxIndG pr !! Z.to_nat r = Some js
           /\ (forall j c, Z.of_nat j < count -> js !! j = Some (Some c) ->
                 0 <= c < exact_gnx small_geometry * exact_gny small_geometry * exact_gnz small_geometry)
           /\ forall c,
                (exists j, Z.of_nat j < count /\ js !! j = Some (Some c))
                <-> exists z y x,
                      0 <= z < exact_gnz small_geometry /\ 0 <= y < exact_gny small_geometry
                      /\ 0 <= x < exact_gnx small_geometry
                      /\ Z.abs (z - exact_global_z small_geometry p.1.1) <= 1
                      /\ Z.abs (y - exact_global_y small_geometry p.1.2) <= 1
                      /\ Z.abs (x - exact_global_x small_geometry p.2) <= 1
                      /\ c = z * exact_gnx small_geometry * exact_gny small_geometry
                             + y * exact_gnx small_geometry + x.
Proof.
  apply (stored_columns_are_neighbours int_and_long_long [] small_geometry); run_fits.
Defined.

(** ** The order of the local-to-global map *)

(** X7: in a run in which nothing overflows, [nx*ny*nz] local rows are
    generated and the local-to-global map is strictly increasing, so the
    local rows are numbered in the order of their global indices; the entry
    of the local row of the point [(iz, iy, ix)] is the index of the point
    [(ipz*nz+iz, ipy*ny+iy, ipx*nx+ix)] in the global grid, a row index of
    the global matrix. *)
Theorem local_to_global_increasing (T : index_types) (others : list Z)
    (geom : Geometry) :
  valid_geometry geom -> no_overflow T others geom ->
  exists pr, GenerateProblem T others geom = Generated pr
    /\ localNumberOfRows pr = nx geom * ny geom * nz geom
    /\ (forall r, 0 <= r < localNumberOfRows pr ->
          let p := point_of_row geom r in
          localToGlobalMap pr !! Z.to_nat r
          = Some ((ipz geom * nz geom + p.1.1) * exact_gnx geom * exact_gny geom
                  + (ipy geom * ny geom + p.1.2) * exact_gnx geom
                  + (ipx geom * nx geom + p.2)))
    /\ (forall r g, localToGlobalMap pr !! Z.to_nat r = Some g ->
          0 <= r < localNumberOfRows pr ->
          0 <= g < exact_gnx geom * exact_gny geom * exact_gnz geom)
    /\ (forall r r' g g', 0 <= r -> r < r' -> r' < localNumberOfRows pr ->
          localToGlobalMap pr !! Z.to_nat r = Some g ->
          localToGlobalMap pr !! Z.to_nat r' = Some g' -> g < g').
Proof.
  intros Hv Hfit.
  destruct (run_rows T others geom Hv Hfit) as (pr & Hgen & Hrows & _ & _ & Hall).
  assert (Hentry : forall r, 0 <= r < localNumberOfRows pr ->
            local_point geom (point_of_row geom r)
            /\ exact_local_row geom (point_of_row geom r).1.1 (point_of_row geom r).1.2
                 (point_of_row geom r).2 = r
            /\ localToGlobalMap pr !! Z.to_nat r
               = Some (exact_global_row geom (point_of_row geom r).1.1
                         (point_of_row geom r).1.2 (point_of_row geom r).2)).
  { intros r Hr. destruct (Hall r Hr) as (p & Hp & E & -> & Hrow).
    destruct Hrow as (_ & _ & _ & _ & Hl2g & _). rewrite E in Hl2g. auto. }
  exists pr. split; [exact Hgen|]. split; [exact Hrows|]. split_and!.
  - intros r Hr p. destruct (Hentry r Hr) as (_ & _ & ->). reflexivity.
  - intros r g Hg Hr. destruct (Hentry r Hr) as (Hp & _ & Hl).
    set (p := point_of_row geom r) in *.
    assert (g = exact_global_row geom p.1.1 p.1.2 p.2) as -> by congruence.
    destruct (global_point_range geom _ Hv Hp) as (Gx & Gy & Gz).
    unfold exact_global_row.
    set (gx := exact_global_x geom p.2) in *.
    set (gy := exact_global_y geom p.1.2) in *.
    set (gz := exact_global_z geom p.1.1) in *.
    assert (Hxy : 0 <= gy * exact_gnx geom + gx < exact_gnx geom * exact_gny geom) by nia.
    assert (Hz : 0 <= gz * (exact_gnx geom * exact_gny geom)
                 <= (exact_gnz geom - 1) * (exact_gnx geom * exact_gny geom)) by nia.
    replace (gz * exact_gnx geom * exact_gny geom) with (gz * (exact_gnx geom * exact_gny geom)) by ring.
    replace (exact_gnx geom * exact_gny geom * exact_gnz geom)
      with ((exact_gnz geom - 1) * (exact_gnx geom * exact_gny geom) + exact_gnx geom * exact_gny geom) by ring.
    lia.
  - intros r r' g g' H0 Hlt Hr' Hg Hg'.
    destruct (Hentry r) as (Hp & Er & Hl); [lia|].
    destruct (Hentry r') as (Hp' & Er' & Hl'); [lia|].
    set (p := point_of_row geom r) in *. set (p' := point_of_row geom r') in *.
    assert (g = exact_global_row geom p.1.1 p.1.2 p.2) as -> by congruence.
    assert (g' = exact_global_row geom p'.1.1 p'.1.2 p'.2) as -> by congruence.
    destruct (global_point_range geom _ Hv Hp) as (Gx & Gy & Gz).
    destruct (global_point_range geom _ Hv Hp') as (Gx' & Gy' & Gz').
    pose proof (row_order_is_loop_order geom _ _ Hp Hp' ltac:(lia)) as Hord.
    unfold exact_global_row. apply lin3_lt; try assumption.
    unfold exact_global_z, exact_global_y, exact_global_x. lia.
Qed.

Lemma local_to_global_increasing_witness :
  exists pr, GenerateProblem int_and_long_long [] small_geometry = Generated pr
    /\ localNumberOfRows pr = nx small_geometry * ny small_geometry * nz small_geometry
    /\ (forall r, 0 <= r < localNumberOfRows pr ->
          let p := point_of_row small_geometry r in
          localToGlobalMap pr !! Z.to_nat r
          = Some ((ipz small_geometry * nz small_geometry + p.1.1)
                    * exact_gnx small_geometry * exact_gny small_geometry
                  + (ipy small_geometry * ny small_geometry + p.1.2) * exact_gnx small_geometry
                  + (ipx small_geometry * nx small_geometry + p.2)))
    /\ (forall r g, localToGlobalMap pr !! Z.to_nat r = Some g ->
          0 <= r < localNumberOfRows pr ->
          0 <= g < exact_gnx small_geometry * exact_gny small_geometry * exact_gnz small_geometry)
    /\ (forall r r' g g', 0 <= r -> r < r' -> r' < localNumberOfRows pr ->
          localToGlobalMap pr !! Z.to_nat r = Some g ->
          localToGlobalMap pr !! Z.to_nat r' = Some g' -> g < g').
Proof.
  apply (local_to_global_increasing int_and_long_long [] small_geometry); run_fits.
Defined.

(** ** The slots that are not written *)

(** X8: in a run in which nothing overflows, [nx*ny*nz] local rows are
    generated, and of the 27 slots allocated for each of them only the first
    [nonzerosInRow[r]] are written: the slots of [matrixValues[r]] and
    [mtxIndG[r]] from the count on are left indeterminate; the local index
    arrays [mtxIndL[r]] are allocated and left indeterminate in all 27
    slots; and the number of local columns is set to the number of local
    rows. *)
Theorem slots_beyond_count_unset (T : index_types) (others : list Z)
    (geom : Geometry) :
  valid_geometry geom -> no_overflow T others geom ->
  exists pr, GenerateProblem T others geom = Generated pr
    /\ localNumberOfRows pr = nx geom * ny geom * nz geom
    /\ localNumberOfColumns pr = localNumberOfRows pr
    /\ Z.of_nat (length (mtxIndL pr)) = localNumberOfRows pr
    /\ forall r, 0 <= r < localNumberOfRows pr ->
         exists count vs js,
           nonzerosInRow pr !! Z.to_nat r = Some (Some count)
           /\ matrixValues pr !! Z.to_nat r = Some vs
           /\ mtxIndG pr !! Z.to_nat r = Some js
           /\ length vs = 27%nat /\ length js = 27%nat
           /\ (forall j, (j < 27)%nat ->
                 (Z.of_nat j < count -> exists v c,
                    vs !! j = Some (Some v) /\ js !! j = Some (Some c))
                 /\ (count <= Z.of_nat j ->
                       vs !! j = Some None /\ js !! j = Some None))
           /\ mtxIndL pr !! Z.to_nat r = Some (replicate 27 None).
Proof.
  intros Hv Hfit.
  destruct (run_rows T others geom Hv Hfit) as (pr & Hgen & Hrows & _ & _ & Hall).
  destruct (run_fields T others geom pr Hv Hfit Hgen)
    as (_ & EG & EL & EV & _ & Hcols & _).
  destruct (valid_geometry_rows geom Hv) as [Hpos _].
  assert (HL : mtxIndL pr
               = replicate (Z.to_nat (nx geom * ny geom * nz geom))
                   (replicate 27 None)).
  { rewrite EL, generate_rows_points, generate_points_mtxIndL. reflexivity. }
  exists pr. split; [exact Hgen|]. split; [exact Hrows|]. split; [congruence|]. split.
  { rewrite HL, length_replicate, Hrows. lia. }
  intros r Hr.
  destruct (Hall r Hr) as (p & Hp & E & _ & Hrow).
  destruct Hrow as (Hcount & (vs & Hvs & Hlv & Hvslots) & (js & Hjs & Hlj & Hjslots) & _).
  rewrite E in Hcount, Hvs, Hjs.
  assert (Hun : unwritten geom pr p).
  { pose proof (generate_points_unwritten geom (points geom)
                  (allocate (nx geom * ny geom * nz geom))
                  (fun q Hq => proj1 (elem_of_points geom q) Hq)
                  (allocate_unwritten geom) p Hp) as H.
    rewrite <- generate_rows_points in H.
    unfold unwritten in *. rewrite EV, EG. exact H. }
  exists (Z.of_nat (length (row_entries geom p))), vs, js.
  split_and!; try assumption.
  - intros j Hj. split.
    + intros Hlt.
      destruct (lookup_lt_is_Some_2 (row_entries geom p) j) as [o Ho]; [lia|].
      eexists _, _. split; [apply (Hvslots j o Ho) | apply (Hjslots j o Ho)].
    + intros Hge. destruct (Hun j) as [Uv Uj].
      { unfold numberOfNonzerosPerRow. lia. }
      rewrite E in Uv, Uj. split; [apply Uv, Hvs | apply Uj, Hjs].
  - rewrite HL. apply lookup_replicate_2. rewrite Hrows in Hr. lia.
Qed.

Lemma slots_beyond_count_unset_witness :
  exists pr, GenerateProblem int_and_long_long [] small_geometry = Generated pr
    /\ localNumberOfRows pr = nx small_geometry * ny small_geometry * nz small_geometry
    /\ localNumberOfColumns pr = localNumberOfRows pr
    /\ Z.of_nat (length (mtxIndL pr)) = localNumberOfRows pr
    /\ forall r, 0 <= r < localNumberOfRows pr ->
         exists count vs js,
           nonzerosInRow pr !! Z.to_nat r = Some (Some count)
           /\ matrixValues pr !! Z.to_nat r = Some vs
           /\ mtxIndG pr !! Z.to_nat r = Some js
           /\ length vs = 27%nat /\ length js = 27%nat
           /\ (forall j, (j < 27)%nat ->
                 (Z.of_nat j < count -> exists v c,
                    vs !! j = Some (Some v) /\ js !! j = Some (Some c))
                 /\ (count <= Z.of_nat j ->
                       vs !! j = Some None /\ js !! j = Some None))
           /\ mtxIndL pr !! Z.to_nat r = Some (replicate 27 None).
Proof.
  apply (slots_beyond_count_unset int_and_long_long [] small_geometry); run_fits.
Defined.

(** ** The matrix applied to the exact solution *)

(** X9: in a run in which nothing overflows, [nx*ny*nz] local rows are
    generated, and in every one of them the product of the row with the
    exact solution, accumulated slot after slot in binary64 over the stored
    entries, is exactly the entry of the right-hand side: no rounding
    occurs, and the value is [28 - nonzerosInRow[r]], at least 1. *)
Theorem row_times_exact_solution (T : index_types) (others : list Z)
    (geom : Geometry) :
  valid_geometry geom -> no_overflow T others geom ->
  exists pr, GenerateProblem T others geom = Generated pr
    /\ localNumberOfRows pr = nx geom * ny geom * nz geom
    /\ forall r, 0 <= r < localNumberOfRows pr ->
         exists count vs bv,
           nonzerosInRow pr !! Z.to_nat r = Some (Some count)
           /\ matrixValues pr !! Z.to_nat r = Some vs
           /\ xexact pr !! Z.to_nat r = Some (Some (of_Z 1))
           /\ b pr !! Z.to_nat r = Some (Some bv)
           /\ row_times_constant (of_Z 1) count vs = Some bv
           /\ bv = of_Z (28 - count)
           /\ 1 <= 28 - count <= 27.
Proof.
  intros Hv Hfit.
  destruct (run_rows T others geom Hv Hfit) as (pr & Hgen & Hrows & _ & _ & Hall).
  exists pr. split; [exact Hgen|]. split; [exact Hrows|]. intros r Hr.
  destruct (Hall r Hr) as (p & Hp & E & _ & Hrow).
  destruct Hrow as (Hcount & (vs & Hvs & _ & Hvslots) & _ & (d & _ & Hd)
                    & _ & _ & Hb & _ & Hxe).
  rewrite E in *.
  set (count := Z.of_nat (length (row_entries geom p))) in *.
  pose proof (row_count_range geom p Hv Hp) as Hrange. fold count in Hrange.
  assert (Hdlt : Z.of_nat d < count).
  { apply lookup_lt_Some in Hd. unfold count. lia. }
  assert (Hslots : forall j, Z.of_nat j < count ->
            vs !! j = Some (Some (if decide (j = d) then of_Z 27 else of_Z (-1)))).
  { intros j Hj.
    destruct (lookup_lt_is_Some_2 (row_entries geom p) j) as [o Ho];
      [unfold count in Hj; lia|].
    rewrite (Hvslots j o Ho). do 2 f_equal.
    pose proof (column_eq_center geom p Hv Hp o
                  ltac:(eapply list_elem_of_lookup_2, Ho)) as Hc.
    destruct (Z.eqb_spec (column geom p o) (exact_global_row geom p.1.1 p.1.2 p.2))
      as [Ec | Ec]; destruct (decide (j = d)) as [Ej | Ej]; try reflexivity.
    - exfalso. apply Ej. apply Hc in Ec. subst o.
      eapply center_slot_unique; eauto.
    - exfalso. apply Ec, Hc. subst j. congruence. }
  destruct (rhs_exact count) as [Hexact _]; [lia|].
  exists count, vs, (sub (of_Z 27) (of_Z (count - 1))).
  split_and!; try assumption; try lia.
  - pose proof (row_partial_sums vs count d ltac:(lia) Hslots
                  (length (row_entries geom p)) ltac:(unfold count; lia)) as Hsum.
    fold count in Hsum. rewrite Hsum, decide_True by (unfold count in Hdlt; lia).
    rewrite Hexact. reflexivity.
  - rewrite Hexact. f_equal. lia.
Qed.

Lemma row_times_exact_solution_witness :
  exists pr, GenerateProblem int_and_long_long [] small_geometry = Generated pr
    /\ localNumberOfRows pr = nx small_geometry * ny small_geometry * nz small_geometry
    /\ forall r, 0 <= r < localNumberOfRows pr ->
         exists count vs bv,
           nonzerosInRow pr !! Z.to_nat r = Some (Some count)
           /\ matrixValues pr !! Z.to_nat r = Some vs
           /\ xexact pr !! Z.to_nat r = Some (Some (of_Z 1))
           /\ b pr !! Z.to_nat r = Some (Some bv)
           /\ row_times_constant (of_Z 1) count vs = Some bv
           /\ bv = of_Z (28 - count)
           /\ 1 <= 28 - count <= 27.
Proof.
  apply (row_times_exact_solution int_and_long_long [] small_geometry); run_fits.
Defined.

(** ** The local number of nonzeros *)

(** X10: in a run in which nothing overflows, the local nonzero count
    [GenerateProblem] records is the sum of the counts it stores in
    [nonzerosInRow], and is, along each axis, three times the local extent
    less one for each end of the global domain that the block of the process
    touches, multiplied over the three axes. *)
Theorem local_nonzeros_count (T : index_types) (others : list Z)
    (geom : Geometry) :
  valid_geometry geom -> no_overflow T others geom ->
  exists pr, GenerateProblem T others geom = Generated pr
    /\ localNumberOfRows pr = nx geom * ny geom * nz geom
    /\ localNumberOfNonzeros pr = sum_counts (nonzerosInRow pr)
    /\ localNumberOfNonzeros pr
       = axis_total (nz geom) (npz geom) (ipz geom)
         * axis_total (ny geom) (npy geom) (ipy geom)
         * axis_total (nx geom) (npx geom) (ipx geom)
    /\ localNumberOfRows pr <= localNumberOfNonzeros pr <= 27 * localNumberOfRows pr.
Proof.
  intros Hv Hfit.
  destruct (run_rows T others geom Hv Hfit) as (pr & Hgen & Hrows & _).
  destruct (run_fields T others geom pr Hv Hfit Hgen)
    as (ENZ & _ & _ & _ & _ & _ & _ & Hlocal & _).
  rewrite <- (block_nonzeros_exact geom Hv) in Hlocal.
  exists pr. split; [exact Hgen|]. split; [exact Hrows|].
  assert (Hform : localNumberOfNonzeros pr
                  = axis_total (nz geom) (npz geom) (ipz geom)
                    * axis_total (ny geom) (npy geom) (ipy geom)
                    * axis_total (nx geom) (npx geom) (ipx geom)).
  { rewrite Hlocal. apply local_nonzeros_closed_form, Hv. }
  split_and!.
  - rewrite Hlocal, ENZ. unfold exact_local_nonzeros. rewrite generate_rows_points.
    apply generate_points_sum.
    + apply NoDup_points.
    + intros q. apply elem_of_points.
    + cbn [allocate localNumberOfNonzeros nonzerosInRow].
      rewrite sum_counts_replicate. reflexivity.
    + intros p Hp. cbn [allocate nonzerosInRow]. apply lookup_replicate_2.
      pose proof (local_row_range geom p Hp). lia.
  - exact Hform.
  - rewrite Hlocal. unfold exact_local_nonzeros. rewrite generate_rows_points.
    pose proof (generate_points_nonzeros geom 1 (points geom)
                  (allocate (nx geom * ny geom * nz geom))) as Hlo.
    cbn [allocate localNumberOfNonzeros] in Hlo.
    rewrite length_points in Hlo.
    assert (Hlen : Z.of_nat (Z.to_nat (nz geom) * (Z.to_nat (ny geom) * Z.to_nat (nx geom)))
                   = nx geom * ny geom * nz geom).
    { destruct Hv. rewrite !Nat2Z.inj_mul, !Z2Nat.id by lia. ring. }
    rewrite Hlen in Hlo. rewrite Hrows.
    cbn [allocate localNumberOfNonzeros]. 
    assert (Hmin : forall p, p ∈ points geom -> 1 <= Z.of_nat (length (row_entries geom p))).
    { intros p Hp%elem_of_points. apply row_count_range; assumption. }
    specialize (Hlo Hmin). lia.
  - rewrite Hlocal, Hrows.
    destruct Hv. pose proof (local_nonzeros_le geom). lia.
Qed.

Lemma local_nonzeros_count_witness :
  exists pr, GenerateProblem int_and_long_long [] small_geometry = Generated pr
    /\ localNumberOfRows pr = nx small_geometry * ny small_geometry * nz small_geometry
    /\ localNumberOfNonzeros pr = sum_counts (nonzerosInRow pr)
    /\ localNumberOfNonzeros pr
       = axis_total (nz small_geometry) (npz small_geometry) (ipz small_geometry)
         * axis_total (ny small_geometry) (npy small_geometry) (ipy small_geometry)
         * axis_total (nx small_geometry) (npx small_geometry) (ipx small_geometry)
    /\ localNumberOfRows pr <= localNumberOfNonzeros pr <= 27 * localNumberOfRows pr.
Proof.
  apply (local_nonzeros_count int_and_long_long [] small_geometry); run_fits.
Defined.

(** ** The nonzeros of the whole run *)

Lemma MPI_Allreduce_SUM_elem local others c :
  0 <= local -> Forall (fun c => 0 <= c) others -> c ∈ others ->
  c <= MPI_Allreduce_SUM local others.
Proof.
  revert local. induction others as [|d others IH]; intros local Hl Hall Hc.
  - inversion Hc.
  - apply Forall_cons in Hall as [Hd Hall].
    change (MPI_Allreduce_SUM local (d :: others))
      with (MPI_Allreduce_SUM (local + d) others).
    apply elem_of_cons in Hc as [-> | Hc].
    + pose proof (MPI_Allreduce_SUM_ge (local + d) others Hall). lia.
    + apply IH; [lia | exact Hall | exact Hc].
Qed.

(** What a process passes to the sum-reduction when nothing overflows on it:
    the number of nonzeros of its block. *)
Lemma contribution_exact T others geom :
  valid_geometry geom -> no_overflow T others geom ->
  contribution T geom = Some (block_nonzeros geom).
Proof.
  intros Hv Hfit. pose proof (rows_part T others geom Hfit) as Hrows.
  destruct (valid_geometry_rows geom Hv) as [Hpos Htotal].
  unfold contribution.
  rewrite (machine_totalNumberOfRows_exact T others geom Hv Hfit).
  rewrite (machine_localNumberOfRows_exact T geom Hv Hrows).
  destruct (Z.gtb_spec (nx geom * ny geom * nz geom) 0) as [_|]; [|lia].
  destruct (Z.gtb_spec (nx geom * ny geom * nz geom * size geom) 0) as [_|]; [|lia].
  cbn [negb].
  rewrite (generate_rows_exact T geom Hv Hrows). cbn [mbind option_bind].
  fold (exact_local_nonzeros geom). rewrite (block_nonzeros_exact geom Hv).
  f_equal.
  apply (wrap_below long_long_bits _ (MPI_Allreduce_SUM (block_nonzeros geom) others)).
  - reflexivity.
  - split.
    + pose proof (block_nonzeros_positive geom Hv). lia.
    + apply MPI_Allreduce_SUM_ge, Hfit.
  - apply Hfit.
Qed.

(** The blocks of the processes of a run hold, together, the nonzeros of the
    global matrix. *)
Lemma run_nonzeros_sum peers geom :
  valid_geometry geom -> full_run peers geom ->
  MPI_Allreduce_SUM (block_nonzeros geom) (block_nonzeros <$> peers)
  = grid_nonzeros geom.
Proof.
  intros Hv Hrun.
  rewrite MPI_Allreduce_SUM_sum.
  rewrite <- list_fmap_compose.
  change (block_nonzeros geom + sum_counts (Some ∘ block_nonzeros <$> peers))
    with (default 0 (Some (block_nonzeros geom))
          + sum_counts (Some ∘ block_nonzeros <$> peers)).
  rewrite <- sum_counts_cons.
  change (Some (block_nonzeros geom) :: (Some ∘ block_nonzeros <$> peers))
    with ((fun g => Some (block_nonzeros g)) <$> geom :: peers).
  rewrite (sum_counts_ext _
    (fun g => axis_total (nz geom) (npz geom) (position g).1.1
              * (axis_total (ny geom) (npy geom) (position g).1.2
                 * axis_total (nx geom) (npx geom) (position g).2))).
  2:{ intros g Hg.
      destruct (full_run_valid peers geom g Hv Hrun Hg)
        as (Hvg & Es & Ex & Ey & Ez & Epx & Epy & Epz).
      unfold block_nonzeros, position. cbn [fst snd].
      rewrite Ex, Ey, Ez, Epx, Epy, Epz. ring. }
  destruct Hrun as [_ Hgrid].
  change (map position (geom :: peers)) with (position <$> geom :: peers) in Hgrid.
  rewrite (list_fmap_compose position
             (fun pos : Z * Z * Z =>
                Some (axis_total (nz geom) (npz geom) pos.1.1
                      * (axis_total (ny geom) (npy geom) pos.1.2
                         * axis_total (nx geom) (npx geom) pos.2)))).
  rewrite (sum_counts_permutation _ _ (fmap_Permutation _ _ _ Hgrid)).
  unfold process_grid.
  rewrite (sum_over_points (axis_total (nz geom) (npz geom))
             (axis_total (ny geom) (npy geom)) (axis_total (nx geom) (npx geom))).
  destruct Hv. rewrite !axis_total_grid by assumption.
  unfold grid_nonzeros. ring.
Qed.

(** X11: when the process and its peers are the processes of one run, one
    at each position of the process grid, and nothing overflows on any of
    them, every peer reaches the sum-reduction and passes its count to it,
    and the total number of nonzeros that [GenerateProblem] records after
    the reduction is [(3*gnx - 2) * (3*gny - 2) * (3*gnz - 2)], the number
    of pairs of grid points of the global domain that differ by at most 1 in
    every axis. *)
Theorem total_nonzeros_of_run (T : index_types) (peers : list Geometry)
    (geom : Geometry) :
  valid_geometry geom -> full_run peers geom -> run_without_overflow T peers geom ->
  exists others pr,
    mapM (contribution T) peers = Some others
    /\ GenerateProblem T others geom = Generated pr
    /\ localNumberOfRows pr = nx geom * ny geom * nz geom
    /\ totalNumberOfNonzeros pr
       = (3 * (nx geom * npx geom) - 2) * (3 * (ny geom * npy geom) - 2)
         * (3 * (nz geom * npz geom) - 2).
Proof.
  intros Hv Hrun [Hblocks HL HG H64 HGn].
  pose proof (run_nonzeros_sum peers geom Hv Hrun) as Hsum.
  pose proof (block_nonzeros_positive geom Hv) as Hpos.
  assert (Hnonneg : Forall (fun c => 0 <= c) (block_nonzeros <$> peers)).
  { apply Forall_fmap, Forall_forall. intros g Hg.
    destruct (full_run_valid peers geom g Hv Hrun) as [Hvg _];
      [apply list_elem_of_further, Hg|].
    pose proof (block_nonzeros_positive g Hvg). simpl. lia. }
  assert (Hfit : no_overflow T (block_nonzeros <$> peers) geom).
  { constructor.
    - rewrite Forall_forall in Hblocks. apply Hblocks, list_elem_of_here.
    - exact HL.
    - exact HG.
    - exact Hnonneg.
    - rewrite Hsum. exact H64.
    - rewrite Hsum. exact HGn. }
  assert (Hpeer : forall g, g ∈ peers -> contribution T g = Some (block_nonzeros g)).
  { intros g Hg.
    destruct (full_run_valid peers geom g Hv Hrun) as [Hvg Hsame];
      [apply list_elem_of_further, Hg|].
    destruct Hsame as (Es & Ex & Ey & Ez & _).
    pose proof (block_nonzeros_positive g Hvg) as Hgpos.
    assert (Hrows : rows_without_overflow T g).
    { rewrite Forall_forall in Hblocks. apply Hblocks, list_elem_of_further, Hg. }
    assert (Hle : block_nonzeros g <= grid_nonzeros geom).
    { rewrite <- Hsum. apply MPI_Allreduce_SUM_elem; [lia | exact Hnonneg |].
      apply list_elem_of_fmap. exists g. split; [reflexivity | exact Hg]. }
    apply (contribution_exact T [] g Hvg).
    constructor.
    - exact Hrows.
    - rewrite <- Ex, <- Ey, <- Ez, <- Es. exact HL.
    - rewrite <- Ex, <- Ey, <- Ez, <- Es. exact HG.
    - constructor.
    - change (MPI_Allreduce_SUM (block_nonzeros g) []) with (block_nonzeros g).
      apply (representable_below _ _ (grid_nonzeros geom));
        [reflexivity | lia | exact H64].
    - change (MPI_Allreduce_SUM (block_nonzeros g) []) with (block_nonzeros g).
      apply (representable_below _ _ (grid_nonzeros geom));
        [destruct Hrows; lia | lia | exact HGn]. }
  destruct (run_rows T _ geom Hv Hfit) as (pr & Hgen & Hrows & _).
  destruct (run_fields T _ geom pr Hv Hfit Hgen)
    as (_ & _ & _ & _ & _ & _ & _ & _ & Htotal).
  exists (block_nonzeros <$> peers), pr. split_and!.
  - apply mapM_Some, Forall2_fmap_r, Forall_Forall2_diag, Forall_forall. exact Hpeer.
  - exact Hgen.
  - exact Hrows.
  - rewrite Htotal. exact Hsum.
Qed.

Lemma total_nonzeros_of_run_witness :
  exists others pr,
    mapM (contribution int_and_long_long) [right_process] = Some others
    /\ GenerateProblem int_and_long_long others left_process = Generated pr
    /\ localNumberOfRows pr = nx left_process * ny left_process * nz left_process
    /\ totalNumberOfNonzeros pr
       = (3 * (nx left_process * npx left_process) - 2)
         * (3 * (ny left_process * npy left_process) - 2)
         * (3 * (nz left_process * npz left_process) - 2).
Proof.
  apply (total_nonzeros_of_run int_and_long_long [right_process] left_process).
  - constructor; simpl; lia.
  - split; [|reflexivity].
    constructor; [|constructor]. unfold same_run. simpl. lia.
  - run_fits.
Defined.

(** ** Symmetry of the assembled matrix *)

(** X12: the matrix assembled by the processes of a run is symmetric: when
    nothing overflows on two processes of the same run, each generates its
    [nx*ny*nz] local rows, and when a row generated on one of them holds a
    value in the column of a row generated on the other, that other row
    holds the same value in the column of the first. *)
Theorem matrix_symmetric (T : index_types) (others1 others2 : list Z)
    (g1 g2 : Geometry) :
  valid_geometry g1 -> valid_geometry g2 -> same_run g1 g2 ->
  no_overflow T others1 g1 -> no_overflow T others2 g2 ->
  exists pr1 pr2,
    GenerateProblem T others1 g1 = Generated pr1
    /\ GenerateProblem T others2 g2 = Generated pr2
    /\ localNumberOfRows pr1 = nx g1 * ny g1 * nz g1
    /\ localNumberOfRows pr2 = nx g2 * ny g2 * nz g2
    /\ forall r1 r2 G1 G2 v,
         0 <= r1 < localNumberOfRows pr1 -> 0 <= r2 < localNumberOfRows pr2 ->
         localToGlobalMap pr1 !! Z.to_nat r1 = Some G1 ->
         localToGlobalMap pr2 !! Z.to_nat r2 = Some G2 ->
         stored pr1 r1 G2 v <-> stored pr2 r2 G1 v.
Proof.
  intros Hv1 Hv2 Hrun Hfit1 Hfit2.
  destruct (run_rows T others1 g1 Hv1 Hfit1) as (pr1 & Hgen1 & Hrows1 & _ & _ & Hall1).
  destruct (run_rows T others2 g2 Hv2 Hfit2) as (pr2 & Hgen2 & Hrows2 & _ & _ & Hall2).
  exists pr1, pr2. split; [exact Hgen1|]. split; [exact Hgen2|].
  split; [exact Hrows1|]. split; [exact Hrows2|].
  assert (Hrun' : same_run g2 g1).
  { destruct Hrun as (? & ? & ? & ? & ? & ? & ?). repeat split; congruence. }
  intros r1 r2 G1 G2 v Hr1 Hr2 HG1 HG2.
  destruct (Hall1 r1 Hr1) as (p1 & Hp1 & E1 & _ & Hrow1).
  destruct (Hall2 r2 Hr2) as (p2 & Hp2 & E2 & _ & Hrow2).
  assert (G1 = exact_global_row g1 p1.1.1 p1.1.2 p1.2) as ->.
  { destruct Hrow1 as (_ & _ & _ & _ & Hl & _). rewrite E1 in Hl. congruence. }
  assert (G2 = exact_global_row g2 p2.1.1 p2.1.2 p2.2) as ->.
  { destruct Hrow2 as (_ & _ & _ & _ & Hl & _). rewrite E2 in Hl. congruence. }
  rewrite <- E1, <- E2.
  rewrite (stored_iff g1 pr1 p1 _ v Hrow1), (stored_iff g2 pr2 p2 _ v Hrow2).
  split.
  - intros (o & Ho & Hc & ->).
    destruct (neighbour_symmetric g1 g2 p1 p2 o Hv1 Hv2 Hrun Hp1 Hp2 Ho (eq_sym Hc))
      as (o' & Ho' & Hc').
    exists o'. split; [exact Ho'|]. split; [congruence|].
    rewrite (Z.eqb_sym (exact_global_row g1 p1.1.1 p1.1.2 p1.2)). reflexivity.
  - intros (o & Ho & Hc & ->).
    destruct (neighbour_symmetric g2 g1 p2 p1 o Hv2 Hv1 Hrun' Hp2 Hp1 Ho (eq_sym Hc))
      as (o' & Ho' & Hc').
    exists o'. split; [exact Ho'|]. split; [congruence|].
    rewrite (Z.eqb_sym (exact_global_row g2 p2.1.1 p2.1.2 p2.2)). reflexivity.
Qed.

Lemma matrix_symmetric_witness :
  exists pr1 pr2,
    GenerateProblem int_and_long_long [2] left_process = Generated pr1
    /\ GenerateProblem int_and_long_long [2] right_process = Generated pr2
    /\ localNumberOfRows pr1 = nx left_process * ny left_process * nz left_process
    /\ localNumberOfRows pr2 = nx right_process * ny right_process * nz right_process
    /\ forall r1 r2 G1 G2 v,
         0 <= r1 < localNumberOfRows pr1 -> 0 <= r2 < localNumberOfRows pr2 ->
         localToGlobalMap pr1 !! Z.to_nat r1 = Some G1 ->
         localToGlobalMap pr2 !! Z.to_nat r2 = Some G2 ->
         stored pr1 r1 G2 v <-> stored pr2 r2 G1 v.
Proof.
  apply (matrix_symmetric int_and_long_long [2] [2] left_process right_process);
    [run_fits | run_fits | unfold same_run; simpl; lia | run_fits | run_fits].
Defined.

(** ** The order of the rows *)

(** X13: when nothing overflows in the row loops, the state they leave does
    not depend on the order in which the rows are generated: generating the
    rows of the local points, each once, in any order gives the arrays, maps
    and counts of the nested loops, with every one of the [nx*ny*nz] rows
    filled.  The threaded build distributes the planes [iz] among threads,
    whose row bodies write disjoint cells but for the map and the count,
    which they update one at a time. *)
Theorem row_order_irrelevant (T : index_types) (geom : Geometry)
    (order : list (Z * Z * Z)) :
  valid_geometry geom -> rows_without_overflow T geom -> order ≡ₚ points geom ->
  exists st,
    generate_in_order T geom order = Some st
    /\ generate_rows T geom (Some (allocate (machine_localNumberOfRows T geom)))
       = Some st
    /\ length (nonzerosInRow st) = Z.to_nat (nx geom * ny geom * nz geom)
    /\ Forall (fun cell => is_Some cell) (nonzerosInRow st)
    /\ localNumberOfNonzeros st = sum_counts (nonzerosInRow st).
Proof.
  intros Hv Hfit Horder.
  exists (exact_generate_rows geom (allocate (nx geom * ny geom * nz geom))).
  split; [apply generate_in_order_exact; assumption|].
  split.
  { rewrite (machine_localNumberOfRows_exact T geom Hv Hfit).
    apply generate_rows_exact; assumption. }
  assert (Hlen : length (nonzerosInRow
                   (exact_generate_rows geom (allocate (nx geom * ny geom * nz geom))))
                 = Z.to_nat (nx geom * ny geom * nz geom)).
  { rewrite generate_rows_points, exact_rows_length.
    cbn [allocate nonzerosInRow]. apply length_replicate. }
  split; [exact Hlen|]. split.
  - apply Forall_lookup. intros i cell Hi.
    pose proof (lookup_lt_Some _ _ _ Hi) as Hlt. rewrite Hlen in Hlt.
    destruct (valid_geometry_rows geom Hv) as [Hpos _].
    destruct (point_of_row_spec geom (Z.of_nat i)) as [Hp E];
      [destruct Hv; lia | destruct Hv; lia | lia |].
    destruct (generate_rows_generated geom Hv _ Hp) as [Hc _].
    rewrite E, Nat2Z.id in Hc. rewrite Hc in Hi. injection Hi as <-. eauto.
  - rewrite generate_rows_points.
    apply generate_points_sum.
    + apply NoDup_points.
    + intros q. apply elem_of_points.
    + cbn [allocate localNumberOfNonzeros nonzerosInRow].
      rewrite sum_counts_replicate. reflexivity.
    + intros p Hp. cbn [allocate nonzerosInRow]. apply lookup_replicate_2.
      pose proof (local_row_range geom p Hp). lia.
Qed.

Lemma row_order_irrelevant_witness :
  exists st,
    generate_in_order int_and_long_long small_geometry (reverse (points small_geometry))
    = Some st
    /\ generate_rows int_and_long_long small_geometry
         (Some (allocate (machine_localNumberOfRows int_and_long_long small_geometry)))
       = Some st
    /\ length (nonzerosInRow st)
       = Z.to_nat (nx small_geometry * ny small_geometry * nz small_geometry)
    /\ Forall (fun cell => is_Some cell) (nonzerosInRow st)
    /\ localNumberOfNonzeros st = sum_counts (nonzerosInRow st).
Proof.
  apply (row_order_irrelevant int_and_long_long small_geometry).
  - run_fits.
  - run_fits.
  - apply reverse_Permutation.
Defined.

(** ** The owner of a global row *)

(** X14: every row of the global matrix is generated by the processes at
    exactly one position of the process grid: a global row index below
    [gnx*gny*gnz] is a key of the global-to-local map of a process [g] of
    the run, on which nothing overflows and which generates its [nx*ny*nz]
    local rows, exactly when the process sits at the position that holds the
    grid point of that row. *)
Theorem global_row_has_one_owner (T : index_types) (others : list Z)
    (geom g : Geometry) (G : Z) :
  valid_geometry geom -> valid_geometry g -> same_run geom g ->
  no_overflow T others g ->
  0 <= G < exact_gnx geom * exact_gny geom * exact_gnz geom ->
  owner geom G ∈ process_grid geom
  /\ exists pr, GenerateProblem T others g = Generated pr
       /\ localNumberOfRows pr = nx g * ny g * nz g
       /\ (is_Some (globalToLocalMap pr !! G) <-> position g = owner geom G).
Proof.
  intros Hv Hvg Hsame Hfit HG.
  assert (HX : 0 < exact_gnx geom) by (destruct Hv; unfold exact_gnx; nia).
  assert (HY : 0 < exact_gny geom) by (destruct Hv; unfold exact_gny; nia).
  set (grid := {| size := size geom; rank := rank geom;
                  nx := exact_gnx geom; ny := exact_gny geom; nz := exact_gnz geom;
                  npx := 1; npy := 1; npz := 1; ipx := 0; ipy := 0; ipz := 0 |}).
  destruct (point_of_row_spec grid G HX HY HG) as [(Pz & Py & Px) HGrow].
  unfold point_of_row, exact_local_row in *. cbn [fst snd nx ny nz grid] in *.
  set (gz := G / (exact_gnx geom * exact_gny geom)) in *.
  set (gy := (G / exact_gnx geom) mod exact_gny geom) in *.
  set (gx := G mod exact_gnx geom) in *.
  unfold owner. fold gz gy gx.
  split.
  - apply elem_of_process_grid. cbn [fst snd]. destruct Hv.
    split_and!; try (apply Z.div_pos; lia);
      apply Z.div_lt_upper_bound; unfold exact_gnx, exact_gny, exact_gnz in *; lia.
  - destruct Hsame as (_ & Ex & Ey & Ez & Epx & Epy & Epz).
    assert (EX : exact_gnx g = exact_gnx geom) by (unfold exact_gnx; congruence).
    assert (EY : exact_gny g = exact_gny geom) by (unfold exact_gny; congruence).
    destruct (run_rows T others g Hvg Hfit) as (pr & Hgen & Hpin & _ & Hrows & _).
    exists pr. split; [exact Hgen|]. split; [exact Hpin|]. unfold position. split.
    + intros [r Hr].
      destruct (run_map T others g pr G r Hvg Hfit Hgen Hr) as (p & Hp & Eg & _).
      destruct (global_point_range g p Hvg Hp) as (Gx & Gy & Gz).
      unfold exact_global_row in Eg. rewrite EX, EY in Eg. rewrite EX in Gx. rewrite EY in Gy.
      rewrite <- HGrow in Eg.
      apply lin3_inj in Eg as (Cz & Cy & Cx); [|lia..].
      destruct Hp as (Lz & Ly & Lx). destruct Hvg.
      rewrite Ex, Ey, Ez.
      rewrite (block_coordinate gz (nz g) (npz g) (ipz g) p.1.1),
              (block_coordinate gy (ny g) (npy g) (ipy g) p.1.2),
              (block_coordinate gx (nx g) (npx g) (ipx g) p.2);
        try reflexivity; try lia; unfold exact_global_z, exact_global_y, exact_global_x in *; lia.
    + intros [= Hz Hy Hx]. rewrite Ex, Ey, Ez in *.
      destruct Hvg.
      set (p := (gz - ipz g * nz g, gy - ipy g * ny g, gx - ipx g * nx g)).
      assert (Hp : local_point g p).
      { unfold local_point, p. cbn [fst snd]. rewrite Hz, Hy, Hx.
        split_and!; apply block_offset; lia. }
      destruct (Hrows p Hp) as (_ & _ & _ & _ & _ & Hmap & _).
      exists (exact_local_row g p.1.1 p.1.2 p.2). rewrite <- Hmap. f_equal.
      rewrite <- HGrow. unfold exact_global_row, exact_global_z, exact_global_y, exact_global_x, p.
      cbn [fst snd]. rewrite EX, EY. ring.
Qed.

Lemma global_row_has_one_owner_witness :
  owner left_process 1 ∈ process_grid left_process
  /\ exists pr, GenerateProblem int_and_long_long [2] right_process = Generated pr
       /\ localNumberOfRows pr = nx right_process * ny right_process * nz right_process
       /\ (is_Some (globalToLocalMap pr !! 1)
           <-> position right_process = owner left_process 1).
Proof.
  apply (global_row_has_one_owner int_and_long_long [2] left_process right_process 1).
  - run_fits.
  - run_fits.
  - unfold same_run. simpl. lia.
  - run_fits.
  - unfold exact_gnx, exact_gny, exact_gnz. simpl. lia.
Defined.

(** * Where only the offset of a plane overflows *)

(** ** One stencil entry with a wrapped plane offset *)

Lemma store_entry_wrapped T X Y Z' x y z sz sy sx r :
  32 <= global_bits T ->
  0 < X < 2147483648 -> 0 < Y < 2147483648 ->
  representable (global_bits T) (X * Y * Z' + 2 ^ 32) ->
  0 <= x < X -> 0 <= y < Y -> 0 <= z < Z' ->
  sz ∈ stencil -> sy ∈ stencil -> sx ∈ stencil ->
  store_entry T (z * X * Y + y * X + x) X Y sz sy sx r
  = store_column (z * X * Y + y * X + x)
      (z * X * Y + y * X + x + wrap int_bits (sz * X * Y) + sy * X + sx) r.
Proof.
  intros HT HX HY Hgrid Hx Hy Hz Sz%elem_of_stencil Sy%elem_of_stencil
    Sx%elem_of_stencil.
  pose proof (lin3_range X Y Z' x y z Hx Hy Hz) as R.
  pose proof (proj1 (representable_int _)
                (wrap_range int_bits (sz * X * Y) eq_refl)) as HW.
  set (row := z * X * Y + y * X + x) in *.
  set (W := wrap int_bits (sz * X * Y)) in *.
  change (2 ^ 32) with 4294967296 in Hgrid.
  assert (Hbits : 0 < global_bits T) by lia.
  assert (Hpos : 0 < 2 ^ (global_bits T - 1)) by (apply Z.pow_pos_nonneg; lia).
  assert (Hfits : forall v, -4294967296 <= v < X * Y * Z' + 4294967296 ->
                            wrap (global_bits T) v = v).
  { intros v Hv. apply wrap_representable; [exact Hbits|].
    destruct Hgrid as [_ Hhi]. unfold representable. lia. }
  assert (E : wrap (global_bits T)
                (wrap (Z.max int_bits (global_bits T))
                   (wrap (Z.max int_bits (global_bits T))
                      (wrap (Z.max int_bits (global_bits T))
                         (row + wrap int_bits (wrap int_bits (sz * X) * Y))
                       + wrap int_bits (sy * X))
                    + sx))
              = row + W + sy * X + sx).
  { rewrite max_int_bits by exact HT.
    rewrite (wrap_small int_bits (sz * X)) by (unfold int_bits; lia).
    rewrite (wrap_small int_bits (sy * X)) by (unfold int_bits; lia).
    fold W.
    rewrite (Hfits (row + W)) by lia.
    rewrite (Hfits (row + W + sy * X)) by lia.
    rewrite (Hfits (row + W + sy * X + sx)) by lia.
    apply Hfits. lia. }
  unfold store_entry, store_column. cbv zeta. rewrite E. reflexivity.
Qed.

Lemma stencil_loops_wrapped T X Y Z' x y z r :
  32 <= global_bits T ->
  0 < X < 2147483648 -> 0 < Y < 2147483648 -> Z' < 2147483648 ->
  representable (global_bits T) (X * Y * Z' + 2 ^ 32) ->
  0 <= x < X -> 0 <= y < Y -> 0 <= z < Z' ->
  stencil_loops T (z * X * Y + y * X + x) x y z X Y Z' r
  = fold_left
      (fun r o =>
         store_column (z * X * Y + y * X + x)
           (z * X * Y + y * X + x + wrap int_bits (o.1.1 * X * Y) + o.1.2 * X + o.2) r)
      (candidates x y z X Y Z') r.
Proof.
  intros HT HX HY HZ Hgrid Hx Hy Hz.
  unfold stencil_loops, candidates.
  rewrite fold_left_bind. apply fold_left_ext_in. intros r1 sz Hsz.
  rewrite in_bounds_exact by (try assumption; lia).
  destruct (exact_in_bounds z Z' sz); [|reflexivity].
  rewrite fold_left_bind. apply fold_left_ext_in. intros r2 sy Hsy.
  rewrite in_bounds_exact by (try assumption; lia).
  destruct (exact_in_bounds y Y sy); [|reflexivity].
  rewrite fold_left_bind. apply fold_left_ext_in. intros r3 sx Hsx.
  rewrite in_bounds_exact by (try assumption; lia).
  destruct (exact_in_bounds x X sx); [|reflexivity].
  cbn [fold_left fst snd].
  apply (store_entry_wrapped T X Y Z'); assumption.
Qed.

(** ** The row loops with wrapped plane offsets *)

Section WrappedRows.
Variable T : index_types.
Variable geom : Geometry.
Hypothesis Hvalid : valid_geometry geom.
Hypothesis Hfit : indices_fit T geom.
Hypothesis Hcolumns :
  representable (global_bits T)
    (exact_gnx geom * exact_gny geom * exact_gnz geom + 2 ^ 32).

Let rows : nat := Z.to_nat (nx geom * ny geom * nz geom).

Lemma stencil_loops_row_wrapped p r :
  local_point geom p ->
  stencil_loops T (exact_global_row geom p.1.1 p.1.2 p.2)
    (exact_global_x geom p.2) (exact_global_y geom p.1.2) (exact_global_z geom p.1.1)
    (exact_gnx geom) (exact_gny geom) (exact_gnz geom) r
  = fold_left
      (fun r o => store_column (exact_global_row geom p.1.1 p.1.2 p.2)
                    (wrapped_column geom p o) r)
      (row_entries geom p) r.
Proof.
  intros Hp. destruct (global_point_range geom p Hvalid Hp) as (Gx & Gy & Gz).
  destruct (extents_in_int T geom Hvalid Hfit) as (HX & HY & HZ & _).
  unfold exact_global_row, wrapped_column, row_entries, exact_global_row.
  apply (stencil_loops_wrapped T (exact_gnx geom) (exact_gny geom) (exact_gnz geom));
    try lia; try assumption; apply Hfit.
Qed.

Lemma wrapped_at_nonzeros st p :
  localNumberOfNonzeros (wrapped_generate_at geom st p)
  = localNumberOfNonzeros st + Z.of_nat (length (row_entries geom p)).
Proof.
  unfold wrapped_generate_at. cbn [localNumberOfNonzeros].
  destruct (stored_fields (exact_global_row geom p.1.1 p.1.2 p.2)
              (wrapped_column geom p) (row_entries geom p)
              (open_row st (exact_local_row geom p.1.1 p.1.2 p.2)))
    as (-> & _).
  reflexivity.
Qed.

Lemma wrapped_points_nonzeros l st :
  localNumberOfNonzeros (fold_left (wrapped_generate_at geom) l st)
  = localNumberOfNonzeros (fold_left (exact_generate_at geom) l st).
Proof.
  induction l as [|q l IH] using rev_ind; [reflexivity|].
  rewrite !fold_left_app. cbn [fold_left].
  rewrite wrapped_at_nonzeros, generate_at_nonzeros, IH. reflexivity.
Qed.

Lemma wrapped_rows_length l st :
  length (nonzerosInRow (fold_left (wrapped_generate_at geom) l st))
  = length (nonzerosInRow st).
Proof.
  induction l as [|q l IH] using rev_ind; [reflexivity|].
  rewrite fold_left_app. cbn [fold_left].
  unfold wrapped_generate_at at 1. cbn [nonzerosInRow].
  rewrite length_insert. exact IH.
Qed.

(** The body of the row loops stores wrapped columns, as long as the
    running count of nonzeros fits [local_int_t]. *)
Lemma generate_row_wrapped st p :
  local_point geom p ->
  length (nonzerosInRow st) = rows ->
  representable (local_bits T)
    (localNumberOfNonzeros (wrapped_generate_at geom st p)) ->
  generate_row T geom p.1.1 p.1.2 p.2 st = Some (wrapped_generate_at geom st p).
Proof.
  intros Hp Hlen Hcount. unfold rows in Hlen.
  pose proof (local_row_range geom p Hp) as Hrange.
  pose proof (fit_local_int_t T geom Hfit) as HL.
  pose proof Hp as (Hz & Hy & Hx).
  unfold generate_row.
  rewrite (machine_global_z T geom Hvalid Hfit), (machine_global_y T geom Hvalid Hfit),
    (machine_global_x T geom Hvalid Hfit) by assumption.
  rewrite (machine_local_row T geom Hvalid Hfit), (machine_global_row T geom Hvalid Hfit)
    by assumption.
  rewrite (machine_gnx T geom Hfit), (machine_gny T geom Hfit), (machine_gnz T geom Hfit).
  destruct (Z.leb_spec 0 (exact_local_row geom p.1.1 p.1.2 p.2)) as [_|]; [|lia].
  destruct (Z.ltb_spec (exact_local_row geom p.1.1 p.1.2 p.2)
              (Z.of_nat (length (nonzerosInRow st)))) as [_|]; [|lia].
  cbn [andb]. cbv zeta.
  rewrite !stencil_loops_row_wrapped by assumption.
  unfold wrapped_generate_at in *. cbv zeta in *.
  cbn [localNumberOfNonzeros] in Hcount.
  rewrite max_int_bits by exact HL.
  set (c := localNumberOfNonzeros st + _) in *.
  rewrite !(wrap_representable (local_bits T) c) by (try lia; exact Hcount).
  reflexivity.
Qed.

Lemma generate_points_wrapped l st :
  (forall p, p ∈ l -> local_point geom p) ->
  length (nonzerosInRow st) = rows ->
  0 <= localNumberOfNonzeros st ->
  representable (local_bits T)
    (localNumberOfNonzeros (fold_left (exact_generate_at geom) l st)) ->
  fold_left (generate_at T geom) l (Some st)
  = Some (fold_left (wrapped_generate_at geom) l st).
Proof.
  intros Hl Hlen Hst.
  induction l as [|q l IH] using rev_ind; intros Hcount; [reflexivity|].
  rewrite !fold_left_app in *. cbn [fold_left] in *.
  assert (Hq : local_point geom q).
  { apply Hl, elem_of_app. right. apply list_elem_of_singleton. reflexivity. }
  pose proof (generate_points_nonzeros geom 0 l st ltac:(intros; lia)) as Hlow.
  pose proof (generate_at_nonzeros geom (fold_left (exact_generate_at geom) l st) q)
    as Hstep.
  rewrite IH.
  - unfold generate_at. cbn [mbind option_bind].
    apply generate_row_wrapped; try assumption.
    + rewrite wrapped_rows_length. exact Hlen.
    + rewrite wrapped_at_nonzeros, wrapped_points_nonzeros, <- Hstep. exact Hcount.
  - intros p Hp. apply Hl, elem_of_app. left. exact Hp.
  - apply (representable_below _ _
             (localNumberOfNonzeros
                (exact_generate_at geom (fold_left (exact_generate_at geom) l st) q)));
      [destruct Hfit; lia | lia | exact Hcount].
Qed.

Lemma allocate_wrapped_sized :
  wrapped_sized rows (allocate (nx geom * ny geom * nz geom)).
Proof.
  unfold wrapped_sized, allocate.
  cbn [nonzerosInRow mtxIndG matrixValues localToGlobalMap].
  rewrite !length_replicate. fold rows. split_and!; try reflexivity.
  - apply Forall_replicate, length_replicate.
  - apply Forall_replicate, length_replicate.
Qed.

Lemma wrapped_at_sized st p :
  wrapped_sized rows st -> wrapped_sized rows (wrapped_generate_at geom st p).
Proof.
  intros (H1 & H2 & H3 & Hvs & Hjs & H4).
  unfold wrapped_sized, wrapped_generate_at.
  cbn [nonzerosInRow mtxIndG matrixValues localToGlobalMap].
  rewrite !length_insert.
  set (i := Z.to_nat (exact_local_row geom p.1.1 p.1.2 p.2)).
  split_and!; try assumption.
  - destruct (decide (i < length (matrixValues st))%nat) as [Hi | Hi].
    + apply Forall_insert; [exact Hvs|].
      destruct (stored_fields (exact_global_row geom p.1.1 p.1.2 p.2)
                  (wrapped_column geom p) (row_entries geom p)
                  (open_row st (exact_local_row geom p.1.1 p.1.2 p.2)))
        as (_ & _ & _ & -> & _).
      unfold open_row. cbn [values]. fold i.
      destruct (lookup_lt_is_Some_2 _ _ Hi) as [vs Hl]. rewrite Hl. simpl.
      rewrite Forall_forall in Hvs. eapply Hvs, list_elem_of_lookup_2, Hl.
    + rewrite list_insert_ge by lia. exact Hvs.
  - destruct (decide (i < length (mtxIndG st))%nat) as [Hi | Hi].
    + apply Forall_insert; [exact Hjs|].
      destruct (stored_fields (exact_global_row geom p.1.1 p.1.2 p.2)
                  (wrapped_column geom p) (row_entries geom p)
                  (open_row st (exact_local_row geom p.1.1 p.1.2 p.2)))
        as (_ & _ & _ & _ & ->).
      unfold open_row. cbn [indices]. fold i.
      destruct (lookup_lt_is_Some_2 _ _ Hi) as [js Hl]. rewrite Hl. simpl.
      rewrite Forall_forall in Hjs. eapply Hjs, list_elem_of_lookup_2, Hl.
    + rewrite list_insert_ge by lia. exact Hjs.
Qed.

Lemma wrapped_at_other st p q :
  local_point geom p -> local_point geom q -> p <> q ->
  wrapped_row geom st q -> wrapped_row geom (wrapped_generate_at geom st p) q.
Proof.
  intros Hp Hq Hne. pose proof (local_row_index_ne geom p q Hp Hq Hne) as Hi.
  unfold wrapped_row, wrapped_generate_at.
  cbn [nonzerosInRow mtxIndG matrixValues localToGlobalMap].
  rewrite !list_lookup_insert_ne by exact Hi. tauto.
Qed.

Lemma wrapped_at_this st p :
  local_point geom p -> wrapped_sized rows st ->
  wrapped_row geom (wrapped_generate_at geom st p) p.
Proof.
  intros Hp (H1 & H2 & H3 & Hvs & Hjs & H4).
  pose proof (local_row_index geom p Hp) as Hi. fold rows in Hi.
  unfold wrapped_row, wrapped_generate_at.
  cbn [nonzerosInRow mtxIndG matrixValues localToGlobalMap].
  set (i := Z.to_nat (exact_local_row geom p.1.1 p.1.2 p.2)) in *.
  set (r0 := open_row st (exact_local_row geom p.1.1 p.1.2 p.2)).
  set (row := exact_global_row geom p.1.1 p.1.2 p.2).
  assert (Hr0v : length (values r0) = numberOfNonzerosPerRow).
  { unfold r0, open_row. cbn [values]. fold i.
    destruct (lookup_lt_is_Some_2 (matrixValues st) i) as [vs Hl]; [lia|].
    rewrite Hl. simpl. rewrite Forall_forall in Hvs.
    eapply Hvs, list_elem_of_lookup_2, Hl. }
  assert (Hr0j : length (indices r0) = numberOfNonzerosPerRow).
  { unfold r0, open_row. cbn [indices]. fold i.
    destruct (lookup_lt_is_Some_2 (mtxIndG st) i) as [js Hl]; [lia|].
    rewrite Hl. simpl. rewrite Forall_forall in Hjs.
    eapply Hjs, list_elem_of_lookup_2, Hl. }
  pose proof (row_entries_count_le geom p) as Hle.
  destruct (stored_fields row (wrapped_column geom p) (row_entries geom p) r0)
    as (Hcount & _ & _ & _ & Hlj).
  rewrite Hcount.
  rewrite !list_lookup_insert_eq by lia.
  split_and!.
  - unfold r0, open_row. cbn [numberOfNonzerosInRow]. rewrite Z.add_0_l. reflexivity.
  - eexists. split; [reflexivity|].
    intros j o Hj.
    apply (stored_slots row (wrapped_column geom p) (row_entries geom p) r0);
      [ unfold numberOfNonzerosPerRow in *; cbn [r0 open_row currentValuePointer]; lia
      | unfold numberOfNonzerosPerRow in *; cbn [r0 open_row currentIndexPointerG]; lia
      | exact Hj ].
  - eexists. split; [reflexivity|].
    intros j o Hj.
    apply (stored_slots row (wrapped_column geom p) (row_entries geom p) r0);
      [ unfold numberOfNonzerosPerRow in *; cbn [r0 open_row currentValuePointer]; lia
      | unfold numberOfNonzerosPerRow in *; cbn [r0 open_row currentIndexPointerG]; lia
      | exact Hj ].
  - reflexivity.
Qed.

(** After the loops over a list of local points, every point of the list
    has its columns stored. *)
Lemma wrapped_points_rows l st :
  wrapped_sized rows st -> (forall p, p ∈ l -> local_point geom p) ->
  wrapped_sized rows (fold_left (wrapped_generate_at geom) l st)
  /\ forall p, p ∈ l -> wrapped_row geom (fold_left (wrapped_generate_at geom) l st) p.
Proof.
  intros Hst. induction l as [|q l IH] using rev_ind; intros Hl.
  - split; [exact Hst | intros p Hp; inversion Hp].
  - rewrite fold_left_app. simpl.
    destruct IH as [Hsized Hrows].
    { intros p Hp. apply Hl, elem_of_app. left. exact Hp. }
    assert (Hq : local_point geom q).
    { apply Hl, elem_of_app. right. apply list_elem_of_singleton. reflexivity. }
    split; [apply wrapped_at_sized, Hsized|].
    intros p [Hp | ->%list_elem_of_singleton]%elem_of_app.
    + destruct (decide (q = p)) as [-> | Hne].
      * apply wrapped_at_this; assumption.
      * apply wrapped_at_other; auto.
        apply Hl, elem_of_app. left. exact Hp.
    + apply wrapped_at_this; assumption.
Qed.

End WrappedRows.

(** ** The run with wrapped plane offsets *)

Section WrappedRun.
Variable T : index_types.
Variable others : list Z.
Variable geom : Geometry.
Hypothesis Hvalid : valid_geometry geom.
Hypothesis Hfit : only_plane_may_overflow T others geom.

(** The run ends with the problem generated, its columns wrapped. *)
Lemma wrapped_run :
  GenerateProblem T others geom
  = Generated
      (let st := fold_left (wrapped_generate_at geom) (points geom)
                   (allocate (nx geom * ny geom * nz geom)) in
       {| totalNumberOfRows := nx geom * ny geom * nz geom * size geom;
          totalNumberOfNonzeros := MPI_Allreduce_SUM (block_nonzeros geom) others;
          localNumberOfRows := nx geom * ny geom * nz geom;
          localNumberOfColumns := nx geom * ny geom * nz geom;
          localNumberOfNonzeros := block_nonzeros geom;
          nonzerosInRow := nonzerosInRow st;
          mtxIndG := mtxIndG st;
          mtxIndL := mtxIndL st;
          matrixValues := matrixValues st;
          matrixDiagonal := matrixDiagonal st;
          localToGlobalMap := localToGlobalMap st;
          globalToLocalMap := globalToLocalMap st;
          b := b st;
          x := x st;
          xexact := xexact st |}).
Proof.
  destruct Hfit as [Hind Hcols HL HG Hothers H64 Hsum].
  pose proof (fit_local_int_t T geom Hind) as Hlocal.
  pose proof (fit_global_int_t T geom Hind) as Hglobal.
  pose proof (fit_rows T geom Hind) as Hrows.
  destruct (valid_geometry_rows geom Hvalid) as [Hpos Htotal].
  pose proof (block_nonzeros_positive geom Hvalid) as Hblock.
  destruct (reduction_fits T others (block_nonzeros geom) Hglobal Hblock Hothers H64 Hsum)
    as [Ered Hredpos].
  assert (Ecount : localNumberOfNonzeros
                     (fold_left (wrapped_generate_at geom) (points geom)
                        (allocate (nx geom * ny geom * nz geom)))
                   = block_nonzeros geom).
  { rewrite wrapped_points_nonzeros, <- generate_rows_points.
    apply (block_nonzeros_exact geom Hvalid). }
  unfold GenerateProblem. cbv zeta.
  rewrite (machine_totalNumberOfRows_fits T geom Hvalid Hlocal Hglobal Hrows HL HG).
  rewrite (machine_localNumberOfRows_fits T geom Hvalid Hlocal Hrows).
  destruct (Z.gtb_spec (nx geom * ny geom * nz geom) 0) as [_|]; [|lia].
  destruct (Z.gtb_spec (nx geom * ny geom * nz geom * size geom) 0) as [_|]; [|lia].
  cbn [negb].
  rewrite generate_rows_order.
  rewrite (generate_points_wrapped T geom Hvalid Hind Hcols).
  - rewrite Ecount, Ered.
    destruct (Z.gtb_spec (MPI_Allreduce_SUM (block_nonzeros geom) others) 0) as [_|];
      [|lia].
    reflexivity.
  - intros p. apply elem_of_points.
  - cbn [allocate nonzerosInRow]. apply length_replicate.
  - cbn [allocate localNumberOfNonzeros]. lia.
  - rewrite <- generate_rows_points.
    fold (exact_local_nonzeros geom). rewrite (block_nonzeros_exact geom Hvalid).
    apply Hind.
Qed.

(** The generated problem, row by row. *)
Lemma wrapped_run_rows :
  exists pr, GenerateProblem T others geom = Generated pr
    /\ localNumberOfRows pr = nx geom * ny geom * nz geom
    /\ forall r, 0 <= r < localNumberOfRows pr ->
         local_point geom (point_of_row geom r)
         /\ exact_local_row geom (point_of_row geom r).1.1 (point_of_row geom r).1.2
              (point_of_row geom r).2 = r
         /\ wrapped_row geom pr (point_of_row geom r).
Proof.
  eexists. split; [exact wrapped_run|]. cbv zeta. split; [reflexivity|].
  cbn [localNumberOfRows]. intros r Hr.
  destruct (point_of_row_spec geom r) as [Hp E];
    [apply Hvalid | apply Hvalid | exact Hr|].
  split; [exact Hp|]. split; [exact E|].
  destruct (wrapped_points_rows geom (points geom)
              (allocate (nx geom * ny geom * nz geom))) as [_ Hrows].
  - apply allocate_wrapped_sized.
  - intros q. apply elem_of_points.
  - apply (Hrows (point_of_row geom r)), elem_of_points, Hp.
Qed.

End WrappedRun.

(** ** The stored columns *)

Lemma wrapped_column_exact geom p o :
  wrapped_column geom p o = column geom p o
  <-> representable int_bits (o.1.1 * exact_gnx geom * exact_gny geom).
Proof.
  unfold wrapped_column, column. split.
  - intros E.
    assert (E' : wrap int_bits (o.1.1 * exact_gnx geom * exact_gny geom)
                 = o.1.1 * exact_gnx geom * exact_gny geom) by lia.
    rewrite <- E'. apply wrap_range. reflexivity.
  - intros Hfit. rewrite (wrap_representable int_bits) by (try reflexivity; exact Hfit).
    reflexivity.
Qed.

(** X15: when no integer operation of the run overflows but for the product
    [sz*gnx*gny] of [curcol], formed in [int], the run ends with the
    [nx*ny*nz] local rows generated; every row holds one entry for each
    neighbour inside the global domain, in the order of the stencil loops,
    and the column stored for an entry is the index of the neighbour with
    [sz*gnx*gny] wrapped to an [int]: it is the index of the neighbour
    exactly when that product fits an [int]; the value stored with it is
    27.0 when the stored column is the global index of the row, as the
    local-to-global map records it, and -1.0 otherwise. *)
Theorem columns_with_wrapped_plane (T : index_types) (others : list Z)
    (geom : Geometry) :
  valid_geometry geom -> only_plane_may_overflow T others geom ->
  exists pr, GenerateProblem T others geom = Generated pr
    /\ localNumberOfRows pr = nx geom * ny geom * nz geom
    /\ forall r, 0 <= r < localNumberOfRows pr ->
         let p := point_of_row geom r in
         exists vs js grow,
           nonzerosInRow pr !! Z.to_nat r
           = Some (Some (Z.of_nat (length (row_entries geom p))))
           /\ localToGlobalMap pr !! Z.to_nat r = Some grow
           /\ matrixValues pr !! Z.to_nat r = Some vs
           /\ mtxIndG pr !! Z.to_nat r = Some js
           /\ forall j o, row_entries geom p !! j = Some o ->
                exists c,
                  js !! j = Some (Some c)
                  /\ c = column geom p o - o.1.1 * exact_gnx geom * exact_gny geom
                         + wrap int_bits (o.1.1 * exact_gnx geom * exact_gny geom)
                  /\ (c = column geom p o
                      <-> representable int_bits
                            (o.1.1 * exact_gnx geom * exact_gny geom))
                  /\ vs !! j
                     = Some (Some (if c =? grow then of_Z 27 else of_Z (-1))).
Proof.
  intros Hv Hfit.
  destruct (wrapped_run_rows T others geom Hv Hfit) as (pr & Hgen & Hrows & Hall).
  exists pr. split; [exact Hgen|]. split; [exact Hrows|]. intros r Hr p.
  destruct (Hall r Hr)
    as (Hp & E & Hcount & (vs & Hvs & Hvslots) & (js & Hjs & Hjslots) & Hl2g).
  fold p in Hp, E, Hcount, Hvs, Hvslots, Hjs, Hjslots, Hl2g.
  rewrite E in Hcount, Hvs, Hjs, Hl2g.
  exists vs, js, (exact_global_row geom p.1.1 p.1.2 p.2).
  split; [exact Hcount|]. split; [exact Hl2g|]. split; [exact Hvs|]. split; [exact Hjs|].
  intros j o Ho. exists (wrapped_column geom p o).
  split; [exact (Hjslots j o Ho)|]. split; [unfold wrapped_column, column; ring|].
  split; [apply wrapped_column_exact|]. exact (Hvslots j o Ho).
Qed.

Lemma columns_with_wrapped_plane_witness :
  exists pr, GenerateProblem long_long_indices [] wide_plane = Generated pr
    /\ localNumberOfRows pr = nx wide_plane * ny wide_plane * nz wide_plane
    /\ forall r, 0 <= r < localNumberOfRows pr ->
         let p := point_of_row wide_plane r in
         exists vs js grow,
           nonzerosInRow pr !! Z.to_nat r
           = Some (Some (Z.of_nat (length (row_entries wide_plane p))))
           /\ localToGlobalMap pr !! Z.to_nat r = Some grow
           /\ matrixValues pr !! Z.to_nat r = Some vs
           /\ mtxIndG pr !! Z.to_nat r = Some js
           /\ forall j o, row_entries wide_plane p !! j = Some o ->
                exists c,
                  js !! j = Some (Some c)
                  /\ c = column wide_plane p o
                         - o.1.1 * exact_gnx wide_plane * exact_gny wide_plane
                         + wrap int_bits (o.1.1 * exact_gnx wide_plane * exact_gny wide_plane)
                  /\ (c = column wide_plane p o
                      <-> representable int_bits
                            (o.1.1 * exact_gnx wide_plane * exact_gny wide_plane))
                  /\ vs !! j
                     = Some (Some (if c =? grow then of_Z 27 else of_Z (-1))).
Proof.
  apply (columns_with_wrapped_plane long_long_indices [] wide_plane); run_fits.
Defined.

(** X16: the three assertions do not guard the column index.  When a plane
    of the global domain holds more than 2^31 points and no other integer
    operation of the run overflows, no assertion fails and the [nx*ny*nz]
    local rows are generated, yet the column stored for every stencil entry
    of the plane below or above is not the index of the neighbour; the
    global domain having two planes or more, every row holds such an
    entry. *)
Theorem assertions_do_not_guard_curcol (T : index_types) (others : list Z)
    (geom : Geometry) :
  valid_geometry geom -> only_plane_may_overflow T others geom ->
  2 ^ 31 < exact_gnx geom * exact_gny geom -> 2 <= exact_gnz geom ->
  exists pr, GenerateProblem T others geom = Generated pr
    /\ localNumberOfRows pr = nx geom * ny geom * nz geom
    /\ forall r, 0 <= r < localNumberOfRows pr ->
         let p := point_of_row geom r in
         exists js,
           mtxIndG pr !! Z.to_nat r = Some js
           /\ (forall j o, row_entries geom p !! j = Some o -> o.1.1 <> 0 ->
                 exists c, js !! j = Some (Some c) /\ c <> column geom p o)
           /\ exists j o c, row_entries geom p !! j = Some o /\ o.1.1 <> 0
                            /\ js !! j = Some (Some c) /\ c <> column geom p o.
Proof.
  intros Hv Hfit Hplane Hgnz.
  destruct (wrapped_run_rows T others geom Hv Hfit) as (pr & Hgen & Hrows & Hall).
  exists pr. split; [exact Hgen|]. split; [exact Hrows|]. intros r Hr p.
  destruct (Hall r Hr) as (Hp & E & _ & _ & (js & Hjs & Hjslots) & _).
  fold p in Hp, E, Hjs, Hjslots. rewrite E in Hjs.
  assert (Hwrong : forall j o, row_entries geom p !! j = Some o -> o.1.1 <> 0 ->
            exists c, js !! j = Some (Some c) /\ c <> column geom p o).
  { intros j o Ho Hsz. exists (wrapped_column geom p o).
    split; [exact (Hjslots j o Ho)|].
    intros Heq. apply (proj1 (wrapped_column_exact _ _ _)) in Heq.
    apply (proj1 (representable_int _)) in Heq.
    apply list_elem_of_lookup_2, elem_of_row_entries in Ho as ((Sz & _) & _).
    apply elem_of_stencil in Sz.
    change (2 ^ 31) with 2147483648 in Hplane.
    destruct Sz as [Esz | [Esz | Esz]]; rewrite Esz in Heq; lia. }
  exists js. split; [exact Hjs|]. split; [exact Hwrong|].
  destruct (global_point_range geom p Hv Hp) as (Gx & Gy & Gz).
  set (sz := if decide (exact_global_z geom p.1.1 + 1 < exact_gnz geom) then 1 else -1).
  assert (Ho : (sz, 0, 0) ∈ row_entries geom p).
  { apply elem_of_row_entries. cbn [fst snd]. rewrite !elem_of_stencil.
    unfold sz. case_decide; split_and!; lia. }
  apply list_elem_of_lookup_1 in Ho as [j Ho].
  assert (Hsz : (sz, 0, 0).1.1 <> 0) by (cbn [fst snd]; unfold sz; case_decide; lia).
  destruct (Hwrong j _ Ho Hsz) as (c & Hc & Hne).
  exists j, (sz, 0, 0), c. split_and!; assumption.
Qed.

Lemma assertions_do_not_guard_curcol_witness :
  exists pr, GenerateProblem long_long_indices [] wide_plane = Generated pr
    /\ localNumberOfRows pr = nx wide_plane * ny wide_plane * nz wide_plane
    /\ forall r, 0 <= r < localNumberOfRows pr ->
         let p := point_of_row wide_plane r in
         exists js,
           mtxIndG pr !! Z.to_nat r = Some js
           /\ (forall j o, row_entries wide_plane p !! j = Some o -> o.1.1 <> 0 ->
                 exists c, js !! j = Some (Some c) /\ c <> column wide_plane p o)
           /\ exists j o c, row_entries wide_plane p !! j = Some o /\ o.1.1 <> 0
                            /\ js !! j = Some (Some c) /\ c <> column wide_plane p o.
Proof.
  apply (assertions_do_not_guard_curcol long_long_indices [] wide_plane);
    [run_fits | run_fits | vm_compute; reflexivity | vm_compute; discriminate].
Defined.
